(** * js-series / atomics: counters over shared memory, a mutex, and the worker task

    A shallow embedding of [src/atomics/src/public]:
    - [counter-example1.js]  the unsynchronised counter,
    - [counter-example2.js]  the counter built on [Atomics],
    - [counter-example3.js]  the counter guarded by a mutex,
    - [mutex.js]             the mutex (compare-and-swap plus wait/notify),
    - [counter.js]           the module that selects one counter,
    - [counting-worker.js]   the message handler run by every worker.

    The first part models the pieces of the JavaScript runtime the code calls
    (shared data blocks, 32-bit typed-array views, [Atomics]); the classes
    follow, method by method; the theorems come last. *)

From Stdlib Require Import ZArith List String Lia Bool DecimalString.
From coqutil Require Import Byte Word.LittleEndianList Z.PushPullMod.
From Equations Require Import Equations.
From stdpp Require Import base option gmap.

Local Open Scope string_scope.
Local Open Scope list_scope.
Local Open Scope Z_scope.

(** ** The runtime *)

Module JS.

(** Errors are told apart by constructor and message, as a handler would. *)
Inductive error : Type :=
| Error (message : string)
| RangeError (message : string)
| TypeError (message : string).

(** The values that reach the code under study.  A [SharedArrayBuffer] is
    known by the identity of its data block; an [ArrayBuffer] is present only
    so that the [instanceof] test has something to reject.  Numbers are the
    integer-valued ones. *)
Inductive value : Type :=
| VUndefined
| VNull
| VBoolean (b : bool)
| VNumber (n : Z)
| VString (s : string)
| VArrayBuffer (byteLength : Z)
| VSharedArrayBuffer (block : nat).

(** An agent (the main thread or a worker) is known by a number. *)
Definition agent := nat.

(** An agent asleep in [Atomics.wait], and the location it waits on. *)
Record waiter : Type := Waiter {
  waiter_block : nat;
  waiter_byteIndex : nat;
  waiter_agent : agent
}.

(** What a worker sends to the main thread with [postMessage]. *)
Record report : Type := Report {
  done : bool;
  count : value
}.

(** Everything the agents share or emit: the data blocks of the shared
    buffers, the agents asleep in [Atomics.wait] (oldest first), the console
    and the messages posted to the main thread (both oldest first). *)
Record world : Type := World {
  heap : gmap nat (list byte);
  waiters : list waiter;
  console : list string;
  outbox : list report
}.

Definition set_heap (h : gmap nat (list byte)) (w : world) : world :=
  {| heap := h; waiters := waiters w; console := console w; outbox := outbox w |}.

Definition set_waiters (l : list waiter) (w : world) : world :=
  {| heap := heap w; waiters := l; console := console w; outbox := outbox w |}.

(** How a call made by one agent ends: it returns, it throws, the agent is
    put to sleep in [Atomics.wait] (the call has not returned yet), or the
    model ran out of fuel in an unbounded loop. *)
Inductive outcome (A : Type) : Type :=
| Returned (a : A) (w : world)
| Thrown (e : error) (w : world)
| Suspended (w : world)
| OutOfFuel.
Arguments Returned {A} a w.
Arguments Thrown {A} e w.
Arguments Suspended {A} w.
Arguments OutOfFuel {A}.

Definition M (A : Type) : Type := world -> outcome A.

Definition ret {A} (a : A) : M A := fun w => Returned a w.
Definition throw {A} (e : error) : M A := fun w => Thrown e w.
Definition bind {A B} (m : M A) (k : A -> M B) : M B :=
  fun w =>
    match m w with
    | Returned a w' => k a w'
    | Thrown e w' => Thrown e w'
    | Suspended w' => Suspended w'
    | OutOfFuel => OutOfFuel
    end.

Declare Scope js_scope.
Delimit Scope js_scope with js.
Notation "x <- m ;; k" := (bind m (fun x => k))
  (at level 100, m at next level, right associativity) : js_scope.
Notation "m ;; k" := (bind m (fun _ => k))
  (at level 100, right associativity) : js_scope.
Local Open Scope js_scope.

Definition console_log (line : string) : M unit :=
  fun w => Returned tt
    {| heap := heap w; waiters := waiters w;
       console := console w ++ [line]; outbox := outbox w |}.

Definition postMessage (r : report) : M unit :=
  fun w => Returned tt
    {| heap := heap w; waiters := waiters w;
       console := console w; outbox := outbox w ++ [r] |}.

(** *** Numbers

    [+] on Numbers is the addition of doubles: exact up to 2^53 in absolute
    value, rounded to 53 significant bits (ties to even) beyond.  (Past the
    largest double the sum is an infinity; what is stored of it in a 32-bit
    element is 0, as it is of the rounded integer.) *)
Definition round_to_double (z : Z) : Z :=
  let a := Z.abs z in
  if a <=? 2 ^ 53 then z
  else
    let e := Z.log2 a - 52 in
    let q := Z.shiftr a e in
    let r := a mod 2 ^ e in
    let half := 2 ^ (e - 1) in
    let q' := if r <? half then q
              else if half <? r then q + 1
              else if Z.even q then q else q + 1 in
    Z.sgn z * Z.shiftl q' e.

Definition number_add (a b : Z) : Z := round_to_double (a + b).

(** [ToUint32] and [ToInt32] of an integer-valued Number. *)
Definition ToUint32 (z : Z) : Z := z mod 2 ^ 32.
Definition ToInt32 (z : Z) : Z :=
  let u := z mod 2 ^ 32 in if u <? 2 ^ 31 then u else u - 2 ^ 32.

(** *** Shared buffers

    The buffers are of fixed length (what [new SharedArrayBuffer(n)] makes, as
    in [main.js]); the byte length of one is the length of its data block.  A
    number that names no block of the heap stands for a buffer of no bytes. *)
Definition data_block (w : world) (block : nat) : list byte :=
  default [] (heap w !! block).

Definition byteLength (w : world) (block : nat) : Z :=
  Z.of_nat (length (data_block w block)).

(** *** Typed arrays of 32-bit elements *)
Inductive elementType : Type := Uint32 | Int32.

Definition BYTES_PER_ELEMENT : Z := 4.

Record TypedArray : Type := View {
  view_type : elementType;
  view_buffer : nat
}.

Definition constructor_name (ty : elementType) : string :=
  match ty with
  | Uint32 => "Uint32Array"
  | Int32 => "Int32Array"
  end.

(** [new Uint32Array(buffer)] and [new Int32Array(buffer)] on a buffer of
    fixed length: a [RangeError] unless the byte length is a multiple of the
    element size. *)
Definition new_TypedArray (ty : elementType) (block : nat) : M TypedArray :=
  fun w =>
    if byteLength w block mod BYTES_PER_ELEMENT =? 0
    then Returned (View ty block) w
    else Thrown (RangeError ("byte length of " ++ constructor_name ty
                               ++ " should be a multiple of 4")) w.

(** The number of elements; the buffer cannot change its size, so this is
    the length the view was created with. *)
Definition view_length (w : world) (v : TypedArray) : nat :=
  (length (data_block w (view_buffer v)) / 4)%nat.

Definition of_raw (ty : elementType) (raw : Z) : Z :=
  match ty with
  | Uint32 => raw
  | Int32 => if raw <? 2 ^ 31 then raw else raw - 2 ^ 32
  end.

(** The four bytes of element [i], least significant first. *)
Definition raw_element (w : world) (v : TypedArray) (i : nat) : Z :=
  le_combine (firstn 4 (skipn (4 * i) (data_block w (view_buffer v)))).

Definition write_raw (w : world) (v : TypedArray) (i : nat) (raw : Z) : world :=
  let old := data_block w (view_buffer v) in
  set_heap
    (<[view_buffer v := firstn (4 * i) old ++ le_split 4 raw ++ skipn (4 * i + 4) old]>
       (heap w))
    w.

(** [view[i]]: [None] stands for [undefined], the result out of range. *)
Definition get_element (v : TypedArray) (i : nat) (w : world) : option Z :=
  if (i <? view_length w v)%nat then Some (of_raw (view_type v) (raw_element w v i))
  else None.

(** [view[i] = n]: the low 32 bits are stored; out of range nothing is. *)
Definition set_element (v : TypedArray) (i : nat) (n : Z) (w : world) : world :=
  if (i <? view_length w v)%nat then write_raw w v i (ToUint32 n) else w.

(** [view[i] += n]: read, add as Numbers, write back.  Out of range the read
    gives [undefined], the sum is [NaN] and the write is dropped. *)
Definition add_assign_element (v : TypedArray) (i : nat) (n : Z) : M unit :=
  fun w =>
    match get_element v i w with
    | Some c => Returned tt (set_element v i (number_add c n) w)
    | None => Returned tt w
    end.

(** *** Atomics *)
Module Atomics.

(** [ValidateAtomicAccess]. *)
Definition validate (v : TypedArray) (i : nat) : M unit :=
  fun w =>
    if (i <? view_length w v)%nat then Returned tt w
    else Thrown (RangeError "Invalid atomic access index") w.

Definition load (v : TypedArray) (i : nat) : M Z :=
  validate v i ;;
  fun w => Returned (of_raw (view_type v) (raw_element w v i)) w.

(** Read-modify-write in one step; the old value is returned. *)
Definition add (v : TypedArray) (i : nat) (n : Z) : M Z :=
  validate v i ;;
  fun w =>
    let old := raw_element w v i in
    Returned (of_raw (view_type v) old) (write_raw w v i (ToUint32 (old + ToUint32 n))).

Definition sub (v : TypedArray) (i : nat) (n : Z) : M Z :=
  validate v i ;;
  fun w =>
    let old := raw_element w v i in
    Returned (of_raw (view_type v) old) (write_raw w v i (ToUint32 (old - ToUint32 n))).

Definition compareExchange (v : TypedArray) (i : nat) (expected replacement : Z) : M Z :=
  validate v i ;;
  fun w =>
    let old := raw_element w v i in
    if old =? ToUint32 expected
    then Returned (of_raw (view_type v) old) (write_raw w v i (ToUint32 replacement))
    else Returned (of_raw (view_type v) old) w.

Definition waits_on (block byteIndex : nat) (x : waiter) : bool :=
  (waiter_block x =? block)%nat && (waiter_byteIndex x =? byteIndex)%nat.

(** [wait] and [notify] are for [Int32Array] views only (of the two kinds
    modelled here). *)
Definition validate_waitable (v : TypedArray) : M unit :=
  fun w =>
    match view_type v with
    | Int32 => Returned tt w
    | Uint32 => Thrown (TypeError "[object Array] is not an int32 or BigInt64 typed array.") w
    end.

(** [Atomics.wait(view, i, n)] without a timeout, called by agent [self]:
    when the element is not [n] the call returns ["not-equal"] at once;
    otherwise the agent joins the end of the waiters and sleeps. *)
Definition wait (self : agent) (v : TypedArray) (i : nat) (n : Z) : M string :=
  validate_waitable v ;;
  validate v i ;;
  fun w =>
    if of_raw (view_type v) (raw_element w v i) =? ToInt32 n
    then Suspended (set_waiters (waiters w ++ [Waiter (view_buffer v) (4 * i) self]) w)
    else Returned "not-equal" w.

(** The first [count] waiters on a location leave the list; the others
    keep their places. *)
Fixpoint remove_waiters (block byteIndex : nat) (count : nat) (l : list waiter)
  : list agent * list waiter :=
  match l with
  | [] => ([], [])
  | x :: rest =>
      if waits_on block byteIndex x then
        match count with
        | O => ([], l)
        | S count' =>
            let (woken, kept) := remove_waiters block byteIndex count' rest in
            (waiter_agent x :: woken, kept)
        end
      else
        let (woken, kept) := remove_waiters block byteIndex count rest in
        (woken, x :: kept)
  end.

(** [Atomics.notify(view, i, count)]: returns the number of agents woken. *)
Definition notify (v : TypedArray) (i : nat) (count : nat) : M Z :=
  validate_waitable v ;;
  validate v i ;;
  fun w =>
    let (woken, kept) := remove_waiters (view_buffer v) (4 * i) count (waiters w) in
    Returned (Z.of_nat (length woken)) (set_waiters kept w).

End Atomics.

End JS.

Import JS.
Local Open Scope js_scope.

(** ** counter-example1.js: no atomic operations, no synchronisation *)

Module CounterExample1.

Definition LOCATION : nat := 0.

Record Counter : Type := { bufferView : TypedArray }.

(** [#ensureSharedArrayBuffer(value)]; on success the value is known to be
    a [SharedArrayBuffer], whose data block is returned. *)
Definition ensureSharedArrayBuffer (value : JS.value) : M nat :=
  match value with
  | VSharedArrayBuffer block =>
      fun w =>
        let MIN_BYTES := BYTES_PER_ELEMENT in
        if byteLength w block <? MIN_BYTES
        then Thrown (Error "Expected at least a 4-byte buffer.") w
        else Returned block w
  | _ => throw (Error "Expected a 'SharedArrayBuffer'.")
  end.

Definition constructor (sharedBuffer : JS.value) : M Counter :=
  block <- ensureSharedArrayBuffer sharedBuffer ;;
  view <- new_TypedArray Uint32 block ;;
  ret {| bufferView := view |}.

Definition value (this : Counter) : M JS.value :=
  fun w =>
    match get_element (bufferView this) LOCATION w with
    | Some n => Returned (VNumber n) w
    | None => Returned VUndefined w
    end.

(** [increment(value = 1)]: [None] is the omitted argument. *)
Definition increment (this : Counter) (value : option Z) : M unit :=
  let value := default 1 value in
  add_assign_element (bufferView this) LOCATION value.

Definition decrement (this : Counter) (value : option Z) : M unit :=
  let value := default 1 value in
  increment this (Some (- value)).

End CounterExample1.

(** ** counter-example2.js: every access is one atomic operation *)

Module CounterExample2.

Definition LOCATION : nat := 0.

Record Counter : Type := { bufferView : TypedArray }.

Definition ensureSharedArrayBuffer (value : JS.value) : M nat :=
  match value with
  | VSharedArrayBuffer block =>
      fun w =>
        let MIN_BYTES := BYTES_PER_ELEMENT in
        if byteLength w block <? MIN_BYTES
        then Thrown (Error "Expected at least a 4-byte buffer.") w
        else Returned block w
  | _ => throw (Error "Expected a 'SharedArrayBuffer'.")
  end.

Definition constructor (sharedBuffer : JS.value) : M Counter :=
  block <- ensureSharedArrayBuffer sharedBuffer ;;
  view <- new_TypedArray Uint32 block ;;
  ret {| bufferView := view |}.

Definition value (this : Counter) : M JS.value :=
  n <- Atomics.load (bufferView this) LOCATION ;;
  ret (VNumber n).

Definition increment (this : Counter) (value : option Z) : M unit :=
  let value := default 1 value in
  Atomics.add (bufferView this) LOCATION value ;;
  ret tt.

Definition decrement (this : Counter) (value : option Z) : M unit :=
  let value := default 1 value in
  Atomics.sub (bufferView this) LOCATION value ;;
  ret tt.

End CounterExample2.

(** ** mutex.js *)

Module Mutex.

Definition LOCKED : Z := 1.
Definition UNLOCKED : Z := 0.
Definition LOCATION : nat := 0.

Record Mutex : Type := { bufferView : TypedArray }.

Definition ensureSharedArrayBuffer (value : JS.value) : M nat :=
  match value with
  | VSharedArrayBuffer block =>
      fun w =>
        let MIN_BYTES := BYTES_PER_ELEMENT in
        if byteLength w block <? MIN_BYTES
        then Thrown (Error "Expected at least a 4-byte buffer.") w
        else Returned block w
  | _ => throw (Error "Expected a 'SharedArrayBuffer'.")
  end.

Definition constructor (sharedBuffer : JS.value) : M Mutex :=
  block <- ensureSharedArrayBuffer sharedBuffer ;;
  view <- new_TypedArray Int32 block ;;
  ret {| bufferView := view |}.

Definition tryGetLock (this : Mutex) : M bool :=
  previousState <- Atomics.compareExchange (bufferView this) LOCATION UNLOCKED LOCKED ;;
  ret (previousState =? UNLOCKED).

(** The agent that calls is [self]. *)
Definition waitIfLocked (self : agent) (this : Mutex) : M unit :=
  Atomics.wait self (bufferView this) LOCATION LOCKED ;;
  ret tt.

(** [lock()] run by one agent with nobody else running: [while (true)]
    takes fuel, one unit per turn of the loop; an agent put to sleep stays
    asleep, there being nobody to notify it. *)
Fixpoint lock (self : agent) (fuel : nat) (this : Mutex) : M unit :=
  match fuel with
  | O => fun _ => OutOfFuel
  | S fuel' =>
      acquired <- tryGetLock this ;;
      if acquired : bool then ret tt
      else (waitIfLocked self this ;; lock self fuel' this)
  end.

Definition tryUnlock (this : Mutex) : M bool :=
  previousState <- Atomics.compareExchange (bufferView this) LOCATION LOCKED UNLOCKED ;;
  ret (previousState =? LOCKED).

Definition notifyAgents (this : Mutex) : M unit :=
  let NUM_AGENTS_TO_NOTIFY := 1%nat in
  Atomics.notify (bufferView this) LOCATION NUM_AGENTS_TO_NOTIFY ;;
  ret tt.

Definition unlock (this : Mutex) : M unit :=
  released <- tryUnlock this ;;
  if released : bool then notifyAgents this
  else throw (Error "You can only unlock while holding the lock.").

(** *** [lock()] among other agents

    The same loop, one atomic step at a time, so that other agents can run
    between the steps.  The agent is about to try the compare-and-swap,
    about to call [Atomics.wait], asleep in it, or out of [lock()]. *)
Inductive lock_pc : Type :=
| AtTryGetLock
| AtWaitIfLocked
| Asleep
| LockReturned
| LockThrew (e : error).

Definition is_asleep (self : agent) (this : Mutex) (w : world) : bool :=
  existsb
    (fun x => Atomics.waits_on (view_buffer (bufferView this)) (4 * LOCATION) x
              && (waiter_agent x =? self)%nat)
    (waiters w).

(** One step of agent [self]; [None] when it cannot move: it has left
    [lock()], or it is asleep and still among the waiters. *)
Definition lock_step (self : agent) (this : Mutex) (pc : lock_pc) (w : world)
  : option (lock_pc * world) :=
  match pc with
  | AtTryGetLock =>
      match tryGetLock this w with
      | Returned true w' => Some (LockReturned, w')
      | Returned false w' => Some (AtWaitIfLocked, w')
      | Thrown e w' => Some (LockThrew e, w')
      | Suspended _ | OutOfFuel => None
      end
  | AtWaitIfLocked =>
      match waitIfLocked self this w with
      | Returned _ w' => Some (AtTryGetLock, w')
      | Suspended w' => Some (Asleep, w')
      | Thrown e w' => Some (LockThrew e, w')
      | OutOfFuel => None
      end
  | Asleep =>
      if is_asleep self this w then None else Some (AtTryGetLock, w)
  | LockReturned | LockThrew _ => None
  end.

(** A run of the agent inside [lock()]: its own steps, and between them
    anything the other agents (or a wake without cause) do to the world. *)
Inductive lock_run (self : agent) (this : Mutex)
  : lock_pc -> world -> lock_pc -> world -> Prop :=
| run_here pc w : lock_run self this pc w pc w
| run_own pc w pc1 w1 pc2 w2 :
    lock_run self this pc w pc1 w1 ->
    lock_step self this pc1 w1 = Some (pc2, w2) ->
    lock_run self this pc w pc2 w2
| run_others pc w pc1 w1 w2 :
    lock_run self this pc w pc1 w1 ->
    lock_run self this pc w pc1 w2.

End Mutex.

(** ** counter-example3.js: plain accesses between [lock()] and [unlock()] *)

Module CounterExample3.

Definition LOCATION : nat := 0.

Record Counter : Type := {
  bufferView : TypedArray;
  mutex : Mutex.Mutex
}.

Definition ensureSharedArrayBuffer (value : JS.value) : M nat :=
  match value with
  | VSharedArrayBuffer block =>
      fun w =>
        let MIN_BYTES := BYTES_PER_ELEMENT in
        if byteLength w block <? MIN_BYTES
        then Thrown (Error "Expected at least a 4-byte buffer.") w
        else Returned block w
  | _ => throw (Error "Expected a 'SharedArrayBuffer'.")
  end.

Definition constructor (sharedCounterBuffer sharedMutexBuffer : JS.value) : M Counter :=
  block <- ensureSharedArrayBuffer sharedCounterBuffer ;;
  view <- new_TypedArray Uint32 block ;;
  mutex <- Mutex.constructor sharedMutexBuffer ;;
  ret {| bufferView := view; mutex := mutex |}.

Section Methods.
(** The calling agent, and the fuel handed to each [lock()]. *)
Variable self : agent.
Variable fuel : nat.

Definition value (this : Counter) : M JS.value :=
  Mutex.lock self fuel (mutex this) ;;
  value <- (fun w => Returned (match get_element (bufferView this) LOCATION w with
                               | Some n => VNumber n
                               | None => VUndefined
                               end) w) ;;
  Mutex.unlock (mutex this) ;;
  ret value.

Definition increment (this : Counter) (value : option Z) : M unit :=
  let value := default 1 value in
  Mutex.lock self fuel (mutex this) ;;
  add_assign_element (bufferView this) LOCATION value ;;
  Mutex.unlock (mutex this).

Definition decrement (this : Counter) (value : option Z) : M unit :=
  let value := default 1 value in
  increment this (Some (- value)).
End Methods.

End CounterExample3.

(** ** counter.js: the counter the other files import *)

Module CounterJs.

(** What an importer of [Counter] relies on: [new Counter(...)], the getter
    [value], [increment] and [decrement]. *)
Record CounterClass : Type := {
  Counter : Type;
  new : list JS.value -> M Counter;
  value : Counter -> M JS.value;
  increment : Counter -> option Z -> M unit;
  decrement : Counter -> option Z -> M unit
}.

(** A parameter without an argument is [undefined]. *)
Definition argument (args : list JS.value) (i : nat) : JS.value :=
  nth i args VUndefined.

Definition example1 : CounterClass := {|
  Counter := CounterExample1.Counter;
  new args := CounterExample1.constructor (argument args 0);
  value := CounterExample1.value;
  increment := CounterExample1.increment;
  decrement := CounterExample1.decrement
|}.

Definition example2 : CounterClass := {|
  Counter := CounterExample2.Counter;
  new args := CounterExample2.constructor (argument args 0);
  value := CounterExample2.value;
  increment := CounterExample2.increment;
  decrement := CounterExample2.decrement
|}.

Definition example3 (self : agent) (fuel : nat) : CounterClass := {|
  Counter := CounterExample3.Counter;
  new args := CounterExample3.constructor (argument args 0) (argument args 1);
  value := CounterExample3.value self fuel;
  increment := CounterExample3.increment self fuel;
  decrement := CounterExample3.decrement self fuel
|}.

(** [src/atomics/src/public/counter.js] imports example 1. *)
Definition counter_js : CounterClass := example1.

(** The other copy of the file ([src/unnamed/part_000]) imports example 3. *)
Definition counter_js_part_000 (self : agent) (fuel : nat) : CounterClass :=
  example3 self fuel.

End CounterJs.

(** ** counting-worker.js *)

Module CountingWorker.
Import CounterJs.

(** The message of the main thread.  [main.js] sends the mutex buffer too;
    the handler reads [operation] and [sharedCounterBuffer] only. *)
Record EventData : Type := {
  operation : JS.value;
  sharedCounterBuffer : JS.value;
  sharedMutexBuffer : JS.value
}.

(** [case "...":] compares with [===]. *)
Definition is_string (v : JS.value) (s : string) : bool :=
  match v with
  | VString s' => String.eqb s' s
  | _ => false
  end.

(** [while (numUpdates-- > 0) { body }] *)
Equations? while_numUpdates (numUpdates : Z) (body : M unit) (w : world)
  : outcome unit by wf (Z.to_nat numUpdates) lt :=
  while_numUpdates numUpdates body w with Z_lt_dec 0 numUpdates := {
    | left _ =>
        match body w with
        | Returned _ w' => while_numUpdates (numUpdates - 1) body w'
        | Thrown e w' => Thrown e w'
        | Suspended w' => Suspended w'
        | OutOfFuel => OutOfFuel
        end
    | right _ => Returned tt w
  }.
Proof. lia. Qed.

Section Handler.
(** The imported counter and [self.name]. *)
Variable C : CounterClass.
Variable name : string.

Definition handleMessageFromMain (data : EventData) : M unit :=
  counter <- new C [sharedCounterBuffer data] ;;
  let numUpdates := 100000 in
  let after_switch :=
    console_log (name ++ " is done counting!") ;;
    n <- value C counter ;;
    postMessage {| done := true; count := n |} in
  if is_string (operation data) "increment" then
    console_log "Incrementing.." ;;
    while_numUpdates numUpdates (increment C counter None) ;;
    after_switch
  else if is_string (operation data) "decrement" then
    console_log "Decrementing.." ;;
    while_numUpdates numUpdates (decrement C counter None) ;;
    after_switch
  else ret tt.
End Handler.

End CountingWorker.

(** ** Several workers counting at once

    Each worker runs the loop of [handleMessageFromMain] for ["increment"]
    against the counter of example 2.  One turn of that loop is one
    [Atomics.add], so the workers interleave turn by turn. *)

Module Workers.

(** A worker inside [while (numUpdates-- > 0) counter.increment()]. *)
Record counting : Type := {
  counter : CounterExample2.Counter;
  numUpdates : Z
}.

Definition counting_step (a : counting) (w : world) : option (counting * world) :=
  if 0 <? numUpdates a then
    match CounterExample2.increment (counter a) None w with
    | Returned _ w' => Some ({| counter := counter a; numUpdates := numUpdates a - 1 |}, w')
    | _ => None
    end
  else None.

Definition finished (a : counting) : Prop := numUpdates a <= 0.

(** Some worker takes its next turn. *)
Inductive step : list counting * world -> list counting * world -> Prop :=
| step_worker i a a' agents w w' :
    agents !! i = Some a ->
    counting_step a w = Some (a', w') ->
    step (agents, w) (<[i := a']> agents, w').

(** [N] workers over one buffer, [K] updates each. *)
Definition start (block : nat) (N : nat) (K : Z) : list counting :=
  repeat {| counter := {| CounterExample2.bufferView := View Uint32 block |};
            numUpdates := K |} N.

Definition remaining (agents : list counting) : Z :=
  foldr (fun a total => numUpdates a + total) 0 agents.

End Workers.

(** ** Several workers counting at once, without atomics

    The same loop against the counter of example 1.  Its [increment()] is
    [view[0] += value]: the element is read, then the sum is written back,
    and another worker may run between the two. *)

Module NaiveWorkers.

(** The two halves of [this.#bufferView[LOCATION] += value]. *)
Definition read_element (this : CounterExample1.Counter) (w : world) : option Z :=
  get_element (CounterExample1.bufferView this) CounterExample1.LOCATION w.

Definition write_back (this : CounterExample1.Counter) (read : option Z) (value : Z)
           (w : world) : world :=
  match read with
  | Some c =>
      set_element (CounterExample1.bufferView this) CounterExample1.LOCATION
                  (number_add c value) w
  | None => w
  end.

(** A worker inside [while (numUpdates-- > 0) counter.increment()]: at the
    test of the loop ([loaded = None]), or between the read and the write of
    an increment, holding what it read. *)
Record counting : Type := {
  counter : CounterExample1.Counter;
  numUpdates : Z;
  loaded : option (option Z)
}.

Definition counting_step (a : counting) (w : world) : option (counting * world) :=
  match loaded a with
  | None =>
      if 0 <? numUpdates a then
        Some ({| counter := counter a; numUpdates := numUpdates a - 1;
                 loaded := Some (read_element (counter a) w) |}, w)
      else None
  | Some read =>
      Some ({| counter := counter a; numUpdates := numUpdates a; loaded := None |},
            write_back (counter a) read 1 w)
  end.

Definition finished (a : counting) : Prop := loaded a = None /\ numUpdates a <= 0.

Inductive step : list counting * world -> list counting * world -> Prop :=
| step_worker i a a' agents w w' :
    agents !! i = Some a ->
    counting_step a w = Some (a', w') ->
    step (agents, w) (<[i := a']> agents, w').

Definition start (block : nat) (N : nat) (K : Z) : list counting :=
  repeat {| counter := {| CounterExample1.bufferView := View Uint32 block |};
            numUpdates := K; loaded := None |} N.

(** The updates a worker has still to write. *)
Definition owed (a : counting) : Z :=
  numUpdates a + match loaded a with Some _ => 1 | None => 0 end.

End NaiveWorkers.

(** ** Several agents on the guarded counter

    Each agent calls [increment()] of example 3 again and again on one
    counter.  A call is [lock()], the read and the write of
    [view[0] += value], and [unlock()], which is the compare-and-swap of
    [#tryUnlock] followed by [#notifyAgents]; other agents may run between
    any two of these steps.  An agent is known by its place in the list. *)

Module GuardedWorkers.

(** Where an agent is: about to make its next call (or done, when none is
    left), inside [lock()], between the steps of the update, inside
    [unlock()], or stopped by an exception. *)
Inductive place : Type :=
| AtLoopTest
| InLock (l : Mutex.lock_pc)
| AtRead
| AtWrite (read : option Z)
| AtTryUnlock
| AtNotifyAgents
| Threw (e : error).

Record counting : Type := {
  counter : CounterExample3.Counter;
  numUpdates : Z;
  pc : place
}.

Definition at_place (a : counting) (p : place) : counting :=
  {| counter := counter a; numUpdates := numUpdates a; pc := p |}.

(** One step of agent [self]; [None] when it cannot move. *)
Definition counting_step (self : agent) (a : counting) (w : world)
  : option (counting * world) :=
  let view := CounterExample3.bufferView (counter a) in
  let mutex := CounterExample3.mutex (counter a) in
  match pc a with
  | AtLoopTest =>
      if 0 <? numUpdates a then
        Some ({| counter := counter a; numUpdates := numUpdates a - 1;
                 pc := InLock Mutex.AtTryGetLock |}, w)
      else None
  | InLock l =>
      match Mutex.lock_step self mutex l w with
      | Some (Mutex.LockReturned, w') => Some (at_place a AtRead, w')
      | Some (Mutex.LockThrew e, w') => Some (at_place a (Threw e), w')
      | Some (l', w') => Some (at_place a (InLock l'), w')
      | None => None
      end
  | AtRead =>
      Some (at_place a (AtWrite (get_element view CounterExample3.LOCATION w)), w)
  | AtWrite read =>
      Some (at_place a AtTryUnlock,
            match read with
            | Some c => set_element view CounterExample3.LOCATION (number_add c 1) w
            | None => w
            end)
  | AtTryUnlock =>
      match Mutex.tryUnlock mutex w with
      | Returned true w' => Some (at_place a AtNotifyAgents, w')
      | Returned false w' =>
          Some (at_place a (Threw (Error "You can only unlock while holding the lock.")), w')
      | Thrown e w' => Some (at_place a (Threw e), w')
      | Suspended _ | OutOfFuel => None
      end
  | AtNotifyAgents =>
      match Mutex.notifyAgents mutex w with
      | Returned _ w' => Some (at_place a AtLoopTest, w')
      | Thrown e w' => Some (at_place a (Threw e), w')
      | Suspended _ | OutOfFuel => None
      end
  | Threw _ => None
  end.

Definition finished (a : counting) : Prop := pc a = AtLoopTest /\ numUpdates a <= 0.

(** Some agent takes its next step. *)
Inductive step : list counting * world -> list counting * world -> Prop :=
| step_worker i a a' agents w w' :
    agents !! i = Some a ->
    counting_step i a w = Some (a', w') ->
    step (agents, w) (<[i := a']> agents, w').

(** [N] agents over one counter, [K] calls each. *)
Definition start (counterBlock mutexBlock : nat) (N : nat) (K : Z) : list counting :=
  repeat {| counter := {| CounterExample3.bufferView := View Uint32 counterBlock;
                          CounterExample3.mutex :=
                            {| Mutex.bufferView := View Int32 mutexBlock |} |};
            numUpdates := K; pc := AtLoopTest |} N.

(** Between [lock()] and the compare-and-swap of [unlock()]. *)
Definition holds_lock (a : counting) : bool :=
  match pc a with
  | AtRead | AtWrite _ | AtTryUnlock => true
  | _ => false
  end.

Definition holding (a : counting) : Z := if holds_lock a then 1 else 0.

(** The updates an agent has still to write. *)
Definition owed (a : counting) : Z :=
  numUpdates a + match pc a with
                 | InLock _ | AtRead | AtWrite _ => 1
                 | _ => 0
                 end.

End GuardedWorkers.

(** ** main.js and the workers it starts

    The main thread creates the workers, posts one request to each of them
    at a click, and shows the count of every report that comes back.  A
    worker handles the requests it is sent one after the other, each with
    [handleMessageFromMain]; what the handler does to the shared memory, the
    console and the main thread is a sequence of steps, and other workers
    may run between any two of them.  A call of a method of the counter is
    taken as one step, which is what the methods of example 2 are. *)

Module MainJs.
Import CounterJs CountingWorker.

Definition NUM_WORKERS : nat := 4.

(** The [case] of the [switch] the handler is in. *)
Inductive operation_kind : Type := Increment | Decrement.

Section Session.
(** The counter that [counting-worker.js] imports. *)
Variable C : CounterClass.

(** Where a worker is in [handleMessageFromMain]: not in it, about to log
    the operation, at the test of the loop, about to read [counter.value],
    or about to post it. *)
Inductive place : Type :=
| Idle
| AtLog (counter : Counter C) (op : operation_kind)
| InLoop (counter : Counter C) (op : operation_kind) (numUpdates : Z)
| AtValue (counter : Counter C)
| AtPost (count : JS.value).

(** A worker: [self.name], the requests it has not begun to handle, the
    errors its handler did not catch, and where it is. *)
Record worker : Type := {
  name : string;
  inbox : list EventData;
  uncaught : list error;
  pc : place
}.

Definition moved (a : worker) (p : place) : worker :=
  {| name := name a; inbox := inbox a; uncaught := uncaught a; pc := p |}.

(** The worker makes a call and goes on; an exception ends the handler. *)
Definition run {A : Type} (a : worker) (m : M A) (next : A -> place) (w : world)
  : option (worker * world) :=
  match m w with
  | Returned x w' => Some (moved a (next x), w')
  | Thrown e w' =>
      Some ({| name := name a; inbox := inbox a; uncaught := uncaught a ++ [e]; pc := Idle |},
            w')
  | Suspended _ | OutOfFuel => None
  end.

(** One step of a worker; [None] when it has nothing to do. *)
Definition worker_step (a : worker) (w : world) : option (worker * world) :=
  match pc a with
  | Idle =>
      match inbox a with
      | [] => None
      | data :: rest =>
          run {| name := name a; inbox := rest; uncaught := uncaught a; pc := Idle |}
              (new C [sharedCounterBuffer data])
              (fun counter =>
                 if is_string (operation data) "increment" then AtLog counter Increment
                 else if is_string (operation data) "decrement" then AtLog counter Decrement
                 else Idle)
              w
      end
  | AtLog counter op =>
      run a
          (console_log match op with
                       | Increment => "Incrementing.."
                       | Decrement => "Decrementing.."
                       end)
          (fun _ => InLoop counter op 100000) w
  | InLoop counter op numUpdates =>
      if 0 <? numUpdates then
        run a
            match op with
            | Increment => increment C counter None
            | Decrement => decrement C counter None
            end
            (fun _ => InLoop counter op (numUpdates - 1)) w
      else
        run a (console_log (name a ++ " is done counting!")) (fun _ => AtValue counter) w
  | AtValue counter => run a (value C counter) (fun n => AtPost n) w
  | AtPost n => run a (postMessage {| done := true; count := n |}) (fun _ => Idle) w
  end.

(** Some worker takes its next step. *)
Inductive step : list worker * world -> list worker * world -> Prop :=
| step_worker i a a' workers w w' :
    workers !! i = Some a ->
    worker_step a w = Some (a', w') ->
    step (workers, w) (<[i := a']> workers, w').

(** [initWorkers(size)]: workers named [Worker #0], [Worker #1], ... *)
Definition initWorkers (size : nat) : list worker :=
  map (fun i => {| name := "Worker #" ++ NilZero.string_of_uint (Nat.to_uint i);
                   inbox := []; uncaught := []; pc := Idle |})
      (seq 0 size).

(** [worker.postMessage(data)] *)
Definition post (data : EventData) (a : worker) : worker :=
  {| name := name a; inbox := inbox a ++ [data]; uncaught := uncaught a; pc := pc a |}.

Definition triggerConcurrentIncrements (sharedCounterBuffer sharedMutexBuffer : JS.value)
           (workers : list worker) : list worker :=
  map (post {| operation := VString "increment";
               sharedCounterBuffer := sharedCounterBuffer;
               sharedMutexBuffer := sharedMutexBuffer |}) workers.

Definition triggerConcurrentDecrements (sharedCounterBuffer sharedMutexBuffer : JS.value)
           (workers : list worker) : list worker :=
  map (post {| operation := VString "decrement";
               sharedCounterBuffer := sharedCounterBuffer;
               sharedMutexBuffer := sharedMutexBuffer |}) workers.

(** A worker with nothing left to do. *)
Definition at_rest (a : worker) : Prop := pc a = Idle /\ inbox a = [].
End Session.

Arguments Idle {C}.
Arguments AtLog {C} counter op.
Arguments InLoop {C} counter op numUpdates.
Arguments AtValue {C} counter.
Arguments AtPost {C} count.
Arguments name {C} _.
Arguments inbox {C} _.
Arguments uncaught {C} _.
Arguments pc {C} _.
Arguments moved {C} a p.
Arguments run {C A} a m next w.
Arguments worker_step {C} a w.
Arguments step {C} _ _.
Arguments post {C} data a.
Arguments triggerConcurrentIncrements {C} _ _ workers.
Arguments triggerConcurrentDecrements {C} _ _ workers.
Arguments at_rest {C} a.

(** [handleMessageFromWorker] and [showCurrentCount]: the count on show,
    [None] before the first; its text is [count.toLocaleString()], which
    depends on the locale of the browser and is not modelled. *)
Definition handleMessageFromWorker (data : report) (shown : option JS.value)
  : option JS.value :=
  if done data then Some (count data) else shown.

(** The reports are handled in the order in which they were posted. *)
Definition shown_after (reports : list report) : option JS.value :=
  foldl (fun shown data => handleMessageFromWorker data shown) None reports.

End MainJs.

(** ** Vocabulary of the statements *)

(** A buffer over which the classes can be built: at least one element, and
    a whole number of them. *)
Definition usable_buffer (w : world) (block : nat) : Prop :=
  BYTES_PER_ELEMENT <= byteLength w block /\ byteLength w block mod BYTES_PER_ELEMENT = 0.

(** The counter slot: element 0 seen through a [Uint32Array]. *)
Definition counter_slot (w : world) (block : nat) : Z :=
  of_raw Uint32 (raw_element w (View Uint32 block) 0).

(** The lock slot: element 0 seen through an [Int32Array]. *)
Definition lock_slot (w : world) (block : nat) : Z :=
  of_raw Int32 (raw_element w (View Int32 block) 0).

(** The agents asleep on the lock slot of a buffer, oldest first. *)
Definition sleepers (block byteIndex : nat) (l : list waiter) : list agent :=
  map waiter_agent (List.filter (Atomics.waits_on block byteIndex) l).

Definition asleep_on (w : world) (block : nat) : list agent :=
  sleepers block 0 (waiters w).

(** The waiters on every other location. *)
Definition asleep_elsewhere (w : world) (block : nat) : list waiter :=
  List.filter (fun x => negb (Atomics.waits_on block 0 x)) (waiters w).

(** The errors the specification calls [InvalidBuffer] and [NotHeld]. *)
Definition InvalidBuffer (e : error) : Prop :=
  e = Error "Expected a 'SharedArrayBuffer'." \/ e = Error "Expected at least a 4-byte buffer.".

Definition NotHeld : error := Error "You can only unlock while holding the lock.".

(** A value that the validation of every class refuses: anything but a
    [SharedArrayBuffer], and a [SharedArrayBuffer] of fewer than four bytes. *)
Definition refused (w : world) (v : JS.value) : Prop :=
  match v with
  | VSharedArrayBuffer block => byteLength w block < BYTES_PER_ELEMENT
  | _ => True
  end.

(** The objects the constructors return. *)
Definition counter1_on (block : nat) : CounterExample1.Counter :=
  {| CounterExample1.bufferView := View Uint32 block |}.
Definition counter2_on (block : nat) : CounterExample2.Counter :=
  {| CounterExample2.bufferView := View Uint32 block |}.
Definition mutex_on (block : nat) : Mutex.Mutex :=
  {| Mutex.bufferView := View Int32 block |}.
Definition counter3_on (counterBlock mutexBlock : nat) : CounterExample3.Counter :=
  {| CounterExample3.bufferView := View Uint32 counterBlock;
     CounterExample3.mutex := mutex_on mutexBlock |}.

(** [new SharedArrayBuffer(n)]: [n] zero bytes. *)
Definition fresh (n : nat) : list byte := repeat Byte.x00 n.

(** A world whose buffers are the given data blocks, numbered from 0, with
    nobody asleep and nothing printed or posted. *)
Definition world_with (blocks : list (list byte)) : world :=
  {| heap := list_to_map (imap (fun i b => (i, b)) blocks);
     waiters := []; console := []; outbox := [] |}.

(** [n] calls one after the other; a call that does not return ends the
    sequence. *)
Definition calls (n : nat) (body : M unit) : M unit :=
  Nat.iter n (fun rest => body ;; rest) (ret tt).

(** The deltas for which [slot + delta] is computed exactly by the addition
    of Numbers, whatever the 32-bit slot holds. *)
Definition exact_delta (d : Z) : Prop := Z.abs d <= 2 ^ 53 - 2 ^ 32.

(** The world after a worker named [name] has logged [line], left [n] in
    the counter slot of [block], logged that it is done and reported [n]. *)
Definition after_counting (w : world) (name line : string) (block : nat) (n : Z) : world :=
  {| heap := heap (write_raw w (View Uint32 block) 0 n);
     waiters := waiters w;
     console := (console w ++ [line]) ++ [(name ++ " is done counting!")%string];
     outbox := outbox w ++ [{| done := true; count := VNumber n |}] |}.

(** Requests as [main.js] posts them, and one with a tag it never posts. *)
Definition increment_request : CountingWorker.EventData :=
  {| CountingWorker.operation := VString "increment";
     CountingWorker.sharedCounterBuffer := VSharedArrayBuffer 0;
     CountingWorker.sharedMutexBuffer := VSharedArrayBuffer 1 |}.

Definition reset_request : CountingWorker.EventData :=
  {| CountingWorker.operation := VString "reset";
     CountingWorker.sharedCounterBuffer := VSharedArrayBuffer 0;
     CountingWorker.sharedMutexBuffer := VSharedArrayBuffer 1 |}.

(** The two buffers of [main.js], just allocated. *)
Definition main_world : world := world_with [fresh 4; fresh 4].

(** The buffers of [main.js] with the lock taken, the counter at 7, and
    agents 5 and 6 (in that order) asleep on the lock slot. *)
Definition locked_world : world :=
  {| heap := heap (world_with [[Byte.x07; Byte.x00; Byte.x00; Byte.x00];
                               [Byte.x01; Byte.x00; Byte.x00; Byte.x00]]);
     waiters := [Waiter 1 0 5%nat; Waiter 1 0 6%nat];
     console := []; outbox := [] |}.

(** The lock slot holds 0 or 1. *)
Definition lock_slot_is_0_or_1 (mb : nat) (w : world) : Prop :=
  lock_slot w mb = Mutex.UNLOCKED \/ lock_slot w mb = Mutex.LOCKED.

(** However the call ends, the world it ends in satisfies [P]. *)
Definition ends_in {A : Type} (P : world -> Prop) (o : outcome A) : Prop :=
  match o with
  | Returned _ w | Thrown _ w | Suspended w => P w
  | OutOfFuel => True
  end.

(** Every worker counts on the counter of [block] and owes no negative
    number of updates. *)
Definition well_formed (block : nat) (s : list Workers.counting * world) : Prop :=
  usable_buffer (snd s) block /\
  Forall (fun a => Workers.counter a = counter2_on block /\ 0 <= Workers.numUpdates a) (fst s).

Definition decrement_request : CountingWorker.EventData :=
  {| CountingWorker.operation := VString "decrement";
     CountingWorker.sharedCounterBuffer := VSharedArrayBuffer 0;
     CountingWorker.sharedMutexBuffer := VSharedArrayBuffer 1 |}.

(** The sum of [f] over a list. *)
Definition total {A : Type} (f : A -> Z) (l : list A) : Z :=
  foldr (fun a t => f a + t) 0 l.

(** What holds of workers on the counter of example 1 while they have [T]
    updates to make in all, from 0: the counter, and whatever a worker has
    read of it, never run ahead of the updates written so far; and the
    counter is at least 1 once an update has been written. *)
Definition naive_invariant (block : nat) (T : Z)
           (s : list NaiveWorkers.counting * world) : Prop :=
  usable_buffer (snd s) block /\
  Forall (fun a =>
            NaiveWorkers.counter a = counter1_on block /\
            0 <= NaiveWorkers.numUpdates a /\
            match NaiveWorkers.loaded a with
            | None => True
            | Some None => False
            | Some (Some c) => 0 <= c /\ c + total NaiveWorkers.owed (fst s) <= T
            end) (fst s) /\
  counter_slot (snd s) block + total NaiveWorkers.owed (fst s) <= T /\
  (total NaiveWorkers.owed (fst s) < T -> 1 <= counter_slot (snd s) block).

(** An agent that will reach [unlock()] without being woken: in [lock()]
    and not among the sleepers, or past it. *)
Definition awake_for_lock (mb : nat) (w : world) (i : agent)
           (a : GuardedWorkers.counting) : Prop :=
  match GuardedWorkers.pc a with
  | GuardedWorkers.InLock Mutex.AtTryGetLock
  | GuardedWorkers.InLock Mutex.AtWaitIfLocked
  | GuardedWorkers.AtRead
  | GuardedWorkers.AtWrite _
  | GuardedWorkers.AtTryUnlock
  | GuardedWorkers.AtNotifyAgents => True
  | GuardedWorkers.InLock Mutex.Asleep => ~ In i (asleep_on w mb)
  | _ => False
  end.

(** No agent has thrown, and an agent between the read and the write of an
    update holds what is in the counter slot. *)
Definition sound_place (cb : nat) (w : world) (p : GuardedWorkers.place) : Prop :=
  match p with
  | GuardedWorkers.InLock Mutex.LockReturned
  | GuardedWorkers.InLock (Mutex.LockThrew _)
  | GuardedWorkers.Threw _ => False
  | GuardedWorkers.AtWrite read => read = Some (counter_slot w cb)
  | _ => True
  end.

(** What holds of agents on a guarded counter over the buffers [cb] and [mb]
    while they bring the counter to [T] (modulo 2^32): the lock slot counts
    the agents between [lock()] and [unlock()], of which there is at most
    one; the counter slot and the updates still owed add up to [T]; the
    sleepers on the lock slot are agents asleep in [lock()], each once; and
    while anyone sleeps, someone is on the way to [unlock()]. *)
Definition guarded_invariant (cb mb : nat) (T : Z)
           (s : list GuardedWorkers.counting * world) : Prop :=
  usable_buffer (snd s) cb /\ usable_buffer (snd s) mb /\
  (forall (i : nat) a, fst s !! i = Some a ->
               GuardedWorkers.counter a = counter3_on cb mb /\
               0 <= GuardedWorkers.numUpdates a /\
               sound_place cb (snd s) (GuardedWorkers.pc a)) /\
  lock_slot (snd s) mb = total GuardedWorkers.holding (fst s) /\
  lock_slot_is_0_or_1 mb (snd s) /\
  (counter_slot (snd s) cb + total GuardedWorkers.owed (fst s)) mod 2 ^ 32 = T mod 2 ^ 32 /\
  (forall i : nat, In i (asleep_on (snd s) mb) ->
             exists a, fst s !! i = Some a /\
                       GuardedWorkers.pc a = GuardedWorkers.InLock Mutex.Asleep) /\
  NoDup (asleep_on (snd s) mb) /\
  (asleep_on (snd s) mb <> [] ->
   exists (i : nat) a, fst s !! i = Some a /\ awake_for_lock mb (snd s) i a).

(** The steps an agent takes on a guarded counter over usable buffers, from a
    sound place. *)
Inductive guarded_move (cb mb : nat) (i : agent) (a : GuardedWorkers.counting) (w : world)
  : GuardedWorkers.counting -> world -> Prop :=
| move_call :
    GuardedWorkers.pc a = GuardedWorkers.AtLoopTest -> 0 < GuardedWorkers.numUpdates a ->
    guarded_move cb mb i a w
      {| GuardedWorkers.counter := GuardedWorkers.counter a;
         GuardedWorkers.numUpdates := GuardedWorkers.numUpdates a - 1;
         GuardedWorkers.pc := GuardedWorkers.InLock Mutex.AtTryGetLock |} w
| move_acquire :
    GuardedWorkers.pc a = GuardedWorkers.InLock Mutex.AtTryGetLock ->
    lock_slot w mb = Mutex.UNLOCKED ->
    guarded_move cb mb i a w
      (GuardedWorkers.at_place a GuardedWorkers.AtRead)
      (write_raw w (View Int32 mb) 0 (ToUint32 Mutex.LOCKED))
| move_busy :
    GuardedWorkers.pc a = GuardedWorkers.InLock Mutex.AtTryGetLock ->
    lock_slot w mb <> Mutex.UNLOCKED ->
    guarded_move cb mb i a w
      (GuardedWorkers.at_place a (GuardedWorkers.InLock Mutex.AtWaitIfLocked)) w
| move_sleep :
    GuardedWorkers.pc a = GuardedWorkers.InLock Mutex.AtWaitIfLocked ->
    lock_slot w mb = Mutex.LOCKED ->
    guarded_move cb mb i a w
      (GuardedWorkers.at_place a (GuardedWorkers.InLock Mutex.Asleep))
      (set_waiters (waiters w ++ [Waiter mb 0 i]) w)
| move_retry :
    GuardedWorkers.pc a = GuardedWorkers.InLock Mutex.AtWaitIfLocked ->
    lock_slot w mb <> Mutex.LOCKED ->
    guarded_move cb mb i a w
      (GuardedWorkers.at_place a (GuardedWorkers.InLock Mutex.AtTryGetLock)) w
| move_wake :
    GuardedWorkers.pc a = GuardedWorkers.InLock Mutex.Asleep ->
    ~ In i (asleep_on w mb) ->
    guarded_move cb mb i a w
      (GuardedWorkers.at_place a (GuardedWorkers.InLock Mutex.AtTryGetLock)) w
| move_read :
    GuardedWorkers.pc a = GuardedWorkers.AtRead ->
    guarded_move cb mb i a w
      (GuardedWorkers.at_place a (GuardedWorkers.AtWrite (Some (counter_slot w cb)))) w
| move_write :
    GuardedWorkers.pc a = GuardedWorkers.AtWrite (Some (counter_slot w cb)) ->
    guarded_move cb mb i a w
      (GuardedWorkers.at_place a GuardedWorkers.AtTryUnlock)
      (write_raw w (View Uint32 cb) 0 ((counter_slot w cb + 1) mod 2 ^ 32))
| move_release :
    GuardedWorkers.pc a = GuardedWorkers.AtTryUnlock ->
    lock_slot w mb = Mutex.LOCKED ->
    guarded_move cb mb i a w
      (GuardedWorkers.at_place a GuardedWorkers.AtNotifyAgents)
      (write_raw w (View Int32 mb) 0 (ToUint32 Mutex.UNLOCKED))
| move_not_held :
    GuardedWorkers.pc a = GuardedWorkers.AtTryUnlock ->
    lock_slot w mb <> Mutex.LOCKED ->
    guarded_move cb mb i a w (GuardedWorkers.at_place a (GuardedWorkers.Threw NotHeld)) w
| move_notify w' :
    GuardedWorkers.pc a = GuardedWorkers.AtNotifyAgents ->
    heap w' = heap w ->
    asleep_on w' mb = drop 1 (asleep_on w mb) ->
    guarded_move cb mb i a w (GuardedWorkers.at_place a GuardedWorkers.AtLoopTest) w'.

(** Where the agents start: the counter and the lock in two usable buffers,
    the lock free, nobody asleep on it. *)
Definition guarded_start (cb mb : nat) (w : world) : Prop :=
  cb <> mb /\ usable_buffer w cb /\ usable_buffer w mb /\
  lock_slot w mb = Mutex.UNLOCKED /\ asleep_on w mb = [].

(** The steps an agent has still to take when nobody is in its way: six
    for every call it has not begun, and what is left of the call it is
    in. *)
Definition steps_to_go (a : GuardedWorkers.counting) : Z :=
  6 * GuardedWorkers.numUpdates a
  + match GuardedWorkers.pc a with
    | GuardedWorkers.AtLoopTest => 0
    | GuardedWorkers.InLock _ => 5
    | GuardedWorkers.AtRead => 4
    | GuardedWorkers.AtWrite _ => 3
    | GuardedWorkers.AtTryUnlock => 2
    | GuardedWorkers.AtNotifyAgents => 1
    | GuardedWorkers.Threw _ => 0
    end.

(** The steps an agent can take inside [lock()] before it gets the lock,
    falls asleep or needs another agent to move; an agent asleep is counted
    as woken. *)
Definition waiting_cost (locked : bool) (a : GuardedWorkers.counting) : Z :=
  match GuardedWorkers.pc a with
  | GuardedWorkers.InLock Mutex.AtTryGetLock => if locked then 2 else 0
  | GuardedWorkers.InLock Mutex.AtWaitIfLocked => 1
  | GuardedWorkers.InLock Mutex.Asleep => 3
  | _ => 0
  end.

(** A number that every step of every agent makes smaller. *)
Definition guarded_measure (mb : nat) (s : list GuardedWorkers.counting * world) : Z :=
  (3 * Z.of_nat (length (fst s)) + 4) * total steps_to_go (fst s)
  + total (waiting_cost (negb (lock_slot (snd s) mb =? Mutex.UNLOCKED))) (fst s)
  - 3 * Z.of_nat (length (asleep_on (snd s) mb)).

(** The request [triggerConcurrentIncrements] posts to every worker. *)
Definition increment_request_on (cb : nat) (mutexBuffer : JS.value)
  : CountingWorker.EventData :=
  {| CountingWorker.operation := VString "increment";
     CountingWorker.sharedCounterBuffer := VSharedArrayBuffer cb;
     CountingWorker.sharedMutexBuffer := mutexBuffer |}.

(** The updates a worker of a session of increments has made. *)
Definition counted (a : MainJs.worker CounterJs.example2) : Z :=
  match MainJs.pc a with
  | MainJs.Idle => match MainJs.inbox a with [] => 100000 | _ => 0 end
  | MainJs.AtLog _ _ => 0
  | MainJs.InLoop _ _ n => 100000 - n
  | MainJs.AtValue _ | MainJs.AtPost _ => 100000
  end.

(** The worker has read the count it reports. *)
Definition has_read (a : MainJs.worker CounterJs.example2) : bool :=
  match MainJs.pc a with
  | MainJs.Idle => match MainJs.inbox a with [] => true | _ => false end
  | MainJs.AtPost _ => true
  | _ => false
  end.

Definition has_posted (a : MainJs.worker CounterJs.example2) : Z :=
  match MainJs.pc a with
  | MainJs.Idle => match MainJs.inbox a with [] => 1 | _ => 0 end
  | _ => 0
  end.

(** A count between [lo] and [hi]. *)
Definition count_within (lo hi : Z) (v : JS.value) : Prop :=
  exists x, v = VNumber x /\ lo <= x <= hi.

(** A worker of a session of increments over the buffer [cb]: it has its
    request still to handle, or is handling it, or has handled it. *)
Definition sound_worker (cb : nat) (mutexBuffer : JS.value) (lo hi : Z)
           (a : MainJs.worker CounterJs.example2) : Prop :=
  MainJs.uncaught a = [] /\
  match MainJs.pc a with
  | MainJs.Idle =>
      MainJs.inbox a = [] \/ MainJs.inbox a = [increment_request_on cb mutexBuffer]
  | MainJs.AtLog counter op =>
      MainJs.inbox a = [] /\ counter = counter2_on cb /\ op = MainJs.Increment
  | MainJs.InLoop counter op n =>
      MainJs.inbox a = [] /\ counter = counter2_on cb /\ op = MainJs.Increment /\
      0 <= n <= 100000
  | MainJs.AtValue counter => MainJs.inbox a = [] /\ counter = counter2_on cb
  | MainJs.AtPost v => MainJs.inbox a = [] /\ count_within lo hi v
  end.

(** What holds during a session of increments that began with [c0] in the
    counter: the counter slot holds [c0] and the updates made; every count
    read lies between [c0 + 100000] and the final count; the workers at rest
    have each posted a report; and once every worker has read the counter,
    one of them has read the final count. *)
Definition session_invariant (cb : nat) (mutexBuffer : JS.value) (c0 : Z)
           (s : list (MainJs.worker CounterJs.example2) * world) : Prop :=
  usable_buffer (snd s) cb /\
  (forall (i : nat) a,
     fst s !! i = Some a ->
     sound_worker cb mutexBuffer (c0 + 100000)
                  (c0 + Z.of_nat (length (fst s)) * 100000) a) /\
  counter_slot (snd s) cb = c0 + total counted (fst s) /\
  Forall (fun r => done r = true /\
                   count_within (c0 + 100000)
                                (c0 + Z.of_nat (length (fst s)) * 100000) (count r))
         (outbox (snd s)) /\
  Z.of_nat (length (outbox (snd s))) = total has_posted (fst s) /\
  ((exists (i : nat) a, fst s !! i = Some a /\ has_read a = false) \/
   (exists (i : nat) a,
      fst s !! i = Some a /\
      MainJs.pc a = MainJs.AtPost (VNumber (c0 + Z.of_nat (length (fst s)) * 100000))) \/
   (exists r, In r (outbox (snd s)) /\
              count r = VNumber (c0 + Z.of_nat (length (fst s)) * 100000))).

(** Where a session of increments starts: a usable counter buffer holding
    [c0], room for the updates of [N] workers below 2^32, and no report
    waiting. *)
Definition session_start (cb : nat) (c0 : Z) (N : nat) (w : world) : Prop :=
  usable_buffer w cb /\ counter_slot w cb = c0 /\
  c0 + Z.of_nat N * 100000 < 2 ^ 32 /\ outbox w = [].

(** The workers of [main.js] after a click on "increment". *)
Definition clicked_increment (cb : nat) (mutexBuffer : JS.value) (N : nat)
  : list (MainJs.worker CounterJs.example2) :=
  MainJs.triggerConcurrentIncrements (VSharedArrayBuffer cb) mutexBuffer
                                     (MainJs.initWorkers CounterJs.example2 N).

(** The worker named [nm] with its request still to handle, and in the
    course of handling it. *)
Definition requested (nm : string) (cb : nat) (mutexBuffer : JS.value)
  : MainJs.worker CounterJs.example2 :=
  {| MainJs.name := nm; MainJs.inbox := [increment_request_on cb mutexBuffer];
     MainJs.uncaught := []; MainJs.pc := MainJs.Idle |}.

Definition handling (nm : string) (p : MainJs.place CounterJs.example2)
  : MainJs.worker CounterJs.example2 :=
  {| MainJs.name := nm; MainJs.inbox := []; MainJs.uncaught := []; MainJs.pc := p |}.

(** What the handling of a request adds to the counter, and what a worker
    has still to add: for the requests it has not begun, and for the one it
    is handling. *)
Definition request_delta (data : CountingWorker.EventData) : Z :=
  if CountingWorker.is_string (CountingWorker.operation data) "increment" then 100000
  else if CountingWorker.is_string (CountingWorker.operation data) "decrement" then - 100000
  else 0.

Definition sign (op : MainJs.operation_kind) : Z :=
  match op with
  | MainJs.Increment => 1
  | MainJs.Decrement => - 1
  end.

Definition pending_delta (a : MainJs.worker CounterJs.example2) : Z :=
  total request_delta (MainJs.inbox a)
  + match MainJs.pc a with
    | MainJs.AtLog _ op => sign op * 100000
    | MainJs.InLoop _ op n => sign op * n
    | _ => 0
    end.

(** A worker whose requests are all for the counter buffer [cb], whose
    counter (if it has built one) is over that buffer, and whose handler has
    not thrown. *)
Definition orderly (cb : nat) (a : MainJs.worker CounterJs.example2) : Prop :=
  MainJs.uncaught a = [] /\
  Forall (fun data => CountingWorker.sharedCounterBuffer data = VSharedArrayBuffer cb)
         (MainJs.inbox a) /\
  match MainJs.pc a with
  | MainJs.AtLog counter _ => counter = counter2_on cb
  | MainJs.InLoop counter _ n => counter = counter2_on cb /\ 0 <= n
  | MainJs.AtValue counter => counter = counter2_on cb
  | _ => True
  end.

(** The counter slot and the updates still to come add up to [T] (modulo
    2^32). *)
Definition balance_invariant (cb : nat) (T : Z)
           (s : list (MainJs.worker CounterJs.example2) * world) : Prop :=
  usable_buffer (snd s) cb /\
  (forall (i : nat) a, fst s !! i = Some a -> orderly cb a) /\
  (counter_slot (snd s) cb + total pending_delta (fst s)) mod 2 ^ 32 = T mod 2 ^ 32.

(** Workers between two handlers, as [main.js] finds them at a click. *)
Definition queued (cb : nat) (a : MainJs.worker CounterJs.example2) : Prop :=
  MainJs.pc a = MainJs.Idle /\ orderly cb a.

Definition busy (nm : string) (requests : list CountingWorker.EventData)
           (p : MainJs.place CounterJs.example2) : MainJs.worker CounterJs.example2 :=
  {| MainJs.name := nm; MainJs.inbox := requests; MainJs.uncaught := [];
     MainJs.pc := p |}.

(** From [w] to [w'] nothing of the shared memory has changed but the first
    element of the buffers [blocks]: every buffer has kept its length and
    its bytes from the fifth on, and every other buffer all its bytes. *)
Definition kept_beyond_slots (blocks : list nat) (w w' : world) : Prop :=
  forall b,
    length (data_block w' b) = length (data_block w b) /\
    drop 4 (data_block w' b) = drop 4 (data_block w b) /\
    (~ In b blocks -> data_block w' b = data_block w b).

(** * Properties *)

(** ** Shared memory *)

Section Memory.
Implicit Types (w : world) (v : TypedArray) (i : nat) (raw : Z).

Lemma in_range_bytes w v i :
  (i < view_length w v)%nat ->
  (4 * i + 4 <= length (data_block w (view_buffer v)))%nat.
Proof.
  unfold view_length. intros H.
  pose proof (Nat.Div0.div_mod (length (data_block w (view_buffer v))) 4).
  pose proof (Nat.mod_upper_bound (length (data_block w (view_buffer v))) 4).
  lia.
Qed.

Lemma data_block_write_same w v i raw :
  data_block (write_raw w v i raw) (view_buffer v)
  = firstn (4 * i) (data_block w (view_buffer v)) ++ le_split 4 raw
      ++ skipn (4 * i + 4) (data_block w (view_buffer v)).
Proof.
  unfold data_block, write_raw, set_heap; simpl.
  rewrite lookup_insert_eq. reflexivity.
Qed.

Lemma data_block_write_other w v i raw block :
  block <> view_buffer v ->
  data_block (write_raw w v i raw) block = data_block w block.
Proof.
  intros H. unfold data_block, write_raw, set_heap; simpl.
  rewrite lookup_insert_ne by congruence. reflexivity.
Qed.

Lemma length_write w v i raw block :
  (i < view_length w v)%nat ->
  length (data_block (write_raw w v i raw) block) = length (data_block w block).
Proof.
  intros H. destruct (decide (block = view_buffer v)) as [->|Hne].
  - rewrite data_block_write_same. apply in_range_bytes in H.
    rewrite !length_app, length_take, length_drop, length_le_split. lia.
  - rewrite data_block_write_other; auto.
Qed.

Lemma raw_write_same w v i raw :
  (i < view_length w v)%nat ->
  raw_element (write_raw w v i raw) v i = raw mod 2 ^ 32.
Proof.
  intros H. apply in_range_bytes in H. unfold raw_element.
  rewrite data_block_write_same.
  rewrite drop_app_length' by (rewrite length_take; lia).
  rewrite take_app_length' by (symmetry; apply length_le_split).
  rewrite le_combine_split. reflexivity.
Qed.
End Memory.

(** ** Construction *)

Section Construction.
Implicit Types (w : world) (block : nat) (ty : elementType) (v : JS.value).

Lemma usable_in_range w block ty :
  usable_buffer w block -> (0 < view_length w (View ty block))%nat.
Proof.
  unfold usable_buffer, byteLength, view_length, BYTES_PER_ELEMENT.
  cbn [view_buffer]. intros [Hlen _].
  apply Nat.div_str_pos. lia.
Qed.

Lemma new_TypedArray_usable w block ty :
  usable_buffer w block -> new_TypedArray ty block w = Returned (View ty block) w.
Proof.
  intros [_ Hmod]. unfold new_TypedArray. rewrite Hmod. reflexivity.
Qed.

Lemma usable_write w (view : TypedArray) i raw block :
  (i < view_length w view)%nat ->
  usable_buffer w block -> usable_buffer (write_raw w view i raw) block.
Proof.
  unfold usable_buffer, byteLength. intros Hi H.
  rewrite length_write by assumption. exact H.
Qed.

(** The four classes carry the same validation, word for word; it is
    studied once, on the copy of example 1. *)
Lemma ensure_refused w v :
  refused w v ->
  exists e, CounterExample1.ensureSharedArrayBuffer v w = Thrown e w /\ InvalidBuffer e.
Proof.
  unfold InvalidBuffer, refused, throw. intros H.
  destruct v as [| | ? | ? | ? | ? | block]; simpl; eauto.
  unfold BYTES_PER_ELEMENT in *.
  destruct (Z.ltb_spec (byteLength w block) 4); [eauto | lia].
Qed.

Lemma ensure_accepts w block :
  BYTES_PER_ELEMENT <= byteLength w block ->
  CounterExample1.ensureSharedArrayBuffer (VSharedArrayBuffer block) w = Returned block w.
Proof.
  unfold BYTES_PER_ELEMENT. intros H. simpl.
  destruct (Z.ltb_spec (byteLength w block) BYTES_PER_ELEMENT) as [Hlt|_]; [|reflexivity].
  unfold BYTES_PER_ELEMENT in Hlt. lia.
Qed.

Lemma Mutex_constructor_refused w v :
  refused w v -> exists e, Mutex.constructor v w = Thrown e w /\ InvalidBuffer e.
Proof.
  intros H. destruct (ensure_refused w v H) as (e & He & Hi).
  exists e. split; [|exact Hi].
  unfold Mutex.constructor, bind.
  change (Mutex.ensureSharedArrayBuffer v w)
    with (CounterExample1.ensureSharedArrayBuffer v w).
  rewrite He. reflexivity.
Qed.

Lemma Mutex_constructor_usable w block :
  usable_buffer w block ->
  Mutex.constructor (VSharedArrayBuffer block) w = Returned (mutex_on block) w.
Proof.
  intros H. unfold Mutex.constructor, bind.
  change (Mutex.ensureSharedArrayBuffer ?v w)
    with (CounterExample1.ensureSharedArrayBuffer v w).
  rewrite ensure_accepts by apply H.
  rewrite new_TypedArray_usable by exact H. reflexivity.
Qed.

Lemma Counter1_constructor_refused w v :
  refused w v -> exists e, CounterExample1.constructor v w = Thrown e w /\ InvalidBuffer e.
Proof.
  intros H. destruct (ensure_refused w v H) as (e & He & Hi).
  exists e. split; [|exact Hi].
  unfold CounterExample1.constructor, bind. rewrite He. reflexivity.
Qed.

Lemma Counter1_constructor_usable w block :
  usable_buffer w block ->
  CounterExample1.constructor (VSharedArrayBuffer block) w = Returned (counter1_on block) w.
Proof.
  intros H. unfold CounterExample1.constructor, bind.
  rewrite ensure_accepts by apply H.
  rewrite new_TypedArray_usable by exact H. reflexivity.
Qed.

Lemma Counter2_constructor_refused w v :
  refused w v -> exists e, CounterExample2.constructor v w = Thrown e w /\ InvalidBuffer e.
Proof.
  intros H. destruct (ensure_refused w v H) as (e & He & Hi).
  exists e. split; [|exact Hi].
  unfold CounterExample2.constructor, bind.
  change (CounterExample2.ensureSharedArrayBuffer v w)
    with (CounterExample1.ensureSharedArrayBuffer v w).
  rewrite He. reflexivity.
Qed.

Lemma Counter2_constructor_usable w block :
  usable_buffer w block ->
  CounterExample2.constructor (VSharedArrayBuffer block) w = Returned (counter2_on block) w.
Proof.
  intros H. unfold CounterExample2.constructor, bind.
  change (CounterExample2.ensureSharedArrayBuffer ?v w)
    with (CounterExample1.ensureSharedArrayBuffer v w).
  rewrite ensure_accepts by apply H.
  rewrite new_TypedArray_usable by exact H. reflexivity.
Qed.

Lemma Counter3_constructor_refused w v v' :
  refused w v ->
  exists e, CounterExample3.constructor v v' w = Thrown e w /\ InvalidBuffer e.
Proof.
  intros H. destruct (ensure_refused w v H) as (e & He & Hi).
  exists e. split; [|exact Hi].
  unfold CounterExample3.constructor, bind.
  change (CounterExample3.ensureSharedArrayBuffer v w)
    with (CounterExample1.ensureSharedArrayBuffer v w).
  rewrite He. reflexivity.
Qed.

Lemma Counter3_constructor_mutex_refused w block v' :
  usable_buffer w block -> refused w v' ->
  exists e, CounterExample3.constructor (VSharedArrayBuffer block) v' w = Thrown e w
            /\ InvalidBuffer e.
Proof.
  intros H H'. destruct (Mutex_constructor_refused w v' H') as (e & He & Hi).
  exists e. split; [|exact Hi].
  unfold CounterExample3.constructor, bind.
  change (CounterExample3.ensureSharedArrayBuffer ?v w)
    with (CounterExample1.ensureSharedArrayBuffer v w).
  rewrite ensure_accepts by apply H.
  rewrite new_TypedArray_usable by exact H.
  rewrite He. reflexivity.
Qed.

Lemma Counter3_constructor_usable w block block' :
  usable_buffer w block -> usable_buffer w block' ->
  CounterExample3.constructor (VSharedArrayBuffer block) (VSharedArrayBuffer block') w
  = Returned (counter3_on block block') w.
Proof.
  intros H H'. unfold CounterExample3.constructor, bind.
  change (CounterExample3.ensureSharedArrayBuffer ?v w)
    with (CounterExample1.ensureSharedArrayBuffer v w).
  rewrite ensure_accepts by apply H.
  rewrite new_TypedArray_usable by exact H.
  rewrite Mutex_constructor_usable by exact H'. reflexivity.
Qed.
End Construction.

(** C4 (as amended).  Whatever is passed to the constructor of [Mutex] or of a
    counter class, construction throws the specification's [InvalidBuffer],
    leaving the world as it was and no object behind, when the value is not a
    [SharedArrayBuffer] or is one of fewer than 4 bytes (for the guarded
    counter: when that holds of its counter buffer, or of its mutex buffer
    next to a usable counter buffer).  Construction succeeds when every buffer
    passed is a [SharedArrayBuffer] whose byte length is at least 4 and a
    multiple of 4. *)
Theorem construction_validation (w : world) (v v' : JS.value) (block block' : nat) :
  (refused w v ->
     (exists e, Mutex.constructor v w = Thrown e w /\ InvalidBuffer e) /\
     (exists e, CounterExample1.constructor v w = Thrown e w /\ InvalidBuffer e) /\
     (exists e, CounterExample2.constructor v w = Thrown e w /\ InvalidBuffer e) /\
     (exists e, CounterExample3.constructor v v' w = Thrown e w /\ InvalidBuffer e)) /\
  (usable_buffer w block -> refused w v' ->
     exists e, CounterExample3.constructor (VSharedArrayBuffer block) v' w = Thrown e w
               /\ InvalidBuffer e) /\
  (usable_buffer w block ->
     Mutex.constructor (VSharedArrayBuffer block) w = Returned (mutex_on block) w /\
     CounterExample1.constructor (VSharedArrayBuffer block) w
       = Returned (counter1_on block) w /\
     CounterExample2.constructor (VSharedArrayBuffer block) w
       = Returned (counter2_on block) w /\
     (usable_buffer w block' ->
        CounterExample3.constructor (VSharedArrayBuffer block) (VSharedArrayBuffer block') w
        = Returned (counter3_on block block') w)).
Proof.
  split; [|split].
  - intros H. repeat split.
    + apply Mutex_constructor_refused; exact H.
    + apply Counter1_constructor_refused; exact H.
    + apply Counter2_constructor_refused; exact H.
    + apply Counter3_constructor_refused; exact H.
  - apply Counter3_constructor_mutex_refused.
  - intros H. repeat split.
    + apply Mutex_constructor_usable; exact H.
    + apply Counter1_constructor_usable; exact H.
    + apply Counter2_constructor_usable; exact H.
    + apply Counter3_constructor_usable; exact H.
Qed.

(** The theorem at work: [undefined] and a 2-byte buffer are refused, an
    8-byte and a 4-byte buffer are accepted. *)
Lemma construction_validation_witness :
  let w := world_with [fresh 8; fresh 4; fresh 2] in
  (exists e, Mutex.constructor VUndefined w = Thrown e w /\ InvalidBuffer e) /\
  (exists e, CounterExample3.constructor (VSharedArrayBuffer 0) (VSharedArrayBuffer 2) w
             = Thrown e w /\ InvalidBuffer e) /\
  CounterExample3.constructor (VSharedArrayBuffer 0) (VSharedArrayBuffer 1) w
  = Returned (counter3_on 0 1) w.
Proof.
  intros w.
  assert (U0 : usable_buffer w 0) by (split; vm_compute; [discriminate | reflexivity]).
  assert (U1 : usable_buffer w 1) by (split; vm_compute; [discriminate | reflexivity]).
  assert (R2 : refused w (VSharedArrayBuffer 2)) by (vm_compute; reflexivity).
  pose proof (construction_validation w VUndefined (VSharedArrayBuffer 2) 0 1)
    as (Hrefused & Hmutex & Husable).
  split; [|split].
  - exact (proj1 (Hrefused I)).
  - exact (Hmutex U0 R2).
  - exact (proj2 (proj2 (proj2 (Husable U0))) U1).
Defined.

(** C4 as stated fails: a 5-byte [SharedArrayBuffer] has byteLength >= 4 and
    passes the validation, yet no object is built over it: the typed-array
    constructor throws a [RangeError], in all four classes. *)
Lemma construction_fails_on_five_bytes :
  let w := world_with [fresh 5; fresh 4] in
  BYTES_PER_ELEMENT <= byteLength w 0 /\
  Mutex.constructor (VSharedArrayBuffer 0) w
    = Thrown (RangeError "byte length of Int32Array should be a multiple of 4") w /\
  CounterExample1.constructor (VSharedArrayBuffer 0) w
    = Thrown (RangeError "byte length of Uint32Array should be a multiple of 4") w /\
  CounterExample2.constructor (VSharedArrayBuffer 0) w
    = Thrown (RangeError "byte length of Uint32Array should be a multiple of 4") w /\
  CounterExample3.constructor (VSharedArrayBuffer 0) (VSharedArrayBuffer 1) w
    = Thrown (RangeError "byte length of Uint32Array should be a multiple of 4") w.
Proof.
  cbv zeta. repeat split; try reflexivity. vm_compute. discriminate.
Qed.

(** ** The counters, one call at a time *)

Lemma ToUint32_sub_add (old n : Z) :
  ToUint32 (old - ToUint32 n) = ToUint32 (old + ToUint32 (- n)).
Proof.
  unfold ToUint32.
  rewrite Zminus_mod_idemp_r, Zplus_mod_idemp_r.
  reflexivity.
Qed.

Lemma Atomics_sub_add (view : TypedArray) (i : nat) (n : Z) (w : world) :
  Atomics.sub view i n w = Atomics.add view i (- n) w.
Proof.
  unfold Atomics.sub, Atomics.add, bind.
  destruct (Atomics.validate view i w); try reflexivity.
  rewrite ToUint32_sub_add. reflexivity.
Qed.

(** C6.  In each of the three counters [decrement(d)] does to the world what
    [increment(-d)] does, for every delta and in every state: examples 1 and
    3 call [increment(-d)], and in example 2 [Atomics.sub] by [d] is
    [Atomics.add] by [-d], the slot being kept modulo 2^32.  An omitted
    argument counts as 1. *)
Theorem decrement_is_increment_of_negation
  (self : agent) (fuel : nat) (d : Z) (w : world)
  (naive : CounterExample1.Counter) (atomic : CounterExample2.Counter)
  (guarded : CounterExample3.Counter) :
  (CounterExample1.decrement naive (Some d) w
     = CounterExample1.increment naive (Some (- d)) w /\
   CounterExample1.decrement naive None w
     = CounterExample1.increment naive (Some (- 1)) w) /\
  (CounterExample2.decrement atomic (Some d) w
     = CounterExample2.increment atomic (Some (- d)) w /\
   CounterExample2.decrement atomic None w
     = CounterExample2.increment atomic (Some (- 1)) w /\
   Atomics.sub (CounterExample2.bufferView atomic) CounterExample2.LOCATION d w
     = Atomics.add (CounterExample2.bufferView atomic) CounterExample2.LOCATION (- d) w) /\
  (CounterExample3.decrement self fuel guarded (Some d) w
     = CounterExample3.increment self fuel guarded (Some (- d)) w /\
   CounterExample3.decrement self fuel guarded None w
     = CounterExample3.increment self fuel guarded (Some (- 1)) w).
Proof.
  repeat split; try reflexivity.
  - unfold CounterExample2.decrement, CounterExample2.increment, bind; simpl.
    rewrite Atomics_sub_add. reflexivity.
  - unfold CounterExample2.decrement, CounterExample2.increment, bind; simpl.
    rewrite Atomics_sub_add. reflexivity.
  - apply Atomics_sub_add.
Qed.
Section Slots.
Implicit Types (w : world) (block : nat) (ty : elementType).

Lemma raw_element_range w (view : TypedArray) i :
  0 <= raw_element w view i < 2 ^ 32.
Proof.
  unfold raw_element.
  set (bs := firstn 4 _).
  pose proof (le_combine_bound bs) as Hb.
  assert (Hlen : (length bs <= 4)%nat) by (subst bs; rewrite length_take; lia).
  assert (2 ^ (8 * Z.of_nat (length bs)) <= 2 ^ 32).
  { apply Z.pow_le_mono_r; lia. }
  lia.
Qed.

Lemma counter_slot_range w block : 0 <= counter_slot w block < 2 ^ 32.
Proof. apply raw_element_range. Qed.

Lemma counter_slot_write w block ty raw :
  usable_buffer w block ->
  counter_slot (write_raw w (View ty block) 0 raw) block = raw mod 2 ^ 32.
Proof.
  intros H. unfold counter_slot. simpl.
  change (raw_element ?w' (View Uint32 block) 0) with (raw_element w' (View ty block) 0).
  apply raw_write_same. apply usable_in_range; exact H.
Qed.

Lemma number_add_exact a b :
  Z.abs (a + b) <= 2 ^ 53 -> number_add a b = a + b.
Proof.
  intros H. unfold number_add, round_to_double.
  destruct (Z.leb_spec (Z.abs (a + b)) (2 ^ 53)); [reflexivity | lia].
Qed.

Lemma get_counter_slot w block :
  usable_buffer w block ->
  get_element (View Uint32 block) 0 w = Some (counter_slot w block).
Proof.
  intros H. unfold get_element.
  pose proof (usable_in_range w block Uint32 H) as Hr.
  destruct (Nat.ltb_spec 0 (view_length w (View Uint32 block))); [reflexivity | lia].
Qed.

Lemma validate_usable w block ty :
  usable_buffer w block -> Atomics.validate (View ty block) 0 w = Returned tt w.
Proof.
  intros H. unfold Atomics.validate.
  pose proof (usable_in_range w block ty H) as Hr.
  destruct (Nat.ltb_spec 0 (view_length w (View ty block))); [reflexivity | lia].
Qed.

Lemma Counter1_increment_usable w block d :
  usable_buffer w block ->
  CounterExample1.increment (counter1_on block) d w
  = Returned tt (write_raw w (View Uint32 block) 0
                   (ToUint32 (number_add (counter_slot w block) (default 1 d)))).
Proof.
  intros H. unfold CounterExample1.increment, add_assign_element, counter1_on; simpl.
  unfold CounterExample1.LOCATION.
  rewrite get_counter_slot by exact H.
  unfold set_element.
  pose proof (usable_in_range w block Uint32 H) as Hr.
  destruct (Nat.ltb_spec 0 (view_length w (View Uint32 block))); [reflexivity | lia].
Qed.

Lemma Counter2_increment_usable w block d :
  usable_buffer w block ->
  CounterExample2.increment (counter2_on block) d w
  = Returned tt (write_raw w (View Uint32 block) 0
                   ((counter_slot w block + default 1 d) mod 2 ^ 32)).
Proof.
  intros H. unfold CounterExample2.increment, Atomics.add, bind, counter2_on; simpl.
  unfold CounterExample2.LOCATION.
  rewrite validate_usable by exact H. unfold ret.
  do 2 f_equal. unfold ToUint32, counter_slot; simpl.
  rewrite Zplus_mod_idemp_r. reflexivity.
Qed.
End Slots.
Lemma splice_splice (old a b : list byte) (n : nat) :
  (n + 4 <= length old)%nat -> length a = 4%nat ->
  take n (take n old ++ a ++ drop (n + 4) old) ++ b
    ++ drop (n + 4) (take n old ++ a ++ drop (n + 4) old)
  = take n old ++ b ++ drop (n + 4) old.
Proof.
  intros H Ha.
  assert (Ht : length (take n old) = n) by (rewrite length_take; lia).
  rewrite take_app_length' by (symmetry; exact Ht).
  do 2 f_equal.
  rewrite app_assoc.
  rewrite drop_app_length'; [reflexivity|].
  rewrite length_app, Ht, Ha. lia.
Qed.

Lemma write_write w (view : TypedArray) i a b :
  (i < view_length w view)%nat ->
  write_raw (write_raw w view i a) view i b = write_raw w view i b.
Proof.
  intros H. apply in_range_bytes in H.
  unfold write_raw at 1. rewrite data_block_write_same.
  unfold write_raw, set_heap; cbn [heap waiters console outbox]. f_equal.
  rewrite insert_insert_eq. f_equal.
  apply splice_splice; [exact H | apply length_le_split].
Qed.

(** ** The loop of the worker *)

Section Loop.
Import CountingWorker.
Implicit Types (w : world) (block : nat) (body : M unit).

Lemma while_numUpdates_positive n body w :
  0 < n ->
  while_numUpdates n body w
  = match body w with
    | Returned _ w' => while_numUpdates (n - 1) body w'
    | Thrown e w' => Thrown e w'
    | Suspended w' => Suspended w'
    | OutOfFuel => OutOfFuel
    end.
Proof.
  intros H. rewrite while_numUpdates_equation_1.
  destruct (Z_lt_dec 0 n) as [Hp|Hn]; [|lia].
  reflexivity.
Qed.

Lemma while_numUpdates_over n body w :
  n <= 0 -> while_numUpdates n body w = Returned tt w.
Proof.
  intros H. rewrite while_numUpdates_equation_1.
  destruct (Z_lt_dec 0 n) as [Hn|Hn]; [lia|]. reflexivity.
Qed.

(** The loop makes [numUpdates] calls, no more and no fewer. *)
Lemma while_numUpdates_calls n body w :
  while_numUpdates n body w = calls (Z.to_nat n) body w.
Proof.
  remember (Z.to_nat n) as k eqn:Hk. revert n w Hk.
  induction k as [|k IH]; intros n w Hk.
  - apply while_numUpdates_over. lia.
  - rewrite while_numUpdates_positive by lia.
    unfold calls; simpl. unfold bind at 1.
    destruct (body w) as [[] w'| | |]; try reflexivity.
    apply IH. lia.
Qed.

(** Calls that each add [delta] to the slot add up. *)
Lemma calls_add block delta body :
  (forall w, usable_buffer w block ->
     body w = Returned tt (write_raw w (View Uint32 block) 0
                             ((counter_slot w block + delta) mod 2 ^ 32))) ->
  forall (n : nat) w, usable_buffer w block ->
    calls (S n) body w
    = Returned tt (write_raw w (View Uint32 block) 0
                     ((counter_slot w block + Z.of_nat (S n) * delta) mod 2 ^ 32)).
Proof.
  intros Hbody. induction n as [|n IH]; intros w Hw.
  - unfold calls; simpl. unfold bind, ret. rewrite Hbody by exact Hw.
    do 3 f_equal. lia.
  - change (calls (S (S n)) body w) with (bind body (fun _ => calls (S n) body) w).
    unfold bind. rewrite Hbody by exact Hw.
    pose proof (usable_in_range w block Uint32 Hw) as Hr.
    rewrite IH by (apply usable_write; assumption).
    rewrite write_write by exact Hr.
    rewrite counter_slot_write by exact Hw.
    do 2 f_equal.
    rewrite !Zplus_mod_idemp_l. f_equal. lia.
Qed.

Lemma while_numUpdates_add block delta body n w :
  (forall w, usable_buffer w block ->
     body w = Returned tt (write_raw w (View Uint32 block) 0
                             ((counter_slot w block + delta) mod 2 ^ 32))) ->
  0 < n -> usable_buffer w block ->
  while_numUpdates n body w
  = Returned tt (write_raw w (View Uint32 block) 0
                   ((counter_slot w block + n * delta) mod 2 ^ 32)).
Proof.
  intros Hbody Hn Hw. rewrite while_numUpdates_calls.
  destruct (Z.to_nat n) as [|k] eqn:Hk; [lia|].
  rewrite (calls_add block delta body Hbody k w Hw).
  do 3 f_equal. lia.
Qed.
End Loop.

(** ** Single calls on a usable buffer *)

Section Calls.
Implicit Types (w : world) (block : nat) (d : Z).

Lemma Counter1_increment_exact w block d :
  usable_buffer w block -> exact_delta d ->
  CounterExample1.increment (counter1_on block) (Some d) w
  = Returned tt (write_raw w (View Uint32 block) 0 ((counter_slot w block + d) mod 2 ^ 32)).
Proof.
  intros H Hd. rewrite Counter1_increment_usable by exact H.
  simpl. rewrite number_add_exact; [reflexivity|].
  pose proof (counter_slot_range w block). unfold exact_delta in Hd. lia.
Qed.

Lemma Counter1_increment_default w block :
  usable_buffer w block ->
  CounterExample1.increment (counter1_on block) None w
  = Returned tt (write_raw w (View Uint32 block) 0 ((counter_slot w block + 1) mod 2 ^ 32)).
Proof.
  intros H. apply (Counter1_increment_exact w block 1 H).
  unfold exact_delta. simpl. lia.
Qed.

Lemma Counter1_decrement_default w block :
  usable_buffer w block ->
  CounterExample1.decrement (counter1_on block) None w
  = Returned tt (write_raw w (View Uint32 block) 0 ((counter_slot w block + -1) mod 2 ^ 32)).
Proof.
  intros H. apply (Counter1_increment_exact w block (-1) H).
  unfold exact_delta. simpl. lia.
Qed.

Lemma Counter2_decrement_usable w block (d : option Z) :
  usable_buffer w block ->
  CounterExample2.decrement (counter2_on block) d w
  = Returned tt (write_raw w (View Uint32 block) 0
                   ((counter_slot w block + - default 1 d) mod 2 ^ 32)).
Proof.
  intros H.
  transitivity (CounterExample2.increment (counter2_on block) (Some (- default 1 d)) w).
  - unfold CounterExample2.decrement, CounterExample2.increment, bind.
    rewrite Atomics_sub_add. reflexivity.
  - apply Counter2_increment_usable. exact H.
Qed.

Lemma Counter1_value_usable w block :
  usable_buffer w block ->
  CounterExample1.value (counter1_on block) w = Returned (VNumber (counter_slot w block)) w.
Proof.
  intros H. unfold CounterExample1.value, counter1_on; simpl.
  unfold CounterExample1.LOCATION. rewrite get_counter_slot by exact H. reflexivity.
Qed.

Lemma Counter2_value_usable w block :
  usable_buffer w block ->
  CounterExample2.value (counter2_on block) w = Returned (VNumber (counter_slot w block)) w.
Proof.
  intros H. unfold CounterExample2.value, Atomics.load, bind, counter2_on; simpl.
  unfold CounterExample2.LOCATION. rewrite validate_usable by exact H. reflexivity.
Qed.
End Calls.

(** ** The worker *)

Section Worker.
Import CounterJs CountingWorker.

Lemma handle_increment_shape C name data w :
  operation data = VString "increment" ->
  handleMessageFromMain C name data w
  = (counter <- new C [sharedCounterBuffer data] ;;
     console_log "Incrementing.." ;;
     calls (Z.to_nat 100000) (increment C counter None) ;;
     console_log (name ++ " is done counting!") ;;
     n <- value C counter ;;
     postMessage {| done := true; count := n |}) w.
Proof.
  intros Hop. unfold handleMessageFromMain. rewrite Hop.
  change (is_string (VString "increment") "increment") with true. cbv iota.
  pose proof (while_numUpdates_calls 100000) as Hloop.
  revert Hloop. generalize (Z.to_nat 100000) as k. intros k Hloop.
  unfold bind.
  destruct (new C [sharedCounterBuffer data] w) as [counter w1| | |]; try reflexivity.
  destruct (console_log "Incrementing.." w1) as [[] w2| | |]; try reflexivity.
  rewrite Hloop. reflexivity.
Qed.

Lemma handle_decrement_shape C name data w :
  operation data = VString "decrement" ->
  handleMessageFromMain C name data w
  = (counter <- new C [sharedCounterBuffer data] ;;
     console_log "Decrementing.." ;;
     calls (Z.to_nat 100000) (decrement C counter None) ;;
     console_log (name ++ " is done counting!") ;;
     n <- value C counter ;;
     postMessage {| done := true; count := n |}) w.
Proof.
  intros Hop. unfold handleMessageFromMain. rewrite Hop.
  change (is_string (VString "decrement") "increment") with false.
  change (is_string (VString "decrement") "decrement") with true. cbv iota.
  pose proof (while_numUpdates_calls 100000) as Hloop.
  revert Hloop. generalize (Z.to_nat 100000) as k. intros k Hloop.
  unfold bind.
  destruct (new C [sharedCounterBuffer data] w) as [counter w1| | |]; try reflexivity.
  destruct (console_log "Decrementing.." w1) as [[] w2| | |]; try reflexivity.
  rewrite Hloop. reflexivity.
Qed.

Lemma counting_run (C : CounterClass) (counter : Counter C)
      (op : Counter C -> option Z -> M unit) name line block delta w :
  (forall w, usable_buffer w block ->
     op counter None w
     = Returned tt (write_raw w (View Uint32 block) 0
                      ((counter_slot w block + delta) mod 2 ^ 32))) ->
  (forall w, usable_buffer w block ->
     value C counter w = Returned (VNumber (counter_slot w block)) w) ->
  usable_buffer w block ->
  (console_log line ;;
   while_numUpdates 100000 (op counter None) ;;
   console_log (name ++ " is done counting!") ;;
   n <- value C counter ;;
   postMessage {| done := true; count := n |}) w
  = Returned tt
      (after_counting w name line block ((counter_slot w block + 100000 * delta) mod 2 ^ 32)).
Proof.
  intros Hop Hvalue Hw.
  unfold bind at 1. unfold console_log at 1.
  set (w1 := {| heap := heap w; waiters := waiters w;
                console := console w ++ [line]; outbox := outbox w |}).
  assert (Hw1 : usable_buffer w1 block) by exact Hw.
  unfold bind at 1.
  rewrite (while_numUpdates_add block delta (op counter None) 100000 w1 Hop) by (lia || exact Hw1).
  change (counter_slot w1 block) with (counter_slot w block).
  set (n := (counter_slot w block + 100000 * delta) mod 2 ^ 32).
  set (w2 := write_raw w1 (View Uint32 block) 0 n).
  assert (Hw2 : usable_buffer w2 block).
  { apply usable_write; [apply usable_in_range|]; exact Hw1. }
  unfold bind at 1. unfold console_log at 1.
  set (w3 := {| heap := heap w2; waiters := waiters w2;
                console := console w2 ++ [(name ++ " is done counting!")%string];
                outbox := outbox w2 |}).
  assert (Hw3 : usable_buffer w3 block) by exact Hw2.
  unfold bind. rewrite (Hvalue w3 Hw3).
  change (counter_slot w3 block) with (counter_slot w2 block).
  unfold w2 at 1. rewrite counter_slot_write by exact Hw1.
  assert (Hn : n mod 2 ^ 32 = n) by (unfold n; apply Z.mod_mod; lia).
  rewrite Hn. reflexivity.
Qed.

(** C1.  On a message tagged ["increment"] or ["decrement"] with a usable
    counter buffer, the handler (with the counter of example 1 or of example
    2) builds the counter, makes exactly 100,000 calls of that operation
    without an argument (delta 1), then posts [{done: true, count}] where
    [count] is read from the counter after the loop.  Run alone from a slot
    holding [c], it ends with the slot and the reported count at
    [(c + 100000) mod 2^32], respectively [(c - 100000) mod 2^32]. *)
Theorem worker_counts (C : CounterClass) (name : string) (data : EventData)
        (w : world) (block : nat) :
  C = example1 \/ C = example2 ->
  sharedCounterBuffer data = VSharedArrayBuffer block ->
  usable_buffer w block ->
  (operation data = VString "increment" ->
     handleMessageFromMain C name data w
     = (counter <- new C [sharedCounterBuffer data] ;;
        console_log "Incrementing.." ;;
        calls (Z.to_nat 100000) (increment C counter None) ;;
        console_log (name ++ " is done counting!") ;;
        n <- value C counter ;;
        postMessage {| done := true; count := n |}) w
     /\ handleMessageFromMain C name data w
        = Returned tt (after_counting w name "Incrementing.." block
                         ((counter_slot w block + 100000) mod 2 ^ 32))) /\
  (operation data = VString "decrement" ->
     handleMessageFromMain C name data w
     = (counter <- new C [sharedCounterBuffer data] ;;
        console_log "Decrementing.." ;;
        calls (Z.to_nat 100000) (decrement C counter None) ;;
        console_log (name ++ " is done counting!") ;;
        n <- value C counter ;;
        postMessage {| done := true; count := n |}) w
     /\ handleMessageFromMain C name data w
        = Returned tt (after_counting w name "Decrementing.." block
                         ((counter_slot w block - 100000) mod 2 ^ 32))).
Proof.
  intros HC Hbuf Hw. split; intros Hop.
  - split; [apply handle_increment_shape; exact Hop|].
    unfold handleMessageFromMain. rewrite Hop, Hbuf.
    change (is_string (VString "increment") "increment") with true. cbv iota.
    unfold bind at 1.
    destruct HC as [-> | ->]; cbn [new example1 example2 argument nth].
    + rewrite Counter1_constructor_usable by exact Hw.
      apply (counting_run example1 (counter1_on block) CounterExample1.increment
               name "Incrementing.." block 1 w); [| |exact Hw].
      * intros w' Hw'. apply Counter1_increment_default; exact Hw'.
      * intros w' Hw'. apply Counter1_value_usable; exact Hw'.
    + rewrite Counter2_constructor_usable by exact Hw.
      apply (counting_run example2 (counter2_on block) CounterExample2.increment
               name "Incrementing.." block 1 w); [| |exact Hw].
      * intros w' Hw'. apply (Counter2_increment_usable w' block None); exact Hw'.
      * intros w' Hw'. apply Counter2_value_usable; exact Hw'.
  - split; [apply handle_decrement_shape; exact Hop|].
    unfold handleMessageFromMain. rewrite Hop, Hbuf.
    change (is_string (VString "decrement") "increment") with false.
    change (is_string (VString "decrement") "decrement") with true. cbv iota.
    unfold bind at 1.
    destruct HC as [-> | ->]; cbn [new example1 example2 argument nth].
    + rewrite Counter1_constructor_usable by exact Hw.
      apply (counting_run example1 (counter1_on block) CounterExample1.decrement
               name "Decrementing.." block (-1) w); [| |exact Hw].
      * intros w' Hw'. apply Counter1_decrement_default; exact Hw'.
      * intros w' Hw'. apply Counter1_value_usable; exact Hw'.
    + rewrite Counter2_constructor_usable by exact Hw.
      apply (counting_run example2 (counter2_on block) CounterExample2.decrement
               name "Decrementing.." block (-1) w); [| |exact Hw].
      * intros w' Hw'. apply (Counter2_decrement_usable w' block None); exact Hw'.
      * intros w' Hw'. apply Counter2_value_usable; exact Hw'.
Qed.
(** A worker started on the fresh buffers of [main.js] reports 100000. *)
Lemma worker_counts_witness :
  CountingWorker.handleMessageFromMain CounterJs.example2 "Worker #0" increment_request
    main_world
  = Returned tt (after_counting main_world "Worker #0" "Incrementing.." 0 100000).
Proof.
  assert (U : usable_buffer main_world 0)
    by (split; vm_compute; [discriminate | reflexivity]).
  exact (proj2 (proj1 (worker_counts CounterJs.example2 "Worker #0" increment_request
                         main_world 0 (or_intror eq_refl) eq_refl U) eq_refl)).
Defined.

Lemma is_string_false v s : v <> VString s -> is_string v s = false.
Proof.
  intros H. destruct v; try reflexivity. simpl.
  destruct (String.eqb_spec s0 s); [congruence | reflexivity].
Qed.

Lemma handle_other_shape C name data w :
  operation data <> VString "increment" ->
  operation data <> VString "decrement" ->
  handleMessageFromMain C name data w = (new C [sharedCounterBuffer data] ;; ret tt) w.
Proof.
  intros Hi Hd. unfold handleMessageFromMain.
  rewrite (is_string_false _ _ Hi), (is_string_false _ _ Hd). reflexivity.
Qed.

(** Building an object reads the world and leaves it as it is. *)
Lemma ensure_reads w v :
  (exists block, CounterExample1.ensureSharedArrayBuffer v w = Returned block w)
  \/ (exists e, CounterExample1.ensureSharedArrayBuffer v w = Thrown e w).
Proof.
  destruct v; simpl; unfold throw; eauto.
  destruct (byteLength w block <? BYTES_PER_ELEMENT); eauto.
Qed.

Lemma new_TypedArray_reads ty block w :
  new_TypedArray ty block w = Returned (View ty block) w
  \/ (exists e, new_TypedArray ty block w = Thrown e w).
Proof.
  unfold new_TypedArray.
  destruct (byteLength w block mod BYTES_PER_ELEMENT =? 0); eauto.
Qed.

Lemma Mutex_constructor_reads w v :
  (exists m, Mutex.constructor v w = Returned m w)
  \/ (exists e, Mutex.constructor v w = Thrown e w).
Proof.
  unfold Mutex.constructor, bind.
  change (Mutex.ensureSharedArrayBuffer v w)
    with (CounterExample1.ensureSharedArrayBuffer v w).
  destruct (ensure_reads w v) as [[block ->] | [e ->]]; [|eauto].
  destruct (new_TypedArray_reads Int32 block w) as [-> | [e ->]]; unfold ret; eauto.
Qed.

Lemma new_reads (self : agent) (fuel : nat) C args w :
  C = example1 \/ C = example2 \/ C = example3 self fuel ->
  (exists counter, new C args w = Returned counter w)
  \/ (exists e, new C args w = Thrown e w).
Proof.
  intros [-> | [-> | ->]]; cbn [new example1 example2 example3].
  - unfold CounterExample1.constructor, bind.
    destruct (ensure_reads w (argument args 0)) as [[block ->] | [e ->]]; [|eauto].
    destruct (new_TypedArray_reads Uint32 block w) as [-> | [e ->]]; unfold ret; eauto.
  - unfold CounterExample2.constructor, bind.
    change (CounterExample2.ensureSharedArrayBuffer ?v w)
      with (CounterExample1.ensureSharedArrayBuffer v w).
    destruct (ensure_reads w (argument args 0)) as [[block ->] | [e ->]]; [|eauto].
    destruct (new_TypedArray_reads Uint32 block w) as [-> | [e ->]]; unfold ret; eauto.
  - unfold CounterExample3.constructor, bind.
    change (CounterExample3.ensureSharedArrayBuffer ?v w)
      with (CounterExample1.ensureSharedArrayBuffer v w).
    destruct (ensure_reads w (argument args 0)) as [[block ->] | [e ->]]; [|eauto].
    destruct (new_TypedArray_reads Uint32 block w) as [-> | [e ->]]; [|eauto].
    destruct (Mutex_constructor_reads w (argument args 1)) as [[m ->] | [e ->]];
      unfold ret; eauto.
Qed.

(** C8.  On a message whose operation tag is neither ["increment"] nor
    ["decrement"] the handler builds the counter and does nothing else: no
    method of the counter is called.  With each of the three counters the
    world is left as it was (counter slot unchanged, nothing posted, nothing
    printed); over a usable buffer, with the counters of examples 1 and 2,
    the handler returns normally. *)
Theorem unknown_operation_is_ignored (C : CounterClass) (self : agent) (fuel : nat)
        (name : string) (data : EventData) (w : world) (block : nat) :
  operation data <> VString "increment" ->
  operation data <> VString "decrement" ->
  handleMessageFromMain C name data w = (new C [sharedCounterBuffer data] ;; ret tt) w /\
  (C = example1 \/ C = example2 \/ C = example3 self fuel ->
     handleMessageFromMain C name data w = Returned tt w
     \/ exists e, handleMessageFromMain C name data w = Thrown e w) /\
  (C = example1 \/ C = example2 ->
     sharedCounterBuffer data = VSharedArrayBuffer block -> usable_buffer w block ->
     handleMessageFromMain C name data w = Returned tt w).
Proof.
  intros Hi Hd. pose proof (handle_other_shape C name data w Hi Hd) as Hshape.
  split; [exact Hshape|]. rewrite Hshape. split.
  - intros HC. unfold bind.
    destruct (new_reads self fuel C [sharedCounterBuffer data] w HC) as [[c ->] | [e ->]];
      unfold ret; eauto.
  - intros HC Hbuf Hw. unfold bind. rewrite Hbuf.
    destruct HC as [-> | ->]; cbn [new example1 example2 argument nth].
    + rewrite Counter1_constructor_usable by exact Hw. reflexivity.
    + rewrite Counter2_constructor_usable by exact Hw. reflexivity.
Qed.

(** C2.  The handler passes [new Counter] the counter buffer of the message
    and nothing else.  With the counter of example 3 selected, the mutex
    buffer is therefore [undefined], and every message makes the
    construction throw, the world being left as it was: no update of the
    counter, no report.  On a request with a usable counter buffer the error
    is the one the [Mutex] constructor throws on [undefined]. *)
Theorem guarded_counter_is_never_built (self : agent) (fuel : nat) (name : string)
        (data : EventData) (w : world) (block : nat) :
  new (counter_js_part_000 self fuel) [sharedCounterBuffer data] w
    = CounterExample3.constructor (sharedCounterBuffer data) VUndefined w /\
  (exists e, CounterExample3.constructor (sharedCounterBuffer data) VUndefined w = Thrown e w
             /\ handleMessageFromMain (counter_js_part_000 self fuel) name data w = Thrown e w) /\
  (sharedCounterBuffer data = VSharedArrayBuffer block -> usable_buffer w block ->
     Mutex.constructor VUndefined w = Thrown (Error "Expected a 'SharedArrayBuffer'.") w /\
     handleMessageFromMain (counter_js_part_000 self fuel) name data w
     = Thrown (Error "Expected a 'SharedArrayBuffer'.") w).
Proof.
  split; [reflexivity|].
  assert (Hthrows : exists e,
            CounterExample3.constructor (sharedCounterBuffer data) VUndefined w = Thrown e w).
  { unfold CounterExample3.constructor, bind.
    change (CounterExample3.ensureSharedArrayBuffer ?v w)
      with (CounterExample1.ensureSharedArrayBuffer v w).
    destruct (ensure_reads w (sharedCounterBuffer data)) as [[b ->] | [e ->]]; [|eauto].
    destruct (new_TypedArray_reads Uint32 b w) as [-> | [e ->]]; eauto. }
  assert (Hhandle : forall e,
            CounterExample3.constructor (sharedCounterBuffer data) VUndefined w = Thrown e w ->
            handleMessageFromMain (counter_js_part_000 self fuel) name data w = Thrown e w).
  { intros e He. unfold handleMessageFromMain, bind.
    change (new (counter_js_part_000 self fuel) [sharedCounterBuffer data] w)
      with (CounterExample3.constructor (sharedCounterBuffer data) VUndefined w).
    rewrite He. reflexivity. }
  split.
  - destruct Hthrows as [e He]. exists e. split; [exact He | apply Hhandle; exact He].
  - intros Hbuf Hw. split; [reflexivity|].
    apply Hhandle. rewrite Hbuf.
    unfold CounterExample3.constructor, bind.
    change (CounterExample3.ensureSharedArrayBuffer ?v w)
      with (CounterExample1.ensureSharedArrayBuffer v w).
    rewrite ensure_accepts by apply Hw.
    rewrite new_TypedArray_usable by exact Hw. reflexivity.
Qed.

Lemma unknown_operation_is_ignored_witness :
  handleMessageFromMain example1 "Worker #0" reset_request main_world
  = Returned tt main_world.
Proof.
  assert (U : usable_buffer main_world 0)
    by (split; vm_compute; [discriminate | reflexivity]).
  assert (Hi : operation reset_request <> VString "increment") by discriminate.
  assert (Hd : operation reset_request <> VString "decrement") by discriminate.
  exact (proj2 (proj2 (unknown_operation_is_ignored example1 0%nat 1%nat "Worker #0"
                         reset_request main_world 0 Hi Hd))
               (or_introl eq_refl) eq_refl U).
Defined.

Lemma guarded_counter_is_never_built_witness :
  handleMessageFromMain (counter_js_part_000 0%nat 1%nat) "Worker #0" increment_request
    main_world
  = Thrown (Error "Expected a 'SharedArrayBuffer'.") main_world.
Proof.
  assert (U : usable_buffer main_world 0)
    by (split; vm_compute; [discriminate | reflexivity]).
  exact (proj2 (proj2 (proj2 (guarded_counter_is_never_built 0%nat 1%nat "Worker #0"
                                increment_request main_world 0))
                      eq_refl U)).
Defined.
End Worker.

(** ** The mutex, step by step *)

Section MutexSteps.
Import Mutex.
Implicit Types (w : world) (block : nat).

Lemma of_raw_Int32_is_0 raw : 0 <= raw < 2 ^ 32 -> (of_raw Int32 raw = 0 <-> raw = 0).
Proof. unfold of_raw. destruct (Z.ltb_spec raw (2 ^ 31)); lia. Qed.

Lemma of_raw_Int32_is_1 raw : 0 <= raw < 2 ^ 32 -> (of_raw Int32 raw = 1 <-> raw = 1).
Proof. unfold of_raw. destruct (Z.ltb_spec raw (2 ^ 31)); lia. Qed.

Lemma lock_slot_write w block ty raw :
  (0 < view_length w (View ty block))%nat ->
  lock_slot (write_raw w (View ty block) 0 raw) block = of_raw Int32 (raw mod 2 ^ 32).
Proof.
  intros H. unfold lock_slot. f_equal.
  change (raw_element ?w' (View Int32 block) 0) with (raw_element w' (View ty block) 0).
  apply raw_write_same. exact H.
Qed.

Lemma slot_write_other w block block' ty i raw :
  block <> block' ->
  lock_slot (write_raw w (View ty block') i raw) block = lock_slot w block
  /\ counter_slot (write_raw w (View ty block') i raw) block = counter_slot w block.
Proof.
  intros H. unfold lock_slot, counter_slot, raw_element; cbn [view_buffer].
  rewrite data_block_write_other by (cbn [view_buffer]; exact H). split; reflexivity.
Qed.

(** The compare-and-swap of [tryGetLock], case by case. *)
Lemma tryGetLock_cases w block :
  (Atomics.validate (View Int32 block) 0 w = Returned tt w /\
   lock_slot w block = UNLOCKED /\
   tryGetLock (mutex_on block) w
   = Returned true (write_raw w (View Int32 block) 0 (ToUint32 LOCKED)))
  \/ (Atomics.validate (View Int32 block) 0 w = Returned tt w /\
      lock_slot w block <> UNLOCKED /\
      tryGetLock (mutex_on block) w = Returned false w)
  \/ (exists e, tryGetLock (mutex_on block) w = Thrown e w).
Proof.
  unfold tryGetLock, Atomics.compareExchange, bind, mutex_on; cbn [bufferView].
  unfold LOCATION, Atomics.validate.
  destruct (Nat.ltb_spec 0 (view_length w (View Int32 block))) as [Hr|Hr]; [|eauto].
  pose proof (raw_element_range w (View Int32 block) 0) as Hraw.
  pose proof (of_raw_Int32_is_0 _ Hraw) as H0.
  change (ToUint32 UNLOCKED) with 0. cbn [view_type]. unfold ret, UNLOCKED, lock_slot.
  destruct (Z.eqb_spec (raw_element w (View Int32 block) 0) 0) as [E|E].
  - left. repeat split; [tauto|].
    rewrite (proj2 H0 E). reflexivity.
  - right; left. repeat split; [tauto|].
    destruct (Z.eqb_spec (of_raw Int32 (raw_element w (View Int32 block) 0)) 0); [tauto|].
    reflexivity.
Qed.

Lemma tryUnlock_cases w block :
  (Atomics.validate (View Int32 block) 0 w = Returned tt w /\
   lock_slot w block = LOCKED /\
   tryUnlock (mutex_on block) w
   = Returned true (write_raw w (View Int32 block) 0 (ToUint32 UNLOCKED)))
  \/ (Atomics.validate (View Int32 block) 0 w = Returned tt w /\
      lock_slot w block <> LOCKED /\
      tryUnlock (mutex_on block) w = Returned false w)
  \/ (exists e, tryUnlock (mutex_on block) w = Thrown e w).
Proof.
  unfold tryUnlock, Atomics.compareExchange, bind, mutex_on; cbn [bufferView].
  unfold LOCATION, Atomics.validate.
  destruct (Nat.ltb_spec 0 (view_length w (View Int32 block))) as [Hr|Hr]; [|eauto].
  pose proof (raw_element_range w (View Int32 block) 0) as Hraw.
  pose proof (of_raw_Int32_is_1 _ Hraw) as H1.
  change (ToUint32 LOCKED) with 1. cbn [view_type]. unfold ret, LOCKED, lock_slot.
  destruct (Z.eqb_spec (raw_element w (View Int32 block) 0) 1) as [E|E].
  - left. repeat split; [tauto|].
    rewrite (proj2 H1 E). reflexivity.
  - right; left. repeat split; [tauto|].
    destruct (Z.eqb_spec (of_raw Int32 (raw_element w (View Int32 block) 0)) 1); [tauto|].
    reflexivity.
Qed.

Lemma waitIfLocked_cases self w block :
  (Atomics.validate (View Int32 block) 0 w = Returned tt w /\
   lock_slot w block = LOCKED /\
   waitIfLocked self (mutex_on block) w
   = Suspended (set_waiters (waiters w ++ [Waiter block 0 self]) w))
  \/ (Atomics.validate (View Int32 block) 0 w = Returned tt w /\
      lock_slot w block <> LOCKED /\
      waitIfLocked self (mutex_on block) w = Returned tt w)
  \/ (exists e, waitIfLocked self (mutex_on block) w = Thrown e w).
Proof.
  unfold waitIfLocked, Atomics.wait, bind, mutex_on; cbn [bufferView].
  unfold LOCATION, Atomics.validate, Atomics.validate_waitable; cbn [view_type].
  destruct (Nat.ltb_spec 0 (view_length w (View Int32 block))) as [Hr|Hr]; [|eauto].
  change (ToInt32 LOCKED) with 1. cbn [view_type view_buffer]. unfold ret, LOCKED, lock_slot.
  destruct (Z.eqb_spec (of_raw Int32 (raw_element w (View Int32 block) 0)) 1) as [E|E].
  - left. repeat split; assumption.
  - right; left. repeat split; assumption.
Qed.
(** Over a usable buffer the steps of the mutex do not throw. *)
Lemma tryGetLock_does_not_throw w block e :
  usable_buffer w block -> tryGetLock (mutex_on block) w <> Thrown e w.
Proof.
  intros Hw. unfold tryGetLock, Atomics.compareExchange, bind.
  cbn [bufferView mutex_on]. unfold LOCATION.
  rewrite validate_usable by exact Hw.
  destruct (_ =? _); discriminate.
Qed.

Lemma tryUnlock_does_not_throw w block e :
  usable_buffer w block -> tryUnlock (mutex_on block) w <> Thrown e w.
Proof.
  intros Hw. unfold tryUnlock, Atomics.compareExchange, bind.
  cbn [bufferView mutex_on]. unfold LOCATION.
  rewrite validate_usable by exact Hw.
  destruct (_ =? _); discriminate.
Qed.

Lemma waitIfLocked_does_not_throw self w block e :
  usable_buffer w block -> waitIfLocked self (mutex_on block) w <> Thrown e w.
Proof.
  intros Hw. unfold waitIfLocked, Atomics.wait, bind.
  cbn [bufferView mutex_on]. unfold LOCATION, Atomics.validate_waitable.
  cbn [view_type].
  rewrite validate_usable by exact Hw.
  destruct (_ =? _); discriminate.
Qed.
End MutexSteps.

Section Notify.
Import Mutex.
Implicit Types (w : world) (block : nat) (l : list waiter).

Lemma remove_waiters_spec block byteIndex l : forall count,
  fst (Atomics.remove_waiters block byteIndex count l)
    = take count (sleepers block byteIndex l)
  /\ sleepers block byteIndex (snd (Atomics.remove_waiters block byteIndex count l))
     = drop count (sleepers block byteIndex l)
  /\ List.filter (fun x => negb (Atomics.waits_on block byteIndex x))
                 (snd (Atomics.remove_waiters block byteIndex count l))
     = List.filter (fun x => negb (Atomics.waits_on block byteIndex x)) l.
Proof.
  unfold sleepers.
  induction l as [|x rest IH]; intros count.
  - simpl. rewrite take_nil, drop_nil. auto.
  - cbn [Atomics.remove_waiters List.filter].
    destruct (Atomics.waits_on block byteIndex x) eqn:Hx; cbn [negb].
    + destruct count as [|count].
      * cbn [fst snd take drop List.filter]. rewrite Hx. auto.
      * specialize (IH count).
        destruct (Atomics.remove_waiters block byteIndex count rest) as [woken kept].
        cbn [fst snd map take drop] in *.
        destruct IH as (-> & IH2 & IH3). auto.
    + specialize (IH count).
      destruct (Atomics.remove_waiters block byteIndex count rest) as [woken kept].
      cbn [fst snd List.filter] in *. rewrite Hx. cbn [negb].
      destruct IH as (-> & IH2 & ->). auto.
Qed.

Lemma notifyAgents_cases w block :
  (Atomics.validate (View Int32 block) 0 w = Returned tt w /\
   exists w', notifyAgents (mutex_on block) w = Returned tt w' /\
              heap w' = heap w /\ console w' = console w /\ outbox w' = outbox w /\
              asleep_on w' block = drop 1 (asleep_on w block) /\
              asleep_elsewhere w' block = asleep_elsewhere w block)
  \/ (exists e, notifyAgents (mutex_on block) w = Thrown e w).
Proof.
  unfold notifyAgents, Atomics.notify, bind, mutex_on; cbn [bufferView].
  unfold LOCATION, Atomics.validate, Atomics.validate_waitable; cbn [view_type].
  destruct (Nat.ltb_spec 0 (view_length w (View Int32 block))) as [Hr|Hr]; [|eauto].
  left. split; [reflexivity|]. cbn [view_buffer].
  change (4 * 0)%nat with 0%nat.
  pose proof (remove_waiters_spec block 0 (waiters w) 1) as (_ & Hkept & Hothers).
  destruct (Atomics.remove_waiters block 0 1 (waiters w)) as [woken kept].
  cbn [fst snd] in *. eexists. split; [reflexivity|].
  unfold asleep_on, asleep_elsewhere; cbn [heap waiters console outbox set_waiters]. auto.
Qed.
Lemma notifyAgents_does_not_throw w block e :
  usable_buffer w block -> notifyAgents (mutex_on block) w <> Thrown e w.
Proof.
  intros Hw. unfold notifyAgents, Atomics.notify, bind.
  cbn [bufferView mutex_on]. unfold LOCATION, Atomics.validate_waitable.
  cbn [view_type].
  rewrite validate_usable by exact Hw.
  destruct (Atomics.remove_waiters _ _ _ _); discriminate.
Qed.
End Notify.

Section Unlock.
Import Mutex.
Implicit Types (w : world) (block : nat).

Lemma lock_slot_heap w w' block : heap w' = heap w -> lock_slot w' block = lock_slot w block.
Proof.
  intros H. unfold lock_slot, raw_element, data_block. rewrite H. reflexivity.
Qed.

Lemma counter_slot_heap w w' block :
  heap w' = heap w -> counter_slot w' block = counter_slot w block.
Proof.
  intros H. unfold counter_slot, raw_element, data_block. rewrite H. reflexivity.
Qed.

Lemma usable_heap w w' block : heap w' = heap w -> usable_buffer w block -> usable_buffer w' block.
Proof.
  intros H. unfold usable_buffer, byteLength, data_block. rewrite H. auto.
Qed.

Lemma unlock_not_held w block :
  usable_buffer w block -> lock_slot w block <> LOCKED ->
  unlock (mutex_on block) w = Thrown NotHeld w.
Proof.
  intros Hw Hslot. unfold unlock, bind.
  destruct (tryUnlock_cases w block) as [(_ & H & _) | [(_ & _ & ->) | [e He]]].
  - contradiction.
  - reflexivity.
  - exact (False_ind _ (tryUnlock_does_not_throw w block e Hw He)).
Qed.

Lemma unlock_held w block :
  usable_buffer w block -> lock_slot w block = LOCKED ->
  exists w', unlock (mutex_on block) w = Returned tt w' /\
             heap w' = heap (write_raw w (View Int32 block) 0 (ToUint32 UNLOCKED)) /\
             console w' = console w /\ outbox w' = outbox w /\
             lock_slot w' block = UNLOCKED /\
             asleep_on w' block = drop 1 (asleep_on w block) /\
             asleep_elsewhere w' block = asleep_elsewhere w block.
Proof.
  intros Hw Hslot. unfold unlock, bind.
  destruct (tryUnlock_cases w block) as [(_ & _ & ->) | [(_ & H & _) | [e He]]].
  - set (w1 := write_raw w (View Int32 block) 0 (ToUint32 UNLOCKED)).
    assert (Hw1 : usable_buffer w1 block).
    { apply usable_write; [apply usable_in_range|]; exact Hw. }
    destruct (notifyAgents_cases w1 block)
      as [(_ & w' & -> & Hh & Hc & Ho & Ha & Hel) | [e He]].
    + exists w'. repeat split; try assumption.
      rewrite (lock_slot_heap w1 w' block Hh). unfold w1.
      rewrite lock_slot_write by (apply usable_in_range; exact Hw). reflexivity.
    + exact (False_ind _ (notifyAgents_does_not_throw w1 block e Hw1 He)).
  - contradiction.
  - exact (False_ind _ (tryUnlock_does_not_throw w block e Hw He)).
Qed.

(** C3.  [unlock()] on a mutex whose lock slot does not hold LOCKED throws
    the error the specification calls [NotHeld] and changes nothing: the slot
    keeps its value (UNLOCKED, if the mutex was never locked or is already
    unlocked) and every sleeper stays asleep.  [unlock()] on a slot holding
    LOCKED returns, leaves UNLOCKED in the slot, and wakes the oldest agent
    asleep on the slot when there is one, and no other. *)
Theorem unlock_contract (w : world) (block : nat) :
  usable_buffer w block ->
  (lock_slot w block <> LOCKED -> unlock (mutex_on block) w = Thrown NotHeld w) /\
  (lock_slot w block = UNLOCKED ->
     exists w', unlock (mutex_on block) w = Thrown NotHeld w' /\
                lock_slot w' block = UNLOCKED /\ waiters w' = waiters w) /\
  (lock_slot w block = LOCKED ->
     exists w', unlock (mutex_on block) w = Returned tt w' /\
                lock_slot w' block = UNLOCKED /\
                asleep_on w' block = drop 1 (asleep_on w block) /\
                asleep_elsewhere w' block = asleep_elsewhere w block).
Proof.
  intros Hw. split; [|split].
  - apply unlock_not_held; exact Hw.
  - intros Hslot. exists w. split; [|auto].
    apply unlock_not_held; [exact Hw|]. rewrite Hslot. discriminate.
  - intros Hslot.
    destruct (unlock_held w block Hw Hslot) as (w' & Hu & _ & _ & _ & Hl & Ha & He).
    exists w'. auto.
Qed.
(** The mutex of [main.js]: unlocking it fresh is refused; unlocking it when
    taken, with agents 5 and 6 asleep, wakes agent 5 and leaves agent 6. *)
Lemma unlock_contract_witness :
  unlock (mutex_on 1) main_world = Thrown NotHeld main_world /\
  exists w', unlock (mutex_on 1) locked_world = Returned tt w' /\
             lock_slot w' 1 = UNLOCKED /\
             asleep_on w' 1 = [6%nat].
Proof.
  assert (U : usable_buffer main_world 1)
    by (split; vm_compute; [discriminate | reflexivity]).
  assert (U' : usable_buffer locked_world 1)
    by (split; vm_compute; [discriminate | reflexivity]).
  split.
  - apply (proj1 (unlock_contract main_world 1 U)). vm_compute. discriminate.
  - destruct (proj2 (proj2 (unlock_contract locked_world 1 U')) eq_refl)
      as (w' & Hu & Hl & Ha & _).
    exists w'. repeat split; assumption.
Defined.
End Unlock.

Section Lock.
Import Mutex.
Implicit Types (w : world) (block : nat).

Lemma lock_step_returns self block pc w w' :
  lock_step self (mutex_on block) pc w = Some (LockReturned, w') ->
  pc = AtTryGetLock /\ lock_slot w block = UNLOCKED /\ lock_slot w' block = LOCKED /\
  w' = write_raw w (View Int32 block) 0 (ToUint32 LOCKED).
Proof.
  destruct pc; cbn [lock_step].
  - destruct (tryGetLock_cases w block) as [(Hv & Hs & ->) | [(_ & _ & ->) | [e ->]]];
      try discriminate.
    intros [= <-]. repeat split; try assumption.
    rewrite lock_slot_write; [reflexivity|].
    revert Hv. unfold Atomics.validate.
    destruct (Nat.ltb_spec 0 (view_length w (View Int32 block))); [auto | discriminate].
  - destruct (waitIfLocked self (mutex_on block) w); discriminate.
  - destruct (is_asleep self (mutex_on block) w); discriminate.
  - discriminate.
  - discriminate.
Qed.

Lemma lock_step_sleeps self block pc w w' :
  lock_step self (mutex_on block) pc w = Some (Asleep, w') ->
  pc = AtWaitIfLocked /\ lock_slot w block = LOCKED /\
  w' = set_waiters (waiters w ++ [Waiter block 0 self]) w.
Proof.
  destruct pc; cbn [lock_step].
  - destruct (tryGetLock (mutex_on block) w) as [[] ?| | |]; discriminate.
  - destruct (waitIfLocked_cases self w block) as [(_ & Hs & ->) | [(_ & _ & ->) | [e ->]]];
      try discriminate.
    intros [= <-]. auto.
  - destruct (is_asleep self (mutex_on block) w); discriminate.
  - discriminate.
  - discriminate.
Qed.

Lemma lock_step_wakes self block w pc' w' :
  lock_step self (mutex_on block) Asleep w = Some (pc', w') ->
  pc' = AtTryGetLock /\ w' = w /\ is_asleep self (mutex_on block) w = false.
Proof.
  cbn [lock_step]. destruct (is_asleep self (mutex_on block) w); [discriminate|].
  intros [= <- <-]. auto.
Qed.

Lemma lock_returned self fuel block : forall w w',
  lock self fuel (mutex_on block) w = Returned tt w' ->
  lock_slot w block = UNLOCKED /\ lock_slot w' block = LOCKED.
Proof.
  induction fuel as [|fuel IH]; intros w w'; cbn [lock]; [discriminate|].
  unfold bind at 1.
  destruct (tryGetLock_cases w block) as [(Hv & Hs & ->) | [(_ & _ & ->) | [e ->]]];
    try discriminate.
  - unfold ret. intros [= <-]. split; [exact Hs|].
    rewrite lock_slot_write; [reflexivity|].
    revert Hv. unfold Atomics.validate.
    destruct (Nat.ltb_spec 0 (view_length w (View Int32 block))); [auto | discriminate].
  - unfold bind.
    destruct (waitIfLocked_cases self w block) as [(_ & _ & ->) | [(_ & _ & ->) | [e ->]]];
      try discriminate.
    apply IH.
Qed.

Lemma lock_free self fuel block w :
  usable_buffer w block -> lock_slot w block = UNLOCKED ->
  lock self (S fuel) (mutex_on block) w
  = Returned tt (write_raw w (View Int32 block) 0 (ToUint32 LOCKED)).
Proof.
  intros Hw Hs. cbn [lock]. unfold bind.
  destruct (tryGetLock_cases w block) as [(_ & _ & ->) | [(_ & H & _) | [e He]]].
  - reflexivity.
  - contradiction.
  - exact (False_ind _ (tryGetLock_does_not_throw w block e Hw He)).
Qed.

Lemma lock_taken self fuel block w :
  usable_buffer w block -> lock_slot w block = LOCKED ->
  lock self (S fuel) (mutex_on block) w
  = Suspended (set_waiters (waiters w ++ [Waiter block 0 self]) w).
Proof.
  intros Hw Hs. cbn [lock]. unfold bind at 1.
  destruct (tryGetLock_cases w block) as [(_ & H & _) | [(_ & _ & ->) | [e He]]].
  - rewrite Hs in H. discriminate.
  - unfold bind.
    destruct (waitIfLocked_cases self w block) as [(_ & _ & ->) | [(_ & H & _) | [e He]]].
    + reflexivity.
    + contradiction.
    + exact (False_ind _ (waitIfLocked_does_not_throw self w block e Hw He)).
  - exact (False_ind _ (tryGetLock_does_not_throw w block e Hw He)).
Qed.

Lemma wait_not_locked self block w :
  usable_buffer w block -> lock_slot w block <> LOCKED ->
  lock_step self (mutex_on block) AtWaitIfLocked w = Some (AtTryGetLock, w).
Proof.
  intros Hw Hs. cbn [lock_step].
  destruct (waitIfLocked_cases self w block) as [(_ & H & _) | [(_ & _ & ->) | [e He]]].
  - contradiction.
  - reflexivity.
  - exact (False_ind _ (waitIfLocked_does_not_throw self w block e Hw He)).
Qed.

Lemma lock_run_returned self block pc0 w0 w :
  lock_run self (mutex_on block) pc0 w0 LockReturned w ->
  pc0 <> LockReturned ->
  exists w1 w2,
    lock_run self (mutex_on block) pc0 w0 AtTryGetLock w1 /\
    lock_step self (mutex_on block) AtTryGetLock w1 = Some (LockReturned, w2) /\
    lock_slot w1 block = UNLOCKED /\ lock_slot w2 block = LOCKED.
Proof.
  intros Hrun. remember LockReturned as pc eqn:Hpc.
  induction Hrun as [pc w | pc w pc1 w1 pc2 w2 Hrun IH Hstep | pc w pc1 w1 w2 Hrun IH];
    intros Hne.
  - congruence.
  - subst pc2.
    destruct (lock_step_returns self block pc1 w1 w2 Hstep) as (-> & Hu & Hl & _).
    exists w1, w2. auto.
  - apply IH; assumption.
Qed.

Lemma try_at_free self block w :
  usable_buffer w block -> lock_slot w block = UNLOCKED ->
  lock_step self (mutex_on block) AtTryGetLock w
  = Some (LockReturned, write_raw w (View Int32 block) 0 (ToUint32 LOCKED)).
Proof.
  intros Hw Hs. cbn [lock_step].
  destruct (tryGetLock_cases w block) as [(_ & _ & ->) | [(_ & H & _) | [e He]]].
  - reflexivity.
  - contradiction.
  - exact (False_ind _ (tryGetLock_does_not_throw w block e Hw He)).
Qed.

Lemma try_at_taken self block w :
  usable_buffer w block -> lock_slot w block <> UNLOCKED ->
  lock_step self (mutex_on block) AtTryGetLock w = Some (AtWaitIfLocked, w).
Proof.
  intros Hw Hs. cbn [lock_step].
  destruct (tryGetLock_cases w block) as [(_ & H & _) | [(_ & _ & ->) | [e He]]].
  - contradiction.
  - reflexivity.
  - exact (False_ind _ (tryGetLock_does_not_throw w block e Hw He)).
Qed.

Lemma wait_at_locked self block w :
  usable_buffer w block -> lock_slot w block = LOCKED ->
  lock_step self (mutex_on block) AtWaitIfLocked w
  = Some (Asleep, set_waiters (waiters w ++ [Waiter block 0 self]) w).
Proof.
  intros Hw Hs. cbn [lock_step].
  destruct (waitIfLocked_cases self w block) as [(_ & _ & ->) | [(_ & H & _) | [e He]]].
  - reflexivity.
  - contradiction.
  - exact (False_ind _ (waitIfLocked_does_not_throw self w block e Hw He)).
Qed.

Lemma asleep_after_wait self block w :
  is_asleep self (mutex_on block) (set_waiters (waiters w ++ [Waiter block 0 self]) w) = true.
Proof.
  unfold is_asleep, mutex_on. cbn [bufferView view_buffer waiters set_waiters].
  rewrite existsb_app. cbn [existsb]. unfold Atomics.waits_on.
  cbn [waiter_block waiter_byteIndex waiter_agent].
  change (4 * LOCATION)%nat with 0%nat. rewrite !Nat.eqb_refl.
  cbn [andb orb]. apply orb_true_r.
Qed.

(** Other agents may do what they like to the slot: an agent asleep does not
    move as long as it is among the waiters. *)
Lemma asleep_stays self block w :
  is_asleep self (mutex_on block) w = true ->
  lock_step self (mutex_on block) Asleep w = None.
Proof. intros H. cbn [lock_step]. rewrite H. reflexivity. Qed.

Lemma woken_retries self block w :
  is_asleep self (mutex_on block) w = false ->
  lock_step self (mutex_on block) Asleep w = Some (AtTryGetLock, w).
Proof. intros H. cbn [lock_step]. rewrite H. reflexivity. Qed.

(** C7 (as amended).  An agent leaves [lock()] only by the step in which its
    own compare-and-swap finds UNLOCKED in the slot and puts LOCKED there:
    every run that has left [lock()], whatever the other agents did between
    its steps, contains that step.  At the head of the loop the agent does
    run the compare-and-swap: from UNLOCKED it leaves with LOCKED in the
    slot, from anything else it goes on to [Atomics.wait].  It falls asleep
    only there and only with LOCKED in the slot, and then it does: it joins
    the end of the waiters; with anything else in the slot it goes straight
    back to the compare-and-swap.  Asleep, it does not move as long as it is
    among the waiters, whatever the slot holds by then; once it is no longer
    among them, for whatever reason, its next step exists and is the
    compare-and-swap again.  Run alone, [lock()] returns only from a slot it
    found UNLOCKED, leaves it LOCKED, does return when the slot is UNLOCKED,
    and is put to sleep when the slot is LOCKED. *)
Theorem lock_returns_only_holding (self : agent) (block : nat) :
  (forall pc w w',
     lock_step self (mutex_on block) pc w = Some (LockReturned, w') ->
     pc = AtTryGetLock /\ lock_slot w block = UNLOCKED /\ lock_slot w' block = LOCKED) /\
  (forall w0 w,
     lock_run self (mutex_on block) AtTryGetLock w0 LockReturned w ->
     exists w1 w2,
       lock_run self (mutex_on block) AtTryGetLock w0 AtTryGetLock w1 /\
       lock_step self (mutex_on block) AtTryGetLock w1 = Some (LockReturned, w2) /\
       lock_slot w1 block = UNLOCKED /\ lock_slot w2 block = LOCKED) /\
  (forall pc w w',
     lock_step self (mutex_on block) pc w = Some (Asleep, w') ->
     pc = AtWaitIfLocked /\ lock_slot w block = LOCKED) /\
  (forall w,
     usable_buffer w block -> lock_slot w block <> LOCKED ->
     lock_step self (mutex_on block) AtWaitIfLocked w = Some (AtTryGetLock, w)) /\
  (forall w pc' w',
     lock_step self (mutex_on block) Asleep w = Some (pc', w') ->
     pc' = AtTryGetLock /\ w' = w) /\
  (forall fuel w w',
     lock self fuel (mutex_on block) w = Returned tt w' ->
     lock_slot w block = UNLOCKED /\ lock_slot w' block = LOCKED) /\
  (forall fuel w,
     usable_buffer w block -> lock_slot w block = UNLOCKED ->
     exists w', lock self (S fuel) (mutex_on block) w = Returned tt w'
                /\ lock_slot w' block = LOCKED) /\
  (forall w,
     usable_buffer w block -> lock_slot w block = UNLOCKED ->
     lock_step self (mutex_on block) AtTryGetLock w
     = Some (LockReturned, write_raw w (View Int32 block) 0 (ToUint32 LOCKED)) /\
     lock_slot (write_raw w (View Int32 block) 0 (ToUint32 LOCKED)) block = LOCKED) /\
  (forall w,
     usable_buffer w block -> lock_slot w block <> UNLOCKED ->
     lock_step self (mutex_on block) AtTryGetLock w = Some (AtWaitIfLocked, w)) /\
  (forall w,
     usable_buffer w block -> lock_slot w block = LOCKED ->
     lock_step self (mutex_on block) AtWaitIfLocked w
     = Some (Asleep, set_waiters (waiters w ++ [Waiter block 0 self]) w) /\
     is_asleep self (mutex_on block)
               (set_waiters (waiters w ++ [Waiter block 0 self]) w) = true /\
     asleep_on (set_waiters (waiters w ++ [Waiter block 0 self]) w) block
     = asleep_on w block ++ [self]) /\
  (forall w,
     is_asleep self (mutex_on block) w = true ->
     lock_step self (mutex_on block) Asleep w = None) /\
  (forall w,
     is_asleep self (mutex_on block) w = false ->
     lock_step self (mutex_on block) Asleep w = Some (AtTryGetLock, w)) /\
  (forall fuel w,
     usable_buffer w block -> lock_slot w block = LOCKED ->
     lock self (S fuel) (mutex_on block) w
     = Suspended (set_waiters (waiters w ++ [Waiter block 0 self]) w)).
Proof.
  split; [|split; [|split; [|split; [|split; [|split; [|split; [|split; [|split;
    [|split; [|split; [|split]]]]]]]]]]].
  - intros pc w w' H. destruct (lock_step_returns self block pc w w' H) as (? & ? & ? & _).
    auto.
  - intros w0 w H. apply (lock_run_returned self block AtTryGetLock w0 w H). discriminate.
  - intros pc w w' H. destruct (lock_step_sleeps self block pc w w' H) as (? & ? & _).
    auto.
  - intros w. apply wait_not_locked.
  - intros w pc' w' H. destruct (lock_step_wakes self block w pc' w' H) as (? & ? & _).
    auto.
  - intros fuel. apply lock_returned.
  - intros fuel w Hw Hs. eexists. split; [apply lock_free; assumption|].
    rewrite lock_slot_write by (apply usable_in_range; exact Hw). reflexivity.
  - intros w Hw Hs. split; [apply try_at_free; assumption|].
    rewrite lock_slot_write by (apply usable_in_range; exact Hw). reflexivity.
  - intros w. apply try_at_taken.
  - intros w Hw Hs. split; [apply wait_at_locked; assumption|].
    split; [apply asleep_after_wait|].
    unfold asleep_on, sleepers. cbn [waiters set_waiters].
    rewrite List.filter_app, map_app. cbn [List.filter].
    unfold Atomics.waits_on at 2. cbn [waiter_block waiter_byteIndex].
    rewrite !Nat.eqb_refl. reflexivity.
  - intros w. apply asleep_stays.
  - intros w. apply woken_retries.
  - intros fuel w. apply lock_taken.
Qed.
(** On the mutex of [main.js]: fresh, agent 0 gets the lock at its first
    step; taken, with agents 5 and 6 asleep, agent 0 finds it taken, goes to
    [Atomics.wait] and falls asleep behind them, and there it stays. *)
Lemma lock_returns_only_holding_witness :
  (exists w', lock 0%nat 1%nat (mutex_on 1) main_world = Returned tt w'
              /\ lock_slot w' 1 = LOCKED) /\
  lock_slot main_world 1 = UNLOCKED /\
  lock_slot locked_world 1 = LOCKED /\
  lock_step 0%nat (mutex_on 1) AtTryGetLock locked_world = Some (AtWaitIfLocked, locked_world) /\
  (let asleep := set_waiters (waiters locked_world ++ [Waiter 1 0 0%nat]) locked_world in
   lock_step 0%nat (mutex_on 1) AtWaitIfLocked locked_world = Some (Asleep, asleep) /\
   asleep_on asleep 1 = asleep_on locked_world 1 ++ [0%nat] /\
   lock_step 0%nat (mutex_on 1) Asleep asleep = None) /\
  lock_step 0%nat (mutex_on 1) Asleep locked_world = Some (AtTryGetLock, locked_world).
Proof.
  assert (U : usable_buffer main_world 1)
    by (split; vm_compute; [discriminate | reflexivity]).
  assert (U' : usable_buffer locked_world 1)
    by (split; vm_compute; [discriminate | reflexivity]).
  assert (L : lock_slot locked_world 1 = LOCKED) by reflexivity.
  assert (L' : lock_slot locked_world 1 <> UNLOCKED) by (rewrite L; discriminate).
  pose proof (lock_returns_only_holding 0%nat 1)
    as (Hreturn & _ & Hsleep & _ & _ & _ & Hfree & _ & Htaken & Hwait & Hstay & Hwoken & _).
  split; [exact (Hfree 0%nat main_world U eq_refl)|].
  split.
  { exact (proj1 (proj2 (Hreturn AtTryGetLock main_world
                           (write_raw main_world (View Int32 1) 0 (ToUint32 LOCKED))
                           eq_refl))). }
  split.
  { exact (proj2 (Hsleep AtWaitIfLocked locked_world
                    (set_waiters (waiters locked_world ++ [Waiter 1 0 0%nat]) locked_world)
                    eq_refl)). }
  split; [exact (Htaken locked_world U' L')|].
  split.
  { cbv zeta. destruct (Hwait locked_world U' L) as (Hstep & Hin & Hqueue).
    split; [exact Hstep|]. split; [exact Hqueue|]. exact (Hstay _ Hin). }
  exact (Hwoken locked_world eq_refl).
Defined.

(** C7 as stated fails in its clause "it blocks only while the slot holds
    LOCKED": an agent asleep in [Atomics.wait] stays blocked until it is
    notified, and [unlock()] stores UNLOCKED before it notifies.  On the
    buffers of [main.js]: agent 0 takes the lock, agent 5 finds it taken and
    falls asleep, the compare-and-swap of [unlock()] runs; the slot now
    holds UNLOCKED and agent 5 cannot move. *)
Lemma sleeper_is_blocked_with_the_slot_unlocked :
  let m := mutex_on 1 in
  let w1 := write_raw main_world (View Int32 1) 0 (ToUint32 LOCKED) in
  let w2 := set_waiters (waiters w1 ++ [Waiter 1 0 5%nat]) w1 in
  let w3 := write_raw w2 (View Int32 1) 0 (ToUint32 UNLOCKED) in
  lock 0%nat 1%nat m main_world = Returned tt w1 /\
  lock_step 5%nat m AtTryGetLock w1 = Some (AtWaitIfLocked, w1) /\
  lock_step 5%nat m AtWaitIfLocked w1 = Some (Asleep, w2) /\
  tryUnlock m w2 = Returned true w3 /\
  lock_slot w3 1 = UNLOCKED /\
  is_asleep 5%nat m w3 = true /\
  lock_step 5%nat m Asleep w3 = None.
Proof.
  cbv zeta.
  assert (U : usable_buffer main_world 1)
    by (split; vm_compute; [discriminate | reflexivity]).
  pose proof (usable_in_range main_world 1 Int32 U) as R.
  set (w1 := write_raw main_world (View Int32 1) 0 (ToUint32 LOCKED)).
  assert (U1 : usable_buffer w1 1) by (apply usable_write; assumption).
  assert (L1 : lock_slot w1 1 = LOCKED)
    by (unfold w1; rewrite lock_slot_write by exact R; reflexivity).
  set (w2 := set_waiters (waiters w1 ++ [Waiter 1 0 5%nat]) w1).
  assert (U2 : usable_buffer w2 1) by exact U1.
  assert (L2 : lock_slot w2 1 = LOCKED) by exact L1.
  pose proof (usable_in_range w2 1 Int32 U2) as R2.
  split; [apply lock_free; [exact U | reflexivity]|].
  split; [apply try_at_taken; [exact U1 | rewrite L1; discriminate]|].
  split; [apply wait_at_locked; assumption|].
  split.
  { destruct (tryUnlock_cases w2 1) as [(_ & _ & H) | [(_ & H & _) | [e He]]].
    - exact H.
    - contradiction.
    - exact (False_ind _ (tryUnlock_does_not_throw w2 1 e U2 He)). }
  split; [rewrite lock_slot_write by exact R2; reflexivity|].
  assert (A : is_asleep 5%nat (mutex_on 1)
                (write_raw w2 (View Int32 1) 0 (ToUint32 UNLOCKED)) = true)
    by apply (asleep_after_wait 5%nat 1 w1).
  split; [exact A | apply asleep_stays; exact A].
Qed.
End Lock.

(** ** The guarded counter, run alone *)

Section Guarded.
Import Mutex.
Implicit Types (w : world) (cb mb : nat).

Lemma ends_in_bind {A B} (P : world -> Prop) (m : M A) (k : A -> M B) w :
  ends_in P (m w) -> (forall a w', P w' -> ends_in P (k a w')) -> ends_in P (bind m k w).
Proof.
  unfold bind. destruct (m w); cbn [ends_in]; auto.
Qed.

Lemma tryGetLock_keeps mb w :
  lock_slot_is_0_or_1 mb w -> ends_in (lock_slot_is_0_or_1 mb) (tryGetLock (mutex_on mb) w).
Proof.
  intros H.
  destruct (tryGetLock_cases w mb) as [(Hv & _ & ->) | [(_ & _ & ->) | [e ->]]];
    cbn [ends_in]; try exact H.
  right. rewrite lock_slot_write; [reflexivity|].
  revert Hv. unfold Atomics.validate.
  destruct (Nat.ltb_spec 0 (view_length w (View Int32 mb))); [auto | discriminate].
Qed.

Lemma tryUnlock_keeps mb w :
  lock_slot_is_0_or_1 mb w -> ends_in (lock_slot_is_0_or_1 mb) (tryUnlock (mutex_on mb) w).
Proof.
  intros H.
  destruct (tryUnlock_cases w mb) as [(Hv & _ & ->) | [(_ & _ & ->) | [e ->]]];
    cbn [ends_in]; try exact H.
  left. rewrite lock_slot_write; [reflexivity|].
  revert Hv. unfold Atomics.validate.
  destruct (Nat.ltb_spec 0 (view_length w (View Int32 mb))); [auto | discriminate].
Qed.

Lemma waitIfLocked_keeps self mb w :
  lock_slot_is_0_or_1 mb w ->
  ends_in (lock_slot_is_0_or_1 mb) (waitIfLocked self (mutex_on mb) w).
Proof.
  intros H.
  destruct (waitIfLocked_cases self w mb) as [(_ & _ & ->) | [(_ & _ & ->) | [e ->]]];
    cbn [ends_in]; exact H.
Qed.

Lemma notifyAgents_keeps mb w :
  lock_slot_is_0_or_1 mb w -> ends_in (lock_slot_is_0_or_1 mb) (notifyAgents (mutex_on mb) w).
Proof.
  intros H.
  destruct (notifyAgents_cases w mb) as [(_ & w' & -> & Hh & _) | [e ->]];
    cbn [ends_in]; [|exact H].
  unfold lock_slot_is_0_or_1. rewrite (lock_slot_heap w w' mb Hh). exact H.
Qed.

Lemma lock_keeps self fuel mb : forall w,
  lock_slot_is_0_or_1 mb w -> ends_in (lock_slot_is_0_or_1 mb) (lock self fuel (mutex_on mb) w).
Proof.
  induction fuel as [|fuel IH]; intros w H; cbn [lock]; [exact I|].
  apply ends_in_bind; [apply tryGetLock_keeps; exact H|].
  intros [] w' H'; [exact H'|].
  apply ends_in_bind; [apply waitIfLocked_keeps; exact H'|].
  intros _ w'' H''. apply IH. exact H''.
Qed.

Lemma unlock_keeps mb w :
  lock_slot_is_0_or_1 mb w -> ends_in (lock_slot_is_0_or_1 mb) (unlock (mutex_on mb) w).
Proof.
  intros H. unfold unlock.
  apply ends_in_bind; [apply tryUnlock_keeps; exact H|].
  intros [] w' H'; [apply notifyAgents_keeps; exact H' | exact H'].
Qed.

Lemma add_assign_keeps cb mb n w :
  cb <> mb -> lock_slot_is_0_or_1 mb w ->
  ends_in (lock_slot_is_0_or_1 mb) (add_assign_element (View Uint32 cb) 0 n w).
Proof.
  intros Hne H. unfold add_assign_element, set_element.
  destruct (get_element (View Uint32 cb) 0 w); cbn [ends_in]; [|exact H].
  destruct (0 <? view_length w (View Uint32 cb))%nat; [|exact H].
  unfold lock_slot_is_0_or_1.
  rewrite (proj1 (slot_write_other w mb cb Uint32 0 _ (not_eq_sym Hne))). exact H.
Qed.

Lemma Counter3_value_keeps self fuel cb mb w :
  cb <> mb -> lock_slot_is_0_or_1 mb w ->
  ends_in (lock_slot_is_0_or_1 mb) (CounterExample3.value self fuel (counter3_on cb mb) w).
Proof.
  intros Hne H. unfold CounterExample3.value. cbn [CounterExample3.mutex counter3_on].
  apply ends_in_bind; [apply lock_keeps; exact H|]. intros _ w1 H1.
  apply ends_in_bind; [exact H1|]. intros v w2 H2.
  apply ends_in_bind; [apply unlock_keeps; exact H2|]. intros _ w3 H3. exact H3.
Qed.

Lemma Counter3_increment_keeps self fuel cb mb d w :
  cb <> mb -> lock_slot_is_0_or_1 mb w ->
  ends_in (lock_slot_is_0_or_1 mb)
          (CounterExample3.increment self fuel (counter3_on cb mb) d w).
Proof.
  intros Hne H. unfold CounterExample3.increment.
  cbn [CounterExample3.mutex CounterExample3.bufferView counter3_on].
  apply ends_in_bind; [apply lock_keeps; exact H|]. intros _ w1 H1.
  apply ends_in_bind; [apply add_assign_keeps; assumption|]. intros _ w2 H2.
  apply unlock_keeps; exact H2.
Qed.

(** One guarded update, run alone with the lock free. *)
Lemma Counter3_increment_free self fuel cb mb d w :
  cb <> mb -> usable_buffer w cb -> usable_buffer w mb -> lock_slot w mb = UNLOCKED ->
  exists w',
    CounterExample3.increment self (S fuel) (counter3_on cb mb) d w = Returned tt w' /\
    lock_slot w' mb = UNLOCKED /\
    counter_slot w' cb = ToUint32 (number_add (counter_slot w cb) (default 1 d)).
Proof.
  intros Hne Hcb Hmb Hfree. unfold CounterExample3.increment.
  cbn [CounterExample3.mutex CounterExample3.bufferView counter3_on].
  unfold bind at 1. rewrite lock_free by assumption.
  set (w1 := write_raw w (View Int32 mb) 0 (ToUint32 LOCKED)).
  pose proof (usable_in_range w mb Int32 Hmb) as Hrm.
  assert (Hcb1 : usable_buffer w1 cb) by (apply usable_write; assumption).
  assert (Hmb1 : usable_buffer w1 mb) by (apply usable_write; assumption).
  assert (Hc1 : counter_slot w1 cb = counter_slot w cb)
    by apply (slot_write_other w cb mb Int32 0 _ Hne).
  assert (Hl1 : lock_slot w1 mb = LOCKED)
    by (unfold w1; rewrite lock_slot_write by exact Hrm; reflexivity).
  unfold bind at 1. unfold add_assign_element, CounterExample3.LOCATION.
  rewrite get_counter_slot by exact Hcb1. unfold set_element.
  pose proof (usable_in_range w1 cb Uint32 Hcb1) as Hrc.
  destruct (Nat.ltb_spec 0 (view_length w1 (View Uint32 cb))) as [_|]; [|lia].
  rewrite Hc1.
  set (n := ToUint32 (number_add (counter_slot w cb) (default 1 d))).
  set (w2 := write_raw w1 (View Uint32 cb) 0 n).
  assert (Hmb2 : usable_buffer w2 mb) by (apply usable_write; assumption).
  assert (Hl2 : lock_slot w2 mb = LOCKED).
  { unfold w2. rewrite (proj1 (slot_write_other w1 mb cb Uint32 0 n (not_eq_sym Hne))).
    exact Hl1. }
  destruct (unlock_held w2 mb Hmb2 Hl2) as (w' & Hu & Hh & _ & _ & Hl & _).
  exists w'. split; [exact Hu|]. split; [exact Hl|].
  rewrite (counter_slot_heap _ w' cb Hh).
  rewrite (proj2 (slot_write_other w2 cb mb Int32 0 _ Hne)).
  unfold w2. rewrite counter_slot_write by exact Hcb1.
  unfold n, ToUint32. apply Z.mod_mod. lia.
Qed.

Lemma Counter3_value_free self fuel cb mb w :
  cb <> mb -> usable_buffer w cb -> usable_buffer w mb -> lock_slot w mb = UNLOCKED ->
  exists w',
    CounterExample3.value self (S fuel) (counter3_on cb mb) w
    = Returned (VNumber (counter_slot w cb)) w' /\
    lock_slot w' mb = UNLOCKED /\
    counter_slot w' cb = counter_slot w cb.
Proof.
  intros Hne Hcb Hmb Hfree. unfold CounterExample3.value.
  cbn [CounterExample3.mutex CounterExample3.bufferView counter3_on].
  unfold bind at 1. rewrite lock_free by assumption.
  set (w1 := write_raw w (View Int32 mb) 0 (ToUint32 LOCKED)).
  pose proof (usable_in_range w mb Int32 Hmb) as Hrm.
  assert (Hcb1 : usable_buffer w1 cb) by (apply usable_write; assumption).
  assert (Hmb1 : usable_buffer w1 mb) by (apply usable_write; assumption).
  assert (Hc1 : counter_slot w1 cb = counter_slot w cb)
    by apply (slot_write_other w cb mb Int32 0 _ Hne).
  assert (Hl1 : lock_slot w1 mb = LOCKED)
    by (unfold w1; rewrite lock_slot_write by exact Hrm; reflexivity).
  unfold bind at 1. unfold CounterExample3.LOCATION.
  rewrite get_counter_slot by exact Hcb1. rewrite Hc1.
  destruct (unlock_held w1 mb Hmb1 Hl1) as (w' & Hu & Hh & _ & _ & Hl & _).
  exists w'. unfold bind. rewrite Hu. split; [reflexivity|]. split; [exact Hl|].
  rewrite (counter_slot_heap _ w' cb Hh).
  rewrite (proj2 (slot_write_other w1 cb mb Int32 0 _ Hne)). exact Hc1.
Qed.

(** C9 (as amended).  A guarded counter whose counter buffer and mutex buffer
    are two distinct usable buffers, run alone from a free lock: [value],
    [increment] and [decrement] each take the lock, do their plain read or
    read-modify-write on the counter slot, and return with UNLOCKED in the
    lock slot.  From a lock slot holding 0 or 1, every step and every
    operation of the mutex and of such a counter, however it ends, leaves 0
    or 1 in the lock slot. *)
Theorem guarded_counter_run_alone (self : agent) (fuel : nat) (cb mb : nat)
        (d : option Z) (n : Z) (w : world) :
  cb <> mb ->
  (usable_buffer w cb -> usable_buffer w mb -> lock_slot w mb = UNLOCKED ->
     (exists w',
        CounterExample3.value self (S fuel) (counter3_on cb mb) w
        = Returned (VNumber (counter_slot w cb)) w' /\
        lock_slot w' mb = UNLOCKED /\ counter_slot w' cb = counter_slot w cb) /\
     (exists w',
        CounterExample3.increment self (S fuel) (counter3_on cb mb) d w = Returned tt w' /\
        lock_slot w' mb = UNLOCKED /\
        counter_slot w' cb = ToUint32 (number_add (counter_slot w cb) (default 1 d))) /\
     (exists w',
        CounterExample3.decrement self (S fuel) (counter3_on cb mb) d w = Returned tt w' /\
        lock_slot w' mb = UNLOCKED /\
        counter_slot w' cb = ToUint32 (number_add (counter_slot w cb) (- default 1 d)))) /\
  (lock_slot_is_0_or_1 mb w ->
     ends_in (lock_slot_is_0_or_1 mb) (tryGetLock (mutex_on mb) w) /\
     ends_in (lock_slot_is_0_or_1 mb) (waitIfLocked self (mutex_on mb) w) /\
     ends_in (lock_slot_is_0_or_1 mb) (tryUnlock (mutex_on mb) w) /\
     ends_in (lock_slot_is_0_or_1 mb) (notifyAgents (mutex_on mb) w) /\
     ends_in (lock_slot_is_0_or_1 mb) (lock self fuel (mutex_on mb) w) /\
     ends_in (lock_slot_is_0_or_1 mb) (unlock (mutex_on mb) w) /\
     ends_in (lock_slot_is_0_or_1 mb) (add_assign_element (View Uint32 cb) 0 n w) /\
     ends_in (lock_slot_is_0_or_1 mb)
             (CounterExample3.value self fuel (counter3_on cb mb) w) /\
     ends_in (lock_slot_is_0_or_1 mb)
             (CounterExample3.increment self fuel (counter3_on cb mb) d w) /\
     ends_in (lock_slot_is_0_or_1 mb)
             (CounterExample3.decrement self fuel (counter3_on cb mb) d w)).
Proof.
  intros Hne. split.
  - intros Hcb Hmb Hfree. split; [|split].
    + apply Counter3_value_free; assumption.
    + apply Counter3_increment_free; assumption.
    + apply (Counter3_increment_free self fuel cb mb (Some (- default 1 d)) w); assumption.
  - intros H. repeat split.
    + apply tryGetLock_keeps; exact H.
    + apply waitIfLocked_keeps; exact H.
    + apply tryUnlock_keeps; exact H.
    + apply notifyAgents_keeps; exact H.
    + apply lock_keeps; exact H.
    + apply unlock_keeps; exact H.
    + apply add_assign_keeps; assumption.
    + apply Counter3_value_keeps; assumption.
    + apply Counter3_increment_keeps; assumption.
    + apply (Counter3_increment_keeps self fuel cb mb (Some (- default 1 d)) w); assumption.
Qed.

(** On the buffers of [main.js], the first guarded increment leaves 1 in the
    counter and the lock free; a stray [unlock()] there throws and leaves the
    lock slot at 0. *)
Lemma guarded_counter_run_alone_witness :
  (exists w',
     CounterExample3.increment 0%nat 1%nat (counter3_on 0 1) None main_world
     = Returned tt w' /\
     lock_slot w' 1 = UNLOCKED /\ counter_slot w' 0 = 1) /\
  ends_in (lock_slot_is_0_or_1 1) (unlock (mutex_on 1) main_world).
Proof.
  assert (U0 : usable_buffer main_world 0)
    by (split; vm_compute; [discriminate | reflexivity]).
  assert (U1 : usable_buffer main_world 1)
    by (split; vm_compute; [discriminate | reflexivity]).
  assert (Hne : 0%nat <> 1%nat) by discriminate.
  assert (H01 : lock_slot_is_0_or_1 1 main_world) by (left; reflexivity).
  pose proof (guarded_counter_run_alone 0%nat 0%nat 0 1 None 1 main_world Hne)
    as [Hops Hkeeps].
  split.
  - destruct (proj1 (proj2 (Hops U0 U1 eq_refl))) as (w' & Hrun & Hlock & Hcount).
    exists w'. split; [exact Hrun|]. split; [exact Hlock|].
    rewrite Hcount. vm_compute. reflexivity.
  - exact (proj1 (proj2 (proj2 (proj2 (proj2 (proj2 (Hkeeps H01))))))).
Defined.

(** C9 as stated fails when one buffer serves as counter buffer and as mutex
    buffer, which the constructor accepts: the lock slot is then the counter
    slot, the increment turns LOCKED (1) into 2, and [unlock()] throws,
    leaving 2 in the lock slot. *)
Lemma guarded_counter_over_one_buffer :
  let w := world_with [fresh 4] in
  CounterExample3.constructor (VSharedArrayBuffer 0) (VSharedArrayBuffer 0) w
    = Returned (counter3_on 0 0) w /\
  lock_slot w 0 = UNLOCKED /\
  exists w',
    CounterExample3.increment 0%nat 1%nat (counter3_on 0 0) None w = Thrown NotHeld w' /\
    lock_slot w' 0 = 2.
Proof.
  cbv zeta. split; [reflexivity|]. split; [reflexivity|].
  exists (write_raw (write_raw (world_with [fresh 4]) (View Int32 0) 0 1) (View Uint32 0) 0 2).
  split; vm_compute; reflexivity.
Qed.
End Guarded.

(** ** Wrap-around *)

Section Wrap.
Import Mutex.
Implicit Types (w : world) (cb mb : nat) (d : Z).

(** C5 (as amended).  The counter slot always holds an unsigned 32-bit
    integer, and [decrement(d)] wraps modulo 2^32 instead of failing: from a
    slot holding [c] it returns with [(c - d) mod 2^32] in the slot.  For the
    counter of example 2 this holds for every integer [d]; for example 1, for
    every integer [d] of absolute value at most 2^53 - 2^32, where [c + (-d)]
    is added exactly; for example 3, for the same [d], when its two buffers
    are distinct and the call runs alone from a free lock. *)
Theorem decrement_wraps (w : world) (cb : nat) (d : Z) :
  usable_buffer w cb ->
  0 <= counter_slot w cb < 2 ^ 32 /\
  (exact_delta d ->
     exists w',
       CounterExample1.decrement (counter1_on cb) (Some d) w = Returned tt w' /\
       counter_slot w' cb = (counter_slot w cb - d) mod 2 ^ 32) /\
  (exists w',
     CounterExample2.decrement (counter2_on cb) (Some d) w = Returned tt w' /\
     counter_slot w' cb = (counter_slot w cb - d) mod 2 ^ 32) /\
  (forall (self : agent) (fuel : nat) (mb : nat),
     exact_delta d -> cb <> mb -> usable_buffer w mb -> lock_slot w mb = UNLOCKED ->
     exists w',
       CounterExample3.decrement self (S fuel) (counter3_on cb mb) (Some d) w
       = Returned tt w' /\
       counter_slot w' cb = (counter_slot w cb - d) mod 2 ^ 32).
Proof.
  intros Hw. pose proof (counter_slot_range w cb) as Hrange.
  assert (Hexact : exact_delta d ->
                   number_add (counter_slot w cb) (- d) = counter_slot w cb - d).
  { intros Hd. apply number_add_exact. unfold exact_delta in Hd. lia. }
  split; [exact Hrange|]. split; [|split].
  - intros Hd. eexists. split.
    + apply (Counter1_increment_exact w cb (- d) Hw).
      unfold exact_delta in *. lia.
    + rewrite counter_slot_write by exact Hw. rewrite Z.mod_mod by lia. reflexivity.
  - eexists. split.
    + apply (Counter2_decrement_usable w cb (Some d) Hw).
    + rewrite counter_slot_write by exact Hw. rewrite Z.mod_mod by lia. reflexivity.
  - intros self fuel mb Hd Hne Hmb Hfree.
    destruct (Counter3_increment_free self fuel cb mb (Some (- d)) w Hne Hw Hmb Hfree)
      as (w' & Hrun & _ & Hcount).
    exists w'. split; [exact Hrun|].
    rewrite Hcount. change (default 1 (Some (- d))) with (- d).
    rewrite (Hexact Hd). reflexivity.
Qed.

(** Decrementing the fresh counter of [main.js] by 1 wraps to 2^32 - 1, with
    each of the three counters. *)
Lemma decrement_wraps_witness :
  (exists w', CounterExample1.decrement (counter1_on 0) (Some 1) main_world = Returned tt w'
              /\ counter_slot w' 0 = 4294967295) /\
  (exists w', CounterExample2.decrement (counter2_on 0) (Some 1) main_world = Returned tt w'
              /\ counter_slot w' 0 = 4294967295) /\
  (exists w', CounterExample3.decrement 0%nat 1%nat (counter3_on 0 1) (Some 1) main_world
              = Returned tt w'
              /\ counter_slot w' 0 = 4294967295).
Proof.
  assert (U0 : usable_buffer main_world 0)
    by (split; vm_compute; [discriminate | reflexivity]).
  assert (U1 : usable_buffer main_world 1)
    by (split; vm_compute; [discriminate | reflexivity]).
  assert (E : exact_delta 1) by (vm_compute; discriminate).
  assert (Hne : 0%nat <> 1%nat) by discriminate.
  pose proof (decrement_wraps main_world 0 1 U0) as (_ & H1 & H2 & H3).
  split; [|split].
  - destruct (H1 E) as (w' & Hrun & Hcount). exists w'. split; [exact Hrun|].
    rewrite Hcount. reflexivity.
  - destruct H2 as (w' & Hrun & Hcount). exists w'. split; [exact Hrun|].
    rewrite Hcount. reflexivity.
  - destruct (H3 0%nat 0%nat 1%nat E Hne U1 eq_refl) as (w' & Hrun & Hcount).
    exists w'. split; [exact Hrun|]. rewrite Hcount. reflexivity.
Defined.

(** C5 as stated fails in two ways.  With the counter of example 1 at 1,
    [decrement(2^53 + 2)] adds 1 and -(2^53 + 2) as Numbers; the sum is
    rounded to -2^53, and 0 is stored where [(1 - (2^53 + 2)) mod 2^32] is
    2^32 - 1.  And a guarded counter built over one buffer for both uses,
    decremented by 1 from 0, stores 0 over the lock and throws. *)
Lemma decrement_does_not_always_wrap :
  let w1 := world_with [[Byte.x01; Byte.x00; Byte.x00; Byte.x00]] in
  let w3 := world_with [fresh 4] in
  (counter_slot w1 0 = 1 /\
   (1 - (2 ^ 53 + 2)) mod 2 ^ 32 = 4294967295 /\
   exists w',
     CounterExample1.decrement (counter1_on 0) (Some (2 ^ 53 + 2)) w1 = Returned tt w' /\
     counter_slot w' 0 = 0) /\
  (counter_slot w3 0 = 0 /\
   (0 - 1) mod 2 ^ 32 = 4294967295 /\
   CounterExample3.constructor (VSharedArrayBuffer 0) (VSharedArrayBuffer 0) w3
     = Returned (counter3_on 0 0) w3 /\
   exists w',
     CounterExample3.decrement 0%nat 1%nat (counter3_on 0 0) (Some 1) w3
     = Thrown NotHeld w' /\
     counter_slot w' 0 = 0).
Proof.
  cbv zeta. split.
  - split; [reflexivity|]. split; [reflexivity|].
    exists (write_raw (world_with [[Byte.x01; Byte.x00; Byte.x00; Byte.x00]])
                      (View Uint32 0) 0 0).
    split; vm_compute; reflexivity.
  - split; [reflexivity|]. split; [reflexivity|]. split; [reflexivity|].
    exists (write_raw (write_raw (world_with [fresh 4]) (View Int32 0) 0 1)
                      (View Uint32 0) 0 0).
    split; vm_compute; reflexivity.
Qed.
End Wrap.

(** ** Workers side by side *)

Section Interleaving.
Import Workers.
Implicit Types (w : world) (block : nat) (agents : list counting).

Lemma remaining_cons a agents : remaining (a :: agents) = numUpdates a + remaining agents.
Proof. reflexivity. Qed.

Lemma remaining_insert agents i a a' :
  agents !! i = Some a ->
  remaining (<[i := a']> agents) = remaining agents - numUpdates a + numUpdates a'.
Proof.
  revert i. induction agents as [|x rest IH]; intros i H; [discriminate|].
  destruct i as [|i].
  - injection H as ->. change (<[0%nat := a']> (a :: rest)) with (a' :: rest).
    rewrite !remaining_cons. lia.
  - change (<[S i := a']> (x :: rest)) with (x :: <[i := a']> rest).
    change ((x :: rest) !! S i) with (rest !! i) in H.
    rewrite !remaining_cons, (IH i H). lia.
Qed.

Lemma remaining_start block N K : remaining (start block N K) = Z.of_nat N * K.
Proof.
  unfold start. induction N as [|N IH]; [reflexivity|].
  cbn [repeat]. rewrite remaining_cons, IH. cbn [numUpdates]. lia.
Qed.

Lemma counting_step_turn block a w :
  usable_buffer w block -> counter a = counter2_on block -> 0 < numUpdates a ->
  counting_step a w
  = Some ({| counter := counter a; numUpdates := numUpdates a - 1 |},
          write_raw w (View Uint32 block) 0 ((counter_slot w block + 1) mod 2 ^ 32)).
Proof.
  intros Hw Hc Hn. unfold counting_step.
  destruct (Z.ltb_spec 0 (numUpdates a)); [|lia].
  rewrite Hc. rewrite (Counter2_increment_usable w block None Hw). reflexivity.
Qed.

Lemma counting_step_owes a w a' w' :
  counting_step a w = Some (a', w') -> 0 < numUpdates a.
Proof.
  unfold counting_step. destruct (Z.ltb_spec 0 (numUpdates a)); [auto | discriminate].
Qed.

Lemma step_turn block agents w agents' w' :
  well_formed block (agents, w) ->
  step (agents, w) (agents', w') ->
  well_formed block (agents', w') /\
  remaining agents' = remaining agents - 1 /\
  counter_slot w' block = (counter_slot w block + 1) mod 2 ^ 32.
Proof.
  intros [Hw Hall] Hstep. cbn [fst snd] in *.
  inversion Hstep as [i a a' ? ? ? Hi Ha]; subst.
  pose proof (counting_step_owes _ _ _ _ Ha) as Hpos.
  pose proof (proj1 (Forall_lookup _ _) Hall i a Hi) as [Hc _].
  rewrite (counting_step_turn block a w Hw Hc Hpos) in Ha.
  injection Ha as <- <-.
  split; [split|split]; cbn [fst snd].
  - apply usable_write; [apply usable_in_range|]; exact Hw.
  - apply Forall_insert; [exact Hall|]. cbn [counter numUpdates]. split; [exact Hc | lia].
  - rewrite (remaining_insert agents i a _ Hi). cbn [numUpdates]. lia.
  - rewrite counter_slot_write by exact Hw. apply Z.mod_mod. lia.
Qed.

(** What the turns taken so far and the turns still owed add up to. *)
Lemma steps_account block n : forall s s',
  well_formed block s -> nsteps step n s s' ->
  well_formed block s' /\
  remaining (fst s') = remaining (fst s) - Z.of_nat n /\
  counter_slot (snd s') block = (counter_slot (snd s) block + Z.of_nat n) mod 2 ^ 32.
Proof.
  induction n as [|n IH]; intros s s' Hs Hrun.
  - inversion Hrun; subst. split; [exact Hs|]. split; [lia|].
    rewrite Z.add_0_r. symmetry. apply Z.mod_small. apply counter_slot_range.
  - inversion Hrun as [|? ? s1 ? H1 Hrest]; subst.
    destruct s as [agents w], s1 as [agents1 w1].
    destruct (step_turn block agents w agents1 w1 Hs H1) as (Hs1 & Hr1 & Hc1).
    destruct (IH (agents1, w1) s' Hs1 Hrest) as (Hs' & Hr' & Hc').
    split; [exact Hs'|]. cbn [fst snd] in *. split; [lia|].
    rewrite Hc', Hc1. rewrite Zplus_mod_idemp_l. f_equal. lia.
Qed.

Lemma remaining_nonneg block agents w :
  well_formed block (agents, w) -> 0 <= remaining agents.
Proof.
  intros [_ Hall]. cbn [fst] in Hall.
  induction Hall as [|a rest [_ Ha] _ IH]; [cbn; lia|].
  rewrite remaining_cons. lia.
Qed.

Lemma finished_remaining block agents w :
  well_formed block (agents, w) -> Forall finished agents -> remaining agents = 0.
Proof.
  intros [_ Hall] Hfin. cbn [fst] in Hall.
  induction Hall as [|a rest [_ Ha] _ IH]; [reflexivity|].
  inversion Hfin as [|? ? Hf Hrest]; subst. unfold finished in Hf.
  rewrite remaining_cons, (IH Hrest). lia.
Qed.

(** While some worker is not finished, some worker can take a turn. *)
Lemma unfinished_steps block agents w :
  well_formed block (agents, w) -> ~ Forall finished agents ->
  exists s', step (agents, w) s'.
Proof.
  intros [Hw Hall] Hnot. cbn [fst snd] in *.
  apply not_Forall_Exists in Hnot; [|intros a; unfold finished; apply Z_le_dec].
  apply Exists_exists in Hnot as (a & Hin & Ha).
  apply (proj1 (list_elem_of_lookup _ _)) in Hin as [i Hi].
  pose proof (proj1 (Forall_lookup _ _) Hall i a Hi) as [Hc _].
  unfold finished, compose in Ha. cbv beta in Ha.
  eexists. eapply step_worker; [exact Hi|].
  apply (counting_step_turn block a w Hw Hc). lia.
Qed.

Lemma remaining_zero_finished block agents w :
  well_formed block (agents, w) -> remaining agents = 0 -> Forall finished agents.
Proof.
  intros [_ Hall]. cbn [fst] in Hall.
  induction Hall as [|a rest [_ Ha] Hrest IH]; intros H0; [constructor|].
  rewrite remaining_cons in H0.
  assert (0 <= remaining rest).
  { clear -Hrest. induction Hrest as [|b l [_ Hb] _ IHl]; [cbn; lia|].
    rewrite remaining_cons. lia. }
  constructor; [unfold finished; lia | apply IH; lia].
Qed.

(** The workers can always be run to completion, in as many turns as they
    owe updates. *)
Lemma complete_run_exists block (k : nat) : forall s,
  well_formed block s -> remaining (fst s) = Z.of_nat k ->
  exists s', nsteps step k s s' /\ Forall finished (fst s').
Proof.
  induction k as [|k IH]; intros [agents w] Hs Hrem; cbn [fst] in *.
  - exists (agents, w). split; [constructor|].
    apply (remaining_zero_finished block agents w Hs). lia.
  - assert (Hnot : ~ Forall finished agents).
    { intros Hfin. rewrite (finished_remaining block agents w Hs Hfin) in Hrem. lia. }
    destruct (unfinished_steps block agents w Hs Hnot) as [[agents1 w1] H1].
    destruct (step_turn block agents w agents1 w1 Hs H1) as (Hs1 & Hr1 & _).
    destruct (IH (agents1, w1) Hs1) as (s' & Hrun & Hfin); [cbn [fst]; lia|].
    exists s'. split; [|exact Hfin].
    econstructor; eassumption.
Qed.

Lemma start_well_formed block N K w :
  usable_buffer w block -> 0 <= K -> well_formed block (start block N K, w).
Proof.
  intros Hw HK. split; [exact Hw|]. cbn [fst]. unfold start.
  induction N as [|N IH]; cbn [repeat]; constructor; [|exact IH].
  cbn [counter numUpdates]. split; [reflexivity | exact HK].
Qed.

(** The value read once every worker is finished. *)
Lemma complete_run_value block N K w agents' w' :
  usable_buffer w block -> 0 <= K -> counter_slot w block = 0 ->
  rtc step (start block N K, w) (agents', w') -> Forall finished agents' ->
  CounterExample2.value (counter2_on block) w'
  = Returned (VNumber ((Z.of_nat N * K) mod 2 ^ 32)) w'.
Proof.
  intros Hw HK Hzero Hrun Hfin.
  apply rtc_nsteps in Hrun as [n Hrun].
  destruct (steps_account block n _ _ (start_well_formed block N K w Hw HK) Hrun)
    as (Hs' & Hrem & Hslot).
  cbn [fst snd] in *.
  rewrite (finished_remaining block agents' w' Hs' Hfin), remaining_start in Hrem.
  rewrite Counter2_value_usable by apply Hs'.
  rewrite Hslot, Hzero. do 3 f_equal. lia.
Qed.

(** C10 (as amended).  [N >= 1] workers each make [K >= 1] atomic increments
    on one counter that starts at 0.  Whatever the interleaving, once all of
    them are finished the counter reads [(N * K) mod 2^32], which is [N * K]
    itself when [N * K < 2^32]: no increment is lost.  Every interleaving
    takes as many turns as updates have been made, so [N * K] at most; it can
    be continued as long as a worker is unfinished, and complete runs
    exist. *)
Theorem atomic_increments_are_not_lost (block : nat) (N : nat) (K : Z) (w : world) :
  (1 <= N)%nat -> 1 <= K -> usable_buffer w block -> counter_slot w block = 0 ->
  (forall agents' w',
     rtc step (start block N K, w) (agents', w') -> Forall finished agents' ->
     CounterExample2.value (counter2_on block) w'
     = Returned (VNumber ((Z.of_nat N * K) mod 2 ^ 32)) w' /\
     (Z.of_nat N * K < 2 ^ 32 ->
      CounterExample2.value (counter2_on block) w'
      = Returned (VNumber (Z.of_nat N * K)) w')) /\
  (forall n agents' w',
     nsteps step n (start block N K, w) (agents', w') ->
     remaining agents' = Z.of_nat N * K - Z.of_nat n /\
     Z.of_nat n <= Z.of_nat N * K /\
     (~ Forall finished agents' -> exists s'', step (agents', w') s'')) /\
  (exists agents' w',
     nsteps step (Z.to_nat (Z.of_nat N * K)) (start block N K, w) (agents', w') /\
     Forall finished agents').
Proof.
  intros HN HK Hw Hzero.
  assert (HK0 : 0 <= K) by lia.
  pose proof (start_well_formed block N K w Hw HK0) as Hstart.
  split; [|split].
  - intros agents' w' Hrun Hfin.
    pose proof (complete_run_value block N K w agents' w' Hw HK0 Hzero Hrun Hfin) as Hv.
    split; [exact Hv|]. intros Hsmall. rewrite Hv. do 2 f_equal.
    apply Z.mod_small. lia.
  - intros n agents' w' Hrun.
    destruct (steps_account block n _ _ Hstart Hrun) as (Hs' & Hrem & _).
    cbn [fst snd] in *. rewrite remaining_start in Hrem.
    pose proof (remaining_nonneg block agents' w' Hs').
    split; [exact Hrem|]. split; [lia|].
    apply (unfinished_steps block agents' w' Hs').
  - destruct (complete_run_exists block (Z.to_nat (Z.of_nat N * K)) (start block N K, w) Hstart)
      as ([agents' w'] & Hrun & Hfin).
    + cbn [fst]. rewrite remaining_start. lia.
    + exists agents', w'. auto.
Qed.

(** The scenario of the specification: four workers, 100,000 increments
    each, on the fresh counter of [main.js]. *)
Lemma atomic_increments_are_not_lost_witness :
  exists agents' w',
    rtc step (start 0 4 100000, main_world) (agents', w') /\
    Forall finished agents' /\
    CounterExample2.value (counter2_on 0) w' = Returned (VNumber 400000) w'.
Proof.
  assert (U0 : usable_buffer main_world 0)
    by (split; vm_compute; [discriminate | reflexivity]).
  assert (HN : (1 <= 4)%nat) by lia.
  assert (HK : 1 <= 100000) by lia.
  pose proof (atomic_increments_are_not_lost 0 4 100000 main_world HN HK U0 eq_refl)
    as (Hvalue & _ & agents' & w' & Hrun & Hfin).
  assert (Hrtc : rtc step (start 0 4 100000, main_world) (agents', w'))
    by (apply rtc_nsteps; eexists; exact Hrun).
  exists agents', w'. split; [exact Hrtc|]. split; [exact Hfin|].
  apply (proj2 (Hvalue agents' w' Hrtc Hfin)). reflexivity.
Defined.

(** C10 as stated fails once [N * K] reaches 2^32: a single worker that makes
    2^32 increments from 0 can be run to completion, and every such run ends
    with the counter at 0, not at 2^32. *)
Lemma increments_wrap_at_2_32 :
  (1 <= 1)%nat /\ 1 <= 2 ^ 32 /\ counter_slot main_world 0 = 0 /\
  (exists agents' w',
     rtc step (start 0 1 (2 ^ 32), main_world) (agents', w') /\ Forall finished agents') /\
  (forall agents' w',
     rtc step (start 0 1 (2 ^ 32), main_world) (agents', w') -> Forall finished agents' ->
     CounterExample2.value (counter2_on 0) w' = Returned (VNumber 0) w' /\
     CounterExample2.value (counter2_on 0) w'
     <> Returned (VNumber (Z.of_nat 1 * 2 ^ 32)) w').
Proof.
  assert (U0 : usable_buffer main_world 0)
    by (split; vm_compute; [discriminate | reflexivity]).
  assert (HK : 0 <= 2 ^ 32) by lia.
  split; [lia|]. split; [lia|]. split; [reflexivity|]. split.
  - destruct (complete_run_exists 0 (Z.to_nat (2 ^ 32)) (start 0 1 (2 ^ 32), main_world))
      as ([agents' w'] & Hrun & Hfin).
    + apply start_well_formed; assumption.
    + cbn [fst]. rewrite remaining_start. lia.
    + exists agents', w'. split; [|exact Hfin].
      apply rtc_nsteps. eexists. exact Hrun.
  - intros agents' w' Hrun Hfin.
    pose proof (complete_run_value 0 1 (2 ^ 32) main_world agents' w' U0 HK eq_refl Hrun Hfin)
      as Hv.
    assert (E : (Z.of_nat 1 * 2 ^ 32) mod 2 ^ 32 = 0) by reflexivity.
    rewrite E in Hv. rewrite Hv. split; [reflexivity|]. discriminate.
Qed.
End Interleaving.

(** ** Calls in sequence *)

Section Sequences.
Implicit Types (w : world) (block : nat) (view : TypedArray).

Lemma view_length_write w view i raw view' :
  (i < view_length w view)%nat ->
  view_length (write_raw w view i raw) view' = view_length w view'.
Proof.
  intros H. unfold view_length. rewrite length_write by exact H. reflexivity.
Qed.

Lemma ToUint32_add_add old a b :
  ToUint32 (ToUint32 (old + ToUint32 a) + ToUint32 b) = ToUint32 (old + ToUint32 (a + b)).
Proof. unfold ToUint32. Z.mod_equality. Qed.

(** Two atomic additions are one. *)
Lemma Atomics_add_add view i a b w :
  (Atomics.add view i a ;; Atomics.add view i b ;; ret tt) w
  = (Atomics.add view i (a + b) ;; ret tt) w.
Proof.
  unfold Atomics.add, bind, Atomics.validate, ret.
  destruct (Nat.ltb_spec i (view_length w view)) as [Hr|Hr]; [|reflexivity].
  rewrite view_length_write by exact Hr.
  destruct (Nat.ltb_spec i (view_length w view)) as [_|]; [|lia].
  rewrite write_write by exact Hr. rewrite raw_write_same by exact Hr.
  do 2 f_equal. rewrite <- ToUint32_add_add. unfold ToUint32.
  rewrite (Z.mod_mod (raw_element w view i + a mod 2 ^ 32)) by lia. reflexivity.
Qed.

(** Writing back what an element holds changes nothing. *)
Lemma write_raw_same w view i :
  (i < view_length w view)%nat ->
  write_raw w view i (raw_element w view i) = w.
Proof.
  intros H. apply in_range_bytes in H.
  unfold write_raw, raw_element, data_block in *.
  destruct (heap w !! view_buffer view) as [old|] eqn:Hold; cbn [default from_option id] in *;
    [|cbn in H; lia].
  assert (Hsame : take (4 * i) old ++ le_split 4 (le_combine (take 4 (drop (4 * i) old)))
                    ++ drop (4 * i + 4) old = old).
  { assert (Hlen : length (take 4 (drop (4 * i) old)) = 4%nat)
      by (rewrite length_take, length_drop; lia).
    pose proof (split_le_combine (take 4 (drop (4 * i) old))) as Hs.
    rewrite Hlen in Hs. rewrite Hs.
    transitivity (take (4 * i) old ++ drop (4 * i) old); [|apply take_drop].
    f_equal.
    transitivity (take 4 (drop (4 * i) old) ++ drop 4 (drop (4 * i) old));
      [|apply take_drop].
    f_equal. rewrite drop_drop. reflexivity. }
  rewrite Hsame. rewrite insert_id by exact Hold.
  destruct w; reflexivity.
Qed.

Lemma counter_store_back w block :
  usable_buffer w block ->
  write_raw w (View Uint32 block) 0 (counter_slot w block) = w.
Proof.
  intros H. apply (write_raw_same w (View Uint32 block) 0).
  apply usable_in_range. exact H.
Qed.

(** X1.  Successive updates of the counter of example 2 add up: two
    increments are the increment by the sum, two decrements the decrement by
    the sum, and an increment followed by a decrement the increment by the
    difference, in every state of the memory (out of range included, where
    each side throws at its first access), for the amounts whose sum (or
    difference), which the caller computes as a Number, is exact: up to 2^53
    in absolute value. *)
Theorem atomic_updates_add_up (this : CounterExample2.Counter) (a b : Z) (w : world) :
  (Z.abs (a + b) <= 2 ^ 53 ->
   (CounterExample2.increment this (Some a) ;; CounterExample2.increment this (Some b)) w
     = CounterExample2.increment this (Some (number_add a b)) w /\
   (CounterExample2.decrement this (Some a) ;; CounterExample2.decrement this (Some b)) w
     = CounterExample2.decrement this (Some (number_add a b)) w) /\
  (Z.abs (a - b) <= 2 ^ 53 ->
   (CounterExample2.increment this (Some a) ;; CounterExample2.decrement this (Some b)) w
     = CounterExample2.increment this (Some (number_add a (- b))) w).
Proof.
  assert (Hinc : forall x y,
    (CounterExample2.increment this (Some x) ;; CounterExample2.increment this (Some y)) w
    = CounterExample2.increment this (Some (x + y)) w).
  { intros x y.
    pose proof (Atomics_add_add (CounterExample2.bufferView this) CounterExample2.LOCATION
                  x y w) as H.
    unfold CounterExample2.increment. cbn [default from_option id].
    revert H. unfold bind, ret.
    destruct (Atomics.add (CounterExample2.bufferView this) CounterExample2.LOCATION x w);
      auto. }
  assert (Hdec : forall x w',
    CounterExample2.decrement this (Some x) w' = CounterExample2.increment this (Some (- x)) w').
  { intros x w'. unfold CounterExample2.decrement, CounterExample2.increment, bind.
    cbn [default from_option id]. rewrite Atomics_sub_add. reflexivity. }
  split.
  - intros Hsum. rewrite (number_add_exact a b Hsum). split; [apply Hinc|].
    rewrite (Hdec (a + b) w).
    replace (- (a + b)) with (- a + - b) by lia.
    rewrite <- (Hinc (- a) (- b)). unfold bind. rewrite (Hdec a w).
    destruct (CounterExample2.increment this (Some (- a)) w); auto.
  - intros Hdiff. rewrite (number_add_exact a (- b)) by (replace (a + - b) with (a - b) by lia;
                                                         exact Hdiff).
    rewrite <- (Hinc a (- b)).
    unfold bind. destruct (CounterExample2.increment this (Some a) w); auto.
Qed.

(** Across the wrap on the counter buffer of [main.js]: an increment by
    2^32 - 1 and one by 2 are the increment by their sum. *)
Lemma atomic_updates_add_up_witness :
  (CounterExample2.increment (counter2_on 0) (Some 4294967295) ;;
   CounterExample2.increment (counter2_on 0) (Some 2)) main_world
  = CounterExample2.increment (counter2_on 0) (Some (number_add 4294967295 2)) main_world.
Proof.
  exact (proj1 (proj1 (atomic_updates_add_up (counter2_on 0) 4294967295 2 main_world)
                      ltac:(vm_compute; discriminate))).
Defined.

(** Beyond 2^53 the sum is rounded before it is passed: 2^53 + 1 is 2^53 as
    a Number, so the increment by the sum of 2^53 and 1 leaves 0 where the
    two increments leave 1. *)
Lemma rounded_sum_drops_an_update :
  exists w1 w2,
    (CounterExample2.increment (counter2_on 0) (Some (2 ^ 53)) ;;
     CounterExample2.increment (counter2_on 0) (Some 1)) main_world = Returned tt w1 /\
    CounterExample2.increment (counter2_on 0) (Some (number_add (2 ^ 53) 1)) main_world
    = Returned tt w2 /\
    counter_slot w1 0 = 1 /\ counter_slot w2 0 = 0.
Proof.
  assert (U : usable_buffer main_world 0)
    by (split; vm_compute; [discriminate | reflexivity]).
  pose proof (usable_in_range main_world 0 Uint32 U) as R.
  set (w0 := write_raw main_world (View Uint32 0) 0
               ((counter_slot main_world 0 + 2 ^ 53) mod 2 ^ 32)).
  assert (U0 : usable_buffer w0 0) by (apply usable_write; assumption).
  assert (H0 : counter_slot w0 0 = 0)
    by (unfold w0; rewrite counter_slot_write by exact U; reflexivity).
  eexists _, _. split; [|split; [|split]].
  - unfold bind. rewrite (Counter2_increment_usable main_world 0 (Some (2 ^ 53)) U).
    apply (Counter2_increment_usable _ 0 (Some 1)). exact U0.
  - apply (Counter2_increment_usable main_world 0 _ U).
  - rewrite counter_slot_write by exact U0. cbn [default from_option id].
    fold w0. rewrite H0. reflexivity.
  - rewrite counter_slot_write by exact U. reflexivity.
Qed.

(** X2.  [decrement(d)] undoes [increment(d)], and the other way round, even
    across a wrap: over a usable buffer the two calls in a row leave the
    shared memory exactly as it was.  With the counter of example 2 for
    every integer [d]; with the counter of example 1 for the [d] it adds
    exactly. *)
Theorem increment_then_decrement_restores (w : world) (block : nat) (d : Z) :
  usable_buffer w block ->
  ((CounterExample2.increment (counter2_on block) (Some d) ;;
    CounterExample2.decrement (counter2_on block) (Some d)) w = Returned tt w /\
   (CounterExample2.decrement (counter2_on block) (Some d) ;;
    CounterExample2.increment (counter2_on block) (Some d)) w = Returned tt w) /\
  (exact_delta d ->
   (CounterExample1.increment (counter1_on block) (Some d) ;;
    CounterExample1.decrement (counter1_on block) (Some d)) w = Returned tt w /\
   (CounterExample1.decrement (counter1_on block) (Some d) ;;
    CounterExample1.increment (counter1_on block) (Some d)) w = Returned tt w).
Proof.
  intros Hw. pose proof (counter_slot_range w block) as Hc.
  pose proof (usable_in_range w block Uint32 Hw) as Hr.
  assert (Hback : forall x y, x + y = 0 ->
            write_raw w (View Uint32 block) 0
              (((counter_slot w block + x) mod 2 ^ 32 + y) mod 2 ^ 32) = w).
  { intros x y Hxy. rewrite Zplus_mod_idemp_l.
    replace (counter_slot w block + x + y) with (counter_slot w block) by lia.
    rewrite Z.mod_small by exact Hc. apply counter_store_back. exact Hw. }
  assert (H2 : forall x y, x + y = 0 ->
            (CounterExample2.increment (counter2_on block) (Some x) ;;
             CounterExample2.increment (counter2_on block) (Some y)) w = Returned tt w).
  { intros x y Hxy. unfold bind.
    rewrite (Counter2_increment_usable w block (Some x) Hw).
    rewrite Counter2_increment_usable by (apply usable_write; assumption).
    rewrite write_write by exact Hr. rewrite counter_slot_write by exact Hw.
    cbn [default from_option id]. rewrite Z.mod_mod by lia.
    rewrite (Hback x y Hxy). reflexivity. }
  assert (H1 : forall x y, exact_delta x -> exact_delta y -> x + y = 0 ->
            (CounterExample1.increment (counter1_on block) (Some x) ;;
             CounterExample1.increment (counter1_on block) (Some y)) w = Returned tt w).
  { intros x y Hx Hy Hxy. unfold bind.
    rewrite (Counter1_increment_exact w block x Hw Hx).
    rewrite Counter1_increment_exact by (try apply usable_write; assumption).
    rewrite write_write by exact Hr. rewrite counter_slot_write by exact Hw.
    rewrite Z.mod_mod by lia. rewrite (Hback x y Hxy). reflexivity. }
  assert (Hneg : exact_delta d -> exact_delta (- d))
    by (unfold exact_delta; intros; lia).
  assert (Hdec : forall w',
            CounterExample2.decrement (counter2_on block) (Some d) w'
            = CounterExample2.increment (counter2_on block) (Some (- d)) w').
  { intros w'. unfold CounterExample2.decrement, CounterExample2.increment, bind.
    cbn [default from_option id]. rewrite Atomics_sub_add. reflexivity. }
  split; [split|].
  - rewrite <- (H2 d (- d)) by lia. unfold bind.
    destruct (CounterExample2.increment (counter2_on block) (Some d) w); auto.
  - unfold bind. rewrite (Hdec w). apply (H2 (- d) d). lia.
  - intros Hd. split.
    + exact (H1 d (- d) Hd (Hneg Hd) ltac:(lia)).
    + exact (H1 (- d) d (Hneg Hd) Hd ltac:(lia)).
Qed.

(** From the fresh counter of [main.js]: down by 5 past zero and up by 5
    again, with either counter. *)
Lemma increment_then_decrement_restores_witness :
  (CounterExample2.decrement (counter2_on 0) (Some 5) ;;
   CounterExample2.increment (counter2_on 0) (Some 5)) main_world = Returned tt main_world /\
  (CounterExample1.decrement (counter1_on 0) (Some 5) ;;
   CounterExample1.increment (counter1_on 0) (Some 5)) main_world = Returned tt main_world.
Proof.
  assert (U0 : usable_buffer main_world 0)
    by (split; vm_compute; [discriminate | reflexivity]).
  assert (E : exact_delta 5) by (vm_compute; discriminate).
  pose proof (increment_then_decrement_restores main_world 0 5 U0) as [[_ H2] H1].
  split; [exact H2 | exact (proj2 (H1 E))].
Defined.

(** X3.  The mutex is not re-entrant: an agent that holds the lock and calls
    [lock()] again is put to sleep on the slot it locked itself; run alone,
    the second call never returns. *)
Theorem lock_is_not_reentrant (self : agent) (fuel fuel' : nat) (block : nat) (w : world) :
  usable_buffer w block -> lock_slot w block = Mutex.UNLOCKED ->
  exists w',
    (Mutex.lock self (S fuel) (mutex_on block) ;; Mutex.lock self (S fuel') (mutex_on block)) w
    = Suspended w' /\
    lock_slot w' block = Mutex.LOCKED /\
    asleep_on w' block = asleep_on w block ++ [self].
Proof.
  intros Hw Hfree. unfold bind. rewrite lock_free by assumption.
  set (w1 := write_raw w (View Int32 block) 0 (ToUint32 Mutex.LOCKED)).
  pose proof (usable_in_range w block Int32 Hw) as Hr.
  assert (Hw1 : usable_buffer w1 block) by (apply usable_write; assumption).
  assert (Hl1 : lock_slot w1 block = Mutex.LOCKED)
    by (unfold w1; rewrite lock_slot_write by exact Hr; reflexivity).
  rewrite lock_taken by assumption.
  eexists. split; [reflexivity|]. split; [exact Hl1|].
  unfold asleep_on, sleepers. cbn [waiters set_waiters].
  change (waiters w1) with (waiters w).
  rewrite List.filter_app, map_app. f_equal.
  cbn [List.filter]. unfold Atomics.waits_on at 1. cbn [waiter_block waiter_byteIndex].
  rewrite Nat.eqb_refl. reflexivity.
Qed.

Lemma lock_is_not_reentrant_witness :
  exists w',
    (Mutex.lock 3%nat 1%nat (mutex_on 1) ;; Mutex.lock 3%nat 1%nat (mutex_on 1)) main_world
    = Suspended w' /\
    lock_slot w' 1 = Mutex.LOCKED /\ asleep_on w' 1 = [3%nat].
Proof.
  assert (U1 : usable_buffer main_world 1)
    by (split; vm_compute; [discriminate | reflexivity]).
  destruct (lock_is_not_reentrant 3%nat 0%nat 0%nat 1 main_world U1 eq_refl)
    as (w' & Hrun & Hl & Ha).
  exists w'. repeat split; assumption.
Defined.

Import CounterJs CountingWorker.

(** What the handler does with a request of [main.js], with the counter of
    example 1 or 2 over a usable buffer. *)
Lemma handle_increment_result C name data w block :
  C = example1 \/ C = example2 ->
  sharedCounterBuffer data = VSharedArrayBuffer block -> usable_buffer w block ->
  operation data = VString "increment" ->
  handleMessageFromMain C name data w
  = Returned tt (after_counting w name "Incrementing.." block
                   ((counter_slot w block + 100000) mod 2 ^ 32)).
Proof.
  intros HC Hbuf Hw Hop.
  unfold handleMessageFromMain. rewrite Hop, Hbuf.
  change (is_string (VString "increment") "increment") with true. cbv iota.
  unfold bind at 1.
  destruct HC as [-> | ->]; cbn [new example1 example2 argument nth].
  - rewrite Counter1_constructor_usable by exact Hw.
    apply (counting_run example1 (counter1_on block) CounterExample1.increment
             name "Incrementing.." block 1 w); [| |exact Hw].
    + intros w' Hw'. apply Counter1_increment_default; exact Hw'.
    + intros w' Hw'. apply Counter1_value_usable; exact Hw'.
  - rewrite Counter2_constructor_usable by exact Hw.
    apply (counting_run example2 (counter2_on block) CounterExample2.increment
             name "Incrementing.." block 1 w); [| |exact Hw].
    + intros w' Hw'. apply (Counter2_increment_usable w' block None); exact Hw'.
    + intros w' Hw'. apply Counter2_value_usable; exact Hw'.
Qed.

Lemma handle_decrement_result C name data w block :
  C = example1 \/ C = example2 ->
  sharedCounterBuffer data = VSharedArrayBuffer block -> usable_buffer w block ->
  operation data = VString "decrement" ->
  handleMessageFromMain C name data w
  = Returned tt (after_counting w name "Decrementing.." block
                   ((counter_slot w block - 100000) mod 2 ^ 32)).
Proof.
  intros HC Hbuf Hw Hop.
  unfold handleMessageFromMain. rewrite Hop, Hbuf.
  change (is_string (VString "decrement") "increment") with false.
  change (is_string (VString "decrement") "decrement") with true. cbv iota.
  unfold bind at 1.
  destruct HC as [-> | ->]; cbn [new example1 example2 argument nth].
  - rewrite Counter1_constructor_usable by exact Hw.
    apply (counting_run example1 (counter1_on block) CounterExample1.decrement
             name "Decrementing.." block (-1) w); [| |exact Hw].
    + intros w' Hw'. apply Counter1_decrement_default; exact Hw'.
    + intros w' Hw'. apply Counter1_value_usable; exact Hw'.
  - rewrite Counter2_constructor_usable by exact Hw.
    apply (counting_run example2 (counter2_on block) CounterExample2.decrement
             name "Decrementing.." block (-1) w); [| |exact Hw].
    + intros w' Hw'. apply (Counter2_decrement_usable w' block None); exact Hw'.
    + intros w' Hw'. apply Counter2_value_usable; exact Hw'.
Qed.

Lemma after_counting_usable w name line block n :
  usable_buffer w block -> usable_buffer (after_counting w name line block n) block.
Proof.
  intros Hw. apply (usable_heap (write_raw w (View Uint32 block) 0 n)); [reflexivity|].
  apply usable_write; [apply usable_in_range|]; exact Hw.
Qed.

Lemma after_counting_slot w name line block n :
  usable_buffer w block ->
  counter_slot (after_counting w name line block n) block = n mod 2 ^ 32.
Proof.
  intros Hw.
  rewrite (counter_slot_heap (write_raw w (View Uint32 block) 0 n)) by reflexivity.
  apply counter_slot_write. exact Hw.
Qed.

(** X4.  Two requests handled one after the other (counter of example 1 or
    2, usable buffer): an ["increment"] request followed by a ["decrement"]
    request, or the other way round, brings the shared memory back to what it
    was; the two reports carry the running count, the second one the count
    the counter started from. *)
Theorem opposite_requests_cancel (C : CounterClass) (name1 name2 : string)
        (up down : EventData) (w : world) (block : nat) :
  C = example1 \/ C = example2 ->
  sharedCounterBuffer up = VSharedArrayBuffer block -> operation up = VString "increment" ->
  sharedCounterBuffer down = VSharedArrayBuffer block -> operation down = VString "decrement" ->
  usable_buffer w block ->
  (handleMessageFromMain C name1 up ;; handleMessageFromMain C name2 down) w
  = Returned tt
      {| heap := heap w; waiters := waiters w;
         console := console w ++ ["Incrementing.."; (name1 ++ " is done counting!")%string;
                                  "Decrementing.."; (name2 ++ " is done counting!")%string];
         outbox := outbox w
                   ++ [ {| done := true;
                           count := VNumber ((counter_slot w block + 100000) mod 2 ^ 32) |};
                        {| done := true; count := VNumber (counter_slot w block) |} ] |} /\
  (handleMessageFromMain C name1 down ;; handleMessageFromMain C name2 up) w
  = Returned tt
      {| heap := heap w; waiters := waiters w;
         console := console w ++ ["Decrementing.."; (name1 ++ " is done counting!")%string;
                                  "Incrementing.."; (name2 ++ " is done counting!")%string];
         outbox := outbox w
                   ++ [ {| done := true;
                           count := VNumber ((counter_slot w block - 100000) mod 2 ^ 32) |};
                        {| done := true; count := VNumber (counter_slot w block) |} ] |}.
Proof.
  intros HC Hbu Hou Hbd Hod Hw.
  pose proof (counter_slot_range w block) as Hc.
  pose proof (usable_in_range w block Uint32 Hw) as Hr.
  split.
  - unfold bind at 1. rewrite (handle_increment_result C name1 up w block HC Hbu Hw Hou).
    rewrite (handle_decrement_result C name2 down _ block HC Hbd
               (after_counting_usable w name1 _ block _ Hw) Hod).
    rewrite after_counting_slot by exact Hw. rewrite Z.mod_mod by lia.
    rewrite Zminus_mod_idemp_l.
    replace (counter_slot w block + 100000 - 100000) with (counter_slot w block) by lia.
    rewrite (Z.mod_small (counter_slot w block)) by exact Hc.
    unfold after_counting. cbn [waiters console outbox].
    f_equal. f_equal.
    + change (heap (write_raw (write_raw w (View Uint32 block) 0
                                 ((counter_slot w block + 100000) mod 2 ^ 32))
                      (View Uint32 block) 0 (counter_slot w block)) = heap w).
      rewrite write_write by exact Hr. rewrite counter_store_back by exact Hw. reflexivity.
    + rewrite <- !app_assoc. reflexivity.
    + rewrite <- !app_assoc. reflexivity.
  - unfold bind at 1. rewrite (handle_decrement_result C name1 down w block HC Hbd Hw Hod).
    rewrite (handle_increment_result C name2 up _ block HC Hbu
               (after_counting_usable w name1 _ block _ Hw) Hou).
    rewrite after_counting_slot by exact Hw. rewrite Z.mod_mod by lia.
    rewrite Zplus_mod_idemp_l.
    replace (counter_slot w block - 100000 + 100000) with (counter_slot w block) by lia.
    rewrite (Z.mod_small (counter_slot w block)) by exact Hc.
    unfold after_counting. cbn [waiters console outbox].
    f_equal. f_equal.
    + change (heap (write_raw (write_raw w (View Uint32 block) 0
                                 ((counter_slot w block - 100000) mod 2 ^ 32))
                      (View Uint32 block) 0 (counter_slot w block)) = heap w).
      rewrite write_write by exact Hr. rewrite counter_store_back by exact Hw. reflexivity.
    + rewrite <- !app_assoc. reflexivity.
    + rewrite <- !app_assoc. reflexivity.
Qed.

(** Two workers of [main.js], one asked to increment and then the other to
    decrement, on the fresh buffers. *)
Lemma opposite_requests_cancel_witness :
  (handleMessageFromMain example1 "Worker #0" increment_request ;;
   handleMessageFromMain example1 "Worker #1" decrement_request) main_world
  = Returned tt
      {| heap := heap main_world; waiters := [];
         console := ["Incrementing.."; "Worker #0 is done counting!";
                     "Decrementing.."; "Worker #1 is done counting!"];
         outbox := [ {| done := true; count := VNumber 100000 |};
                     {| done := true; count := VNumber 0 |} ] |}.
Proof.
  assert (U0 : usable_buffer main_world 0)
    by (split; vm_compute; [discriminate | reflexivity]).
  pose proof (proj1 (opposite_requests_cancel example1 "Worker #0" "Worker #1"
                       increment_request decrement_request main_world 0
                       (or_introl eq_refl) eq_refl eq_refl eq_refl eq_refl U0)) as H.
  rewrite H. reflexivity.
Defined.
End Sequences.

(** ** Workers side by side, without atomics *)

Section NaiveInterleaving.
Import NaiveWorkers.
Implicit Types (w : world) (block : nat) (agents : list counting).

Lemma total_cons {A} (f : A -> Z) a l : total f (a :: l) = f a + total f l.
Proof. reflexivity. Qed.

Lemma total_insert {A} (f : A -> Z) (l : list A) i a a' :
  l !! i = Some a -> total f (<[i := a']> l) = total f l - f a + f a'.
Proof.
  revert i. induction l as [|x rest IH]; intros i H; [discriminate|].
  destruct i as [|i].
  - injection H as ->. change (<[0%nat := a']> (a :: rest)) with (a' :: rest).
    rewrite !total_cons. lia.
  - change (<[S i := a']> (x :: rest)) with (x :: <[i := a']> rest).
    change ((x :: rest) !! S i) with (rest !! i) in H.
    rewrite !total_cons, (IH i H). lia.
Qed.

Lemma total_repeat {A} (f : A -> Z) a n : total f (repeat a n) = Z.of_nat n * f a.
Proof.
  induction n as [|n IH]; [reflexivity|].
  cbn [repeat]. rewrite total_cons, IH. lia.
Qed.

Lemma total_nonneg {A} (f : A -> Z) l : Forall (fun a => 0 <= f a) l -> 0 <= total f l.
Proof.
  induction 1 as [|a rest Ha _ IH]; [cbn; lia|]. rewrite total_cons. lia.
Qed.

(** A read followed at once by the write is the [increment()] of the
    source. *)
Lemma read_then_write_is_increment (this : CounterExample1.Counter) (value : option Z) w :
  Returned tt (write_back this (read_element this w) (default 1 value) w)
  = CounterExample1.increment this value w.
Proof.
  unfold CounterExample1.increment, add_assign_element, write_back, read_element.
  destruct (get_element _ _ w); reflexivity.
Qed.

Lemma read_element_usable w block :
  usable_buffer w block -> read_element (counter1_on block) w = Some (counter_slot w block).
Proof. apply get_counter_slot. Qed.

Lemma write_back_usable w block c :
  usable_buffer w block -> 0 <= c < 2 ^ 32 ->
  write_back (counter1_on block) (Some c) 1 w
  = write_raw w (View Uint32 block) 0 ((c + 1) mod 2 ^ 32).
Proof.
  intros Hw Hc. unfold write_back, set_element, counter1_on.
  cbn [CounterExample1.bufferView]. unfold CounterExample1.LOCATION.
  pose proof (usable_in_range w block Uint32 Hw) as Hr.
  destruct (Nat.ltb_spec 0 (view_length w (View Uint32 block))); [|lia].
  rewrite number_add_exact by lia. reflexivity.
Qed.

(** One worker in the middle of a list takes its turn. *)
Lemma step_in_the_middle (front back : list counting) a a' w w' :
  counting_step a w = Some (a', w') ->
  step (front ++ a :: back, w) (front ++ a' :: back, w').
Proof.
  intros H.
  replace (front ++ a' :: back) with (<[length front := a']> (front ++ a :: back)).
  - eapply step_worker; [|exact H]. apply list_lookup_middle. reflexivity.
  - rewrite insert_app_r_alt by lia. rewrite Nat.sub_diag. reflexivity.
Qed.

Lemma move_to_front {A} (front : list A) x back : (front ++ [x]) ++ back = front ++ x :: back.
Proof. rewrite <- app_assoc. reflexivity. Qed.

Lemma rtc_shift (front : list counting) x l1 l2 w w' :
  rtc step ((front ++ [x]) ++ l1, w) ((front ++ [x]) ++ l2, w') ->
  rtc step (front ++ x :: l1, w) (front ++ x :: l2, w').
Proof. rewrite !move_to_front. auto. Qed.

(** Every worker reads, one after the other: all of them see the same
    count. *)
Lemma all_read block k w : usable_buffer w block -> 0 <= k -> forall n front,
  rtc step
    (front ++ repeat {| counter := counter1_on block; numUpdates := k + 1; loaded := None |} n,
     w)
    (front ++ repeat {| counter := counter1_on block; numUpdates := k;
                        loaded := Some (Some (counter_slot w block)) |} n,
     w).
Proof.
  intros Hw Hk. induction n as [|n IH]; intros front; [apply rtc_refl|].
  cbn [repeat]. eapply rtc_l.
  - apply step_in_the_middle. unfold counting_step. cbn [loaded numUpdates counter].
    destruct (Z.ltb_spec 0 (k + 1)) as [_|Hneg]; [reflexivity | lia].
  - rewrite read_element_usable by exact Hw.
    replace (k + 1 - 1) with k by lia.
    apply rtc_shift, IH.
Qed.

(** Every worker writes back what it read plus one: the same count, over and
    over. *)
Lemma all_write block k c W : 0 <= c < 2 ^ 32 ->
  usable_buffer W block ->
  write_raw W (View Uint32 block) 0 ((c + 1) mod 2 ^ 32) = W ->
  forall n front w,
    usable_buffer w block ->
    write_raw w (View Uint32 block) 0 ((c + 1) mod 2 ^ 32) = W ->
    rtc step
      (front ++ repeat {| counter := counter1_on block; numUpdates := k;
                          loaded := Some (Some c) |} (S n),
       w)
      (front ++ repeat {| counter := counter1_on block; numUpdates := k; loaded := None |}
                       (S n),
       W).
Proof.
  intros Hc HW Hidem. induction n as [|n IH]; intros front w Hw Hwrite.
  - cbn [repeat]. apply rtc_once. apply step_in_the_middle.
    unfold counting_step. cbn [loaded numUpdates counter].
    rewrite write_back_usable by assumption. rewrite Hwrite. reflexivity.
  - change (repeat ?a (S (S n))) with (a :: repeat a (S n)). eapply rtc_l.
    + apply step_in_the_middle.
      unfold counting_step. cbn [loaded numUpdates counter].
      rewrite write_back_usable by assumption. rewrite Hwrite. reflexivity.
    + apply rtc_shift, IH; assumption.
Qed.

(** A round in lockstep: every worker makes one update, the counter moves
    by one. *)
Lemma lockstep_round block k n w :
  usable_buffer w block -> 0 <= k ->
  exists w',
    rtc step
      (repeat {| counter := counter1_on block; numUpdates := k + 1; loaded := None |} (S n),
       w)
      (repeat {| counter := counter1_on block; numUpdates := k; loaded := None |} (S n), w')
    /\ usable_buffer w' block
    /\ counter_slot w' block = (counter_slot w block + 1) mod 2 ^ 32.
Proof.
  intros Hw Hk.
  pose proof (counter_slot_range w block) as Hc.
  pose proof (usable_in_range w block Uint32 Hw) as Hr.
  set (W := write_raw w (View Uint32 block) 0 ((counter_slot w block + 1) mod 2 ^ 32)).
  assert (HW : usable_buffer W block) by (apply usable_write; assumption).
  exists W. split; [|split].
  - eapply rtc_trans.
    + apply (all_read block k w Hw Hk (S n) []).
    + apply (all_write block k (counter_slot w block) W Hc HW); try assumption.
      * unfold W. apply write_write. exact Hr.
      * reflexivity.
  - exact HW.
  - unfold W. rewrite counter_slot_write by exact Hw. apply Z.mod_mod. lia.
Qed.

Lemma lockstep_rounds block n (K : nat) : forall w,
  usable_buffer w block ->
  exists w',
    rtc step
      (repeat {| counter := counter1_on block; numUpdates := Z.of_nat K; loaded := None |}
              (S n),
       w)
      (repeat {| counter := counter1_on block; numUpdates := 0; loaded := None |} (S n), w')
    /\ counter_slot w' block = (counter_slot w block + Z.of_nat K) mod 2 ^ 32.
Proof.
  induction K as [|K IH]; intros w Hw.
  - exists w. split; [apply rtc_refl|].
    rewrite Z.add_0_r. symmetry. apply Z.mod_small. apply counter_slot_range.
  - destruct (lockstep_round block (Z.of_nat K) n w Hw ltac:(lia)) as (w1 & Hrun1 & Hw1 & Hc1).
    destruct (IH w1 Hw1) as (w' & Hrun & Hc').
    exists w'. split.
    + eapply rtc_trans; [|exact Hrun].
      replace (Z.of_nat (S K)) with (Z.of_nat K + 1) by lia. exact Hrun1.
    + rewrite Hc', Hc1. rewrite Zplus_mod_idemp_l. f_equal. lia.
Qed.

(** X5.  Updates of the counter of example 1 get lost when workers run side
    by side: [N >= 1] workers that each make [K] increments can finish with
    the counter moved by [K] only (modulo 2^32), however many they are; it
    happens when they advance in lockstep, each reading the count before any
    of them has written it back. *)
Theorem naive_increments_can_be_lost (block : nat) (N : nat) (K : Z) (w : world) :
  (1 <= N)%nat -> 0 <= K -> usable_buffer w block ->
  exists agents' w',
    rtc step (start block N K, w) (agents', w') /\
    Forall finished agents' /\
    counter_slot w' block = (counter_slot w block + K) mod 2 ^ 32.
Proof.
  intros HN HK Hw. destruct N as [|n]; [lia|].
  destruct (lockstep_rounds block n (Z.to_nat K) w Hw) as (w' & Hrun & Hc).
  rewrite Z2Nat.id in Hrun, Hc by exact HK.
  eexists _, w'. split; [exact Hrun|]. split; [|exact Hc].
  clear. induction (S n) as [|m IH]; cbn [repeat]; constructor; [|exact IH].
  split; [reflexivity | cbn; lia].
Qed.

(** Two workers, one increment each, on the fresh counter of [main.js]: the
    counter can end at 1. *)
Lemma naive_increments_can_be_lost_witness :
  exists agents' w',
    rtc step (start 0 2 1, main_world) (agents', w') /\
    Forall finished agents' /\ counter_slot w' 0 = 1.
Proof.
  assert (U0 : usable_buffer main_world 0)
    by (split; vm_compute; [discriminate | reflexivity]).
  destruct (naive_increments_can_be_lost 0 2 1 main_world ltac:(lia) ltac:(lia) U0)
    as (agents' & w' & Hrun & Hfin & Hc).
  exists agents', w'. split; [exact Hrun|]. split; [exact Hfin|].
  rewrite Hc. reflexivity.
Defined.

Lemma naive_owed_nonneg block T agents w :
  naive_invariant block T (agents, w) -> Forall (fun a => 0 <= owed a) agents.
Proof.
  intros (_ & Hall & _). cbn [fst] in Hall.
  eapply Forall_impl; [exact Hall|]. intros a (_ & Hn & _). unfold owed.
  destruct (loaded a); lia.
Qed.

Lemma naive_step_keeps block T agents w agents' w' :
  T < 2 ^ 32 ->
  naive_invariant block T (agents, w) ->
  step (agents, w) (agents', w') ->
  naive_invariant block T (agents', w').
Proof.
  intros HT Hinv Hstep.
  pose proof (naive_owed_nonneg block T agents w Hinv) as Hnonneg.
  destruct Hinv as (Hw & Hall & Hup & Hlow). cbn [fst snd] in *.
  inversion Hstep as [i a a' ? ? ? Hi Ha]; subst.
  pose proof (proj1 (Forall_lookup _ _) Hall i a Hi) as (Hc & Hn & Hl).
  pose proof (counter_slot_range w block) as Hrange.
  assert (Hrest : 0 <= total owed agents - owed a).
  { assert (Hz : 0 <= total owed
                        (<[i := {| counter := counter a; numUpdates := 0; loaded := None |}]>
                           agents)).
    { apply total_nonneg. apply Forall_insert; [exact Hnonneg|]. unfold owed. cbn. lia. }
    rewrite (total_insert owed agents i a _ Hi) in Hz.
    change (owed {| counter := counter a; numUpdates := 0; loaded := None |}) with 0 in Hz.
    lia. }
  unfold counting_step in Ha. destruct (loaded a) as [[c|]|] eqn:Hloaded.
  - (* the write *)
    injection Ha as <- <-. destruct Hl as [Hc0 Hcup].
    assert (Howed : owed a = numUpdates a + 1) by (unfold owed; rewrite Hloaded; reflexivity).
    rewrite Hc.
    change (set_element _ _ _ w) with (write_back (counter1_on block) (Some c) 1 w).
    rewrite write_back_usable by (try assumption; lia).
    rewrite (Z.mod_small (c + 1)) by lia.
    assert (Htotal : total owed (<[i := {| counter := counter1_on block;
                                           numUpdates := numUpdates a; loaded := None |}]> agents)
                     = total owed agents - 1).
    { rewrite (total_insert owed agents i a _ Hi). unfold owed at 3. cbn. lia. }
    pose proof (usable_in_range w block Uint32 Hw) as Hr.
    split; [apply usable_write; assumption|]. cbn [fst snd].
    rewrite Htotal. rewrite counter_slot_write by exact Hw.
    rewrite (Z.mod_small (c + 1)) by lia.
    split; [|split; [lia | intros _; lia]].
    apply Forall_insert.
    + eapply Forall_impl; [exact Hall|]. intros b (Hb1 & Hb2 & Hb3).
      split; [exact Hb1|]. split; [exact Hb2|].
      destruct (loaded b) as [[cb|]|]; [lia | exact Hb3 | exact I].
    + cbn. auto.
  - contradiction.
  - (* the read *)
    destruct (Z.ltb_spec 0 (numUpdates a)) as [Hpos|]; [|discriminate].
    injection Ha as <- <-.
    rewrite Hc, read_element_usable by exact Hw.
    assert (Htotal : total owed (<[i := {| counter := counter1_on block;
                                           numUpdates := numUpdates a - 1;
                                           loaded := Some (Some (counter_slot w block)) |}]>
                                   agents)
                     = total owed agents).
    { rewrite (total_insert owed agents i a _ Hi). unfold owed.
      rewrite Hloaded. cbn. lia. }
    split; [exact Hw|]. cbn [fst snd]. rewrite Htotal.
    split; [|split; assumption].
    apply Forall_insert; [exact Hall|]. cbn [counter numUpdates loaded].
    split; [reflexivity|]. split; [lia|]. split; lia.
Qed.

Lemma naive_run_keeps block T s s' :
  T < 2 ^ 32 -> naive_invariant block T s -> rtc step s s' -> naive_invariant block T s'.
Proof.
  intros HT Hinv Hrun. induction Hrun as [|[agents w] [agents1 w1] s' H1 _ IH]; [exact Hinv|].
  apply IH. eapply naive_step_keeps; eassumption.
Qed.

Lemma naive_start_invariant block N K w :
  usable_buffer w block -> 0 <= K -> counter_slot w block = 0 ->
  naive_invariant block (Z.of_nat N * K) (start block N K, w).
Proof.
  intros Hw HK Hzero. unfold naive_invariant. cbn [fst snd].
  assert (Htotal : total owed (start block N K) = Z.of_nat N * K).
  { unfold start. rewrite total_repeat. unfold owed. cbn [numUpdates loaded]. lia. }
  rewrite Htotal, Hzero. split; [exact Hw|]. split; [|split; [lia | lia]].
  unfold start. clear Htotal. generalize (Z.of_nat N * K). intros T.
  induction N as [|N IH]; cbn [repeat]; constructor; [|exact IH].
  cbn. auto.
Qed.

Lemma naive_finished_total agents :
  Forall finished agents -> Forall (fun a => 0 <= numUpdates a) agents ->
  total owed agents = 0.
Proof.
  induction 1 as [|a rest [Hl Hn] _ IH]; intros Hall; [reflexivity|].
  inversion Hall as [|? ? Ha Hrest]; subst.
  rewrite total_cons, (IH Hrest). unfold owed. rewrite Hl. lia.
Qed.

(** One worker makes its updates with nobody in between. *)
Lemma solo_worker block (K : nat) : forall front back w,
  usable_buffer w block ->
  exists w',
    rtc step
      (front ++ {| counter := counter1_on block; numUpdates := Z.of_nat K; loaded := None |}
             :: back, w)
      (front ++ {| counter := counter1_on block; numUpdates := 0; loaded := None |} :: back,
       w')
    /\ usable_buffer w' block
    /\ counter_slot w' block = (counter_slot w block + Z.of_nat K) mod 2 ^ 32.
Proof.
  induction K as [|K IH]; intros front back w Hw.
  - exists w. split; [apply rtc_refl|]. split; [exact Hw|].
    rewrite Z.add_0_r. symmetry. apply Z.mod_small. apply counter_slot_range.
  - pose proof (counter_slot_range w block) as Hc.
    pose proof (usable_in_range w block Uint32 Hw) as Hr.
    set (w1 := write_raw w (View Uint32 block) 0 ((counter_slot w block + 1) mod 2 ^ 32)).
    assert (Hw1 : usable_buffer w1 block) by (apply usable_write; assumption).
    destruct (IH front back w1 Hw1) as (w' & Hrun & Hw' & Hc').
    exists w'. split; [|split; [exact Hw'|]].
    + eapply rtc_l; [|eapply rtc_l; [|exact Hrun]].
      * apply step_in_the_middle. unfold counting_step. cbn [loaded numUpdates counter].
        destruct (Z.ltb_spec 0 (Z.of_nat (S K))); [reflexivity | lia].
      * apply step_in_the_middle. unfold counting_step. cbn [loaded numUpdates counter].
        rewrite read_element_usable by exact Hw.
        rewrite write_back_usable by assumption.
        replace (Z.of_nat (S K) - 1) with (Z.of_nat K) by lia. reflexivity.
    + rewrite Hc'. unfold w1. rewrite counter_slot_write by exact Hw.
      rewrite Z.mod_mod by lia. rewrite Zplus_mod_idemp_l. f_equal. lia.
Qed.

Lemma workers_in_turn block (K : nat) (n : nat) : forall front w,
  usable_buffer w block ->
  exists w',
    rtc step
      (front ++ repeat {| counter := counter1_on block; numUpdates := Z.of_nat K;
                          loaded := None |} n, w)
      (front ++ repeat {| counter := counter1_on block; numUpdates := 0; loaded := None |} n,
       w')
    /\ counter_slot w' block = (counter_slot w block + Z.of_nat n * Z.of_nat K) mod 2 ^ 32.
Proof.
  induction n as [|n IH]; intros front w Hw.
  - exists w. split; [apply rtc_refl|].
    rewrite Z.add_0_r. symmetry. apply Z.mod_small. apply counter_slot_range.
  - cbn [repeat].
    destruct (solo_worker block K front
                (repeat {| counter := counter1_on block; numUpdates := Z.of_nat K;
                           loaded := None |} n) w Hw) as (w1 & Hrun1 & Hw1 & Hc1).
    destruct (IH (front ++ [{| counter := counter1_on block; numUpdates := 0;
                               loaded := None |}]) w1 Hw1) as (w' & Hrun & Hc').
    exists w'. split.
    + eapply rtc_trans; [exact Hrun1|]. apply rtc_shift. exact Hrun.
    + rewrite Hc', Hc1. rewrite Zplus_mod_idemp_l. f_equal. lia.
Qed.

(** X6.  Workers on the counter of example 1 never count too much: when
    [N >= 1] workers each make [K >= 1] increments from 0, with [N * K] below
    2^32, every interleaving that runs them all to the end leaves a count
    from 1 to [N * K]; and [N * K] is what the workers reach when they take
    turns. *)
Theorem naive_count_is_bounded (block : nat) (N : nat) (K : Z) (w : world) :
  (1 <= N)%nat -> 1 <= K -> Z.of_nat N * K < 2 ^ 32 ->
  usable_buffer w block -> counter_slot w block = 0 ->
  (forall agents' w',
     rtc step (start block N K, w) (agents', w') -> Forall finished agents' ->
     1 <= counter_slot w' block <= Z.of_nat N * K /\
     CounterExample1.value (counter1_on block) w'
     = Returned (VNumber (counter_slot w' block)) w') /\
  (exists agents' w',
     rtc step (start block N K, w) (agents', w') /\ Forall finished agents' /\
     counter_slot w' block = Z.of_nat N * K).
Proof.
  intros HN HK HT Hw Hzero. split.
  - intros agents' w' Hrun Hfin.
    pose proof (naive_run_keeps block _ _ _ HT
                  (naive_start_invariant block N K w Hw ltac:(lia) Hzero) Hrun)
      as (Hw' & Hall & Hup & Hlow).
    cbn [fst snd] in *.
    assert (Htotal : total owed agents' = 0).
    { apply naive_finished_total; [exact Hfin|].
      eapply Forall_impl; [exact Hall|]. intros a (_ & Ha & _). exact Ha. }
    rewrite Htotal in Hup, Hlow.
    split; [split; [apply Hlow; nia | lia]|].
    apply Counter1_value_usable. exact Hw'.
  - destruct (workers_in_turn block (Z.to_nat K) N [] w Hw) as (w' & Hrun & Hc).
    rewrite Z2Nat.id in Hrun, Hc by lia.
    eexists _, w'. split; [exact Hrun|]. split.
    + cbn [app]. clear. induction N as [|m IH]; cbn [repeat]; constructor; [|exact IH].
      split; [reflexivity | cbn; lia].
    + rewrite Hc, Hzero. apply Z.mod_small. nia.
Qed.

(** The scenario of the specification: four workers, 100,000 increments
    each; whatever is lost, the count ends between 1 and 400,000. *)
Lemma naive_count_is_bounded_witness :
  exists agents' w',
    rtc step (start 0 4 100000, main_world) (agents', w') /\ Forall finished agents' /\
    1 <= counter_slot w' 0 <= 400000.
Proof.
  assert (U0 : usable_buffer main_world 0)
    by (split; vm_compute; [discriminate | reflexivity]).
  pose proof (naive_count_is_bounded 0 4 100000 main_world ltac:(lia) ltac:(lia)
                ltac:(reflexivity) U0 eq_refl) as (Hall & agents' & w' & Hrun & Hfin & _).
  exists agents', w'. split; [exact Hrun|]. split; [exact Hfin|].
  exact (proj1 (Hall agents' w' Hrun Hfin)).
Defined.
End NaiveInterleaving.

(** ** Agents side by side on the guarded counter *)

Section GuardedInterleaving.
Import GuardedWorkers.
Implicit Types (w : world) (cb mb i j : nat) (agents : list counting).

Lemma is_asleep_spec i mb w :
  Mutex.is_asleep i (mutex_on mb) w = true <-> In i (asleep_on w mb).
Proof.
  unfold Mutex.is_asleep, asleep_on, sleepers, mutex_on.
  cbn [Mutex.bufferView view_buffer]. change (4 * Mutex.LOCATION)%nat with 0%nat.
  rewrite existsb_exists, in_map_iff. split.
  - intros (x & Hx & Hb). apply andb_true_iff in Hb as [Hw Hi].
    apply Nat.eqb_eq in Hi. exists x. split; [exact Hi|].
    apply filter_In. auto.
  - intros (x & Hi & Hx). apply filter_In in Hx as [Hx Hw].
    exists x. split; [exact Hx|]. rewrite Hw, Hi, Nat.eqb_refl. reflexivity.
Qed.

Lemma is_asleep_false i mb w :
  Mutex.is_asleep i (mutex_on mb) w = false <-> ~ In i (asleep_on w mb).
Proof.
  rewrite <- is_asleep_spec.
  destruct (Mutex.is_asleep i (mutex_on mb) w); split; intros H;
    try reflexivity; try discriminate.
  exfalso. apply H. reflexivity.
Qed.

(** What a step of an agent is, place by place. *)
Lemma counting_step_moves cb mb i a w a' w' :
  usable_buffer w cb -> usable_buffer w mb ->
  counter a = counter3_on cb mb -> sound_place cb w (pc a) ->
  counting_step i a w = Some (a', w') ->
  guarded_move cb mb i a w a' w'.
Proof.
  intros Hcb Hmb Hc Hsound. unfold counting_step. rewrite Hc.
  cbn [counter3_on CounterExample3.bufferView CounterExample3.mutex].
  destruct (pc a) as [|l| |r| | |e] eqn:Hpc.
  - destruct (Z.ltb_spec 0 (numUpdates a)); [|discriminate].
    intros [= <- <-]. rewrite <- Hc. apply move_call; assumption.
  - destruct l; cbn [Mutex.lock_step sound_place] in *.
    + destruct (tryGetLock_cases w mb) as [(_ & Hs & ->) | [(_ & Hs & ->) | [e He]]].
      * intros [= <- <-]. apply move_acquire; assumption.
      * intros [= <- <-]. apply move_busy; assumption.
      * exact (False_ind _ (tryGetLock_does_not_throw w mb e Hmb He)).
    + destruct (waitIfLocked_cases i w mb) as [(_ & Hs & ->) | [(_ & Hs & ->) | [e He]]].
      * intros [= <- <-]. apply move_sleep; assumption.
      * intros [= <- <-]. apply move_retry; assumption.
      * exact (False_ind _ (waitIfLocked_does_not_throw i w mb e Hmb He)).
    + destruct (Mutex.is_asleep i (mutex_on mb) w) eqn:Hasleep; [discriminate|].
      intros [= <- <-]. apply move_wake; [assumption|].
      apply is_asleep_false. exact Hasleep.
    + contradiction.
    + contradiction.
  - unfold CounterExample3.LOCATION. rewrite get_counter_slot by exact Hcb.
    intros [= <- <-]. apply move_read; assumption.
  - cbn [sound_place] in Hsound. subst r.
    intros [= <- <-]. unfold set_element, CounterExample3.LOCATION.
    pose proof (usable_in_range w cb Uint32 Hcb) as Hr.
    destruct (Nat.ltb_spec 0 (view_length w (View Uint32 cb))) as [_|]; [|lia].
    pose proof (counter_slot_range w cb) as Hrange.
    rewrite number_add_exact by lia.
    apply move_write; assumption.
  - destruct (tryUnlock_cases w mb) as [(_ & Hs & ->) | [(_ & Hs & ->) | [e He]]].
    + intros [= <- <-]. apply move_release; assumption.
    + intros [= <- <-]. apply move_not_held; assumption.
    + exact (False_ind _ (tryUnlock_does_not_throw w mb e Hmb He)).
  - destruct (notifyAgents_cases w mb) as [(_ & w1 & -> & Hh & _ & _ & Ha & _) | [e He]].
    + intros [= <- <-]. apply move_notify; assumption.
    + exact (False_ind _ (notifyAgents_does_not_throw w mb e Hmb He)).
  - discriminate.
Qed.

(** An agent that is awake and has something to do can take a step. *)
Lemma awake_steps cb mb i a w :
  usable_buffer w cb -> usable_buffer w mb ->
  counter a = counter3_on cb mb ->
  awake_for_lock mb w i a \/ (pc a = AtLoopTest /\ 0 < numUpdates a) ->
  exists a' w', counting_step i a w = Some (a', w').
Proof.
  intros Hcb Hmb Hc Hawake. unfold counting_step. rewrite Hc.
  cbn [counter3_on CounterExample3.bufferView CounterExample3.mutex].
  unfold awake_for_lock in Hawake.
  destruct (pc a) as [|l| |r| | |e] eqn:Hpc.
  - destruct Hawake as [[]|[_ Hpos]].
    destruct (Z.ltb_spec 0 (numUpdates a)); [eauto | lia].
  - destruct Hawake as [Hawake|[Hno _]]; [|discriminate].
    destruct l; cbn [Mutex.lock_step]; try contradiction.
    + destruct (tryGetLock_cases w mb) as [(_ & Hs & ->) | [(_ & Hs & ->) | [e He]]];
        [eauto | eauto |].
      exact (False_ind _ (tryGetLock_does_not_throw w mb e Hmb He)).
    + destruct (waitIfLocked_cases i w mb) as [(_ & Hs & ->) | [(_ & Hs & ->) | [e He]]];
        [eauto | eauto |].
      exact (False_ind _ (waitIfLocked_does_not_throw i w mb e Hmb He)).
    + rewrite (proj2 (is_asleep_false i mb w) Hawake). eauto.
  - eauto.
  - eauto.
  - destruct (tryUnlock_cases w mb) as [(_ & Hs & ->) | [(_ & Hs & ->) | [e He]]];
      [eauto | eauto |].
    exact (False_ind _ (tryUnlock_does_not_throw w mb e Hmb He)).
  - destruct (notifyAgents_cases w mb) as [(_ & w1 & -> & _) | [e He]]; [eauto|].
    exact (False_ind _ (notifyAgents_does_not_throw w mb e Hmb He)).
  - destruct Hawake as [[]|[Hno _]]. discriminate.
Qed.

(** Sums over the agents. *)
Lemma total_lookup_le {A} (f : A -> Z) (l : list A) :
  (forall a, 0 <= f a) -> forall i a, l !! i = Some a -> f a <= total f l.
Proof.
  intros Hf. induction l as [|x rest IH]; intros i a H; [discriminate|].
  rewrite total_cons. destruct i as [|i].
  - injection H as ->. pose proof (total_nonneg f rest) as Hn.
    assert (0 <= total f rest) by (apply Hn, Forall_forall; auto). lia.
  - specialize (IH i a H). pose proof (Hf x). lia.
Qed.

Lemma total_two {A} (f : A -> Z) (l : list A) :
  (forall a, 0 <= f a) ->
  forall i j a b, l !! i = Some a -> l !! j = Some b -> i <> j -> f a + f b <= total f l.
Proof.
  intros Hf. induction l as [|x rest IH]; intros i j a b Hi Hj Hne; [discriminate|].
  rewrite total_cons. destruct i as [|i], j as [|j]; try congruence.
  - injection Hi as ->. pose proof (total_lookup_le f rest Hf j b Hj). lia.
  - injection Hj as ->. pose proof (total_lookup_le f rest Hf i a Hi). lia.
  - assert (i <> j) by congruence.
    specialize (IH i j a b Hi Hj ltac:(assumption)). pose proof (Hf x). lia.
Qed.

Lemma total_positive {A} (f : A -> Z) (l : list A) :
  0 < total f l -> exists i a, l !! i = Some a /\ f a <> 0.
Proof.
  induction l as [|x rest IH]; [cbn; lia|]. rewrite total_cons. intros H.
  destruct (Z.eq_dec (f x) 0) as [E|E].
  - destruct IH as (i & a & Hi & Ha); [lia|]. exists (S i), a. auto.
  - exists 0%nat, x. auto.
Qed.

Lemma holding_nonneg a : 0 <= holding a.
Proof. unfold holding. destruct (holds_lock a); lia. Qed.

Lemma lookup_insert_cases agents i j (a' b : counting) :
  <[i := a']> agents !! j = Some b ->
  (j = i /\ b = a') \/ (j <> i /\ agents !! j = Some b).
Proof.
  intros H. apply list_lookup_insert_Some in H as [(-> & -> & _) | [Hne H]]; auto.
Qed.

Lemma NoDup_snoc {A} (l : list A) x : NoDup l -> ~ In x l -> NoDup (l ++ [x]).
Proof.
  intros Hl Hx. apply NoDup_app. split; [exact Hl|]. split; [|apply NoDup_singleton].
  intros y Hy Hyx. apply list_elem_of_In in Hy. apply list_elem_of_In in Hyx.
  destruct Hyx as [<-|[]]. contradiction.
Qed.

Lemma NoDup_head {A} (x : A) l : NoDup (x :: l) -> ~ In x l /\ NoDup l.
Proof.
  intros H. apply NoDup_cons in H as [Hx Hl]. split; [|exact Hl].
  intros Hin. apply Hx. apply list_elem_of_In. exact Hin.
Qed.

Lemma asleep_on_wait w mb i :
  asleep_on (set_waiters (waiters w ++ [Waiter mb 0 i]) w) mb = asleep_on w mb ++ [i].
Proof.
  unfold asleep_on, sleepers. cbn [waiters set_waiters].
  rewrite List.filter_app, map_app. cbn [List.filter].
  unfold Atomics.waits_on at 2. cbn [waiter_block waiter_byteIndex].
  rewrite !Nat.eqb_refl. reflexivity.
Qed.

Lemma sound_place_slot cb w w' p :
  counter_slot w' cb = counter_slot w cb -> sound_place cb w p -> sound_place cb w' p.
Proof. intros H. destruct p as [|[]| | | | |]; cbn [sound_place]; rewrite ?H; auto. Qed.

(** An agent among the sleepers is nowhere but asleep in [lock()]. *)
Lemma sleeper_is_asleep cb mb T agents w i a :
  guarded_invariant cb mb T (agents, w) -> agents !! i = Some a ->
  pc a <> InLock Mutex.Asleep -> ~ In i (asleep_on w mb).
Proof.
  intros (_ & _ & _ & _ & _ & _ & Hsleep & _) Hi Hpc Hin. cbn [fst snd] in Hsleep.
  destruct (Hsleep i Hin) as (b & Hb & Hpcb). congruence.
Qed.

(** The agent in the critical section finds LOCKED in the lock slot, and is
    alone there. *)
Lemma holder_finds_locked cb mb T agents w i a :
  guarded_invariant cb mb T (agents, w) -> agents !! i = Some a ->
  holds_lock a = true -> lock_slot w mb = Mutex.LOCKED.
Proof.
  intros (_ & _ & _ & Hlock & H01 & _) Hi Hh. cbn [fst snd] in *.
  pose proof (total_lookup_le holding agents holding_nonneg i a Hi) as Hle.
  unfold holding at 1 in Hle. rewrite Hh in Hle.
  destruct H01 as [H0|H1]; [|exact H1].
  unfold Mutex.UNLOCKED in H0. lia.
Qed.

Lemma holder_is_alone cb mb T agents w i j a b :
  guarded_invariant cb mb T (agents, w) ->
  agents !! i = Some a -> agents !! j = Some b ->
  holds_lock a = true -> holds_lock b = true -> i = j.
Proof.
  intros (_ & _ & _ & Hlock & H01 & _) Hi Hj Ha Hb. cbn [fst snd] in *.
  destruct (Nat.eq_dec i j) as [E|E]; [exact E|exfalso].
  pose proof (total_two holding agents holding_nonneg i j a b Hi Hj E) as Hle.
  unfold holding at 1 2 in Hle. rewrite Ha, Hb in Hle.
  unfold lock_slot_is_0_or_1, Mutex.UNLOCKED, Mutex.LOCKED in H01. lia.
Qed.

(** The invariant after a step of agent [i], from what the step does to
    the agent and to the world. *)
Lemma frame_keeps cb mb T agents w i a a' w' :
  guarded_invariant cb mb T (agents, w) -> agents !! i = Some a ->
  usable_buffer w' cb -> usable_buffer w' mb ->
  counter a' = counter a -> 0 <= numUpdates a' -> sound_place cb w' (pc a') ->
  (forall j b, j <> i -> agents !! j = Some b -> sound_place cb w' (pc b)) ->
  lock_slot w' mb = lock_slot w mb - holding a + holding a' ->
  lock_slot_is_0_or_1 mb w' ->
  (counter_slot w' cb + owed a') mod 2 ^ 32 = (counter_slot w cb + owed a) mod 2 ^ 32 ->
  (forall j, In j (asleep_on w' mb) ->
             (j = i /\ pc a' = InLock Mutex.Asleep) \/ (j <> i /\ In j (asleep_on w mb))) ->
  NoDup (asleep_on w' mb) ->
  (asleep_on w' mb <> [] ->
   awake_for_lock mb w' i a' \/
   exists j b, j <> i /\ agents !! j = Some b /\ awake_for_lock mb w' j b) ->
  guarded_invariant cb mb T (<[i := a']> agents, w').
Proof.
  intros (Hcb & Hmb & Hall & Hlock & H01 & Hsum & Hsleep & Hnodup & Hlive) Hi.
  cbn [fst snd] in *.
  intros Hcb' Hmb' Hc Hn Hsound Hothers Hlock' H01' Hsum' Hsleep' Hnodup' Hlive'.
  pose proof (lookup_lt_Some _ _ _ Hi) as Hlen.
  destruct (Hall i a Hi) as (Hca & Hna & _).
  unfold guarded_invariant. cbn [fst snd].
  split; [exact Hcb'|]. split; [exact Hmb'|]. split; [|split; [|split; [|split; [|split; [|split]]]]].
  - intros j b Hj. destruct (lookup_insert_cases agents i j a' b Hj) as [[-> ->]|[Hne Hj']].
    + rewrite Hc. auto.
    + destruct (Hall j b Hj') as (? & ? & _). split; [assumption|]. split; [assumption|].
      apply (Hothers j b Hne Hj').
  - rewrite (total_insert holding agents i a a' Hi). lia.
  - exact H01'.
  - rewrite (total_insert owed agents i a a' Hi).
    replace (counter_slot w' cb + (total owed agents - owed a + owed a'))
      with ((counter_slot w' cb + owed a') + (total owed agents - owed a)) by lia.
    rewrite <- Zplus_mod_idemp_l, Hsum', Zplus_mod_idemp_l.
    replace (counter_slot w cb + owed a + (total owed agents - owed a))
      with (counter_slot w cb + total owed agents) by lia.
    exact Hsum.
  - intros j Hj. destruct (Hsleep' j Hj) as [[-> Hpc]|[Hne Hin]].
    + exists a'. split; [apply list_lookup_insert_eq; exact Hlen | exact Hpc].
    + destruct (Hsleep j Hin) as (b & Hb & Hpc). exists b.
      split; [|exact Hpc]. rewrite list_lookup_insert_ne by auto. exact Hb.
  - exact Hnodup'.
  - intros Hne. destruct (Hlive' Hne) as [Ha|(j & b & Hji & Hb & Ha)].
    + exists i, a'. split; [apply list_lookup_insert_eq; exact Hlen | exact Ha].
    + exists j, b. split; [|exact Ha]. rewrite list_lookup_insert_ne by auto. exact Hb.
Qed.

(** A step that leaves the world alone, and the agent awake with as much
    to do as before. *)
Lemma quiet_move_keeps cb mb T agents w i a a' :
  guarded_invariant cb mb T (agents, w) -> agents !! i = Some a ->
  counter a' = counter a -> 0 <= numUpdates a' -> sound_place cb w (pc a') ->
  holding a' = holding a -> owed a' = owed a ->
  awake_for_lock mb w i a' -> ~ In i (asleep_on w mb) ->
  guarded_invariant cb mb T (<[i := a']> agents, w).
Proof.
  intros Hinv Hi Hc Hn Hsound Hh Ho Hawake Hnot.
  pose proof Hinv as (Hcb & Hmb & Hall & Hlock & H01 & Hsum & Hsleep & Hnodup & Hlive).
  cbn [fst snd] in *.
  apply (frame_keeps cb mb T agents w i a a' w Hinv Hi); try assumption.
  - intros j b _ Hj. apply (Hall j b Hj).
  - lia.
  - rewrite Ho. reflexivity.
  - intros j Hj. right. split; [|exact Hj]. intros ->. contradiction.
  - intros _. left. exact Hawake.
Qed.

Ltac quiet_move Hinv Hi Hpc :=
  eapply quiet_move_keeps;
  [ exact Hinv | exact Hi | reflexivity
  | cbn [numUpdates at_place]; lia
  | first [exact I | reflexivity]
  | unfold holding, holds_lock; rewrite Hpc; reflexivity
  | unfold owed; rewrite Hpc; cbn [numUpdates pc at_place]; lia
  | exact I
  | ].

Lemma guarded_move_keeps cb mb T agents w i a a' w' :
  cb <> mb ->
  guarded_invariant cb mb T (agents, w) -> agents !! i = Some a ->
  guarded_move cb mb i a w a' w' ->
  guarded_invariant cb mb T (<[i := a']> agents, w').
Proof.
  intros Hne Hinv Hi Hmove.
  pose proof Hinv as (Hcb & Hmb & Hall & Hlock & H01 & Hsum & Hsleep & Hnodup & Hlive).
  cbn [fst snd] in *.
  destruct (Hall i a Hi) as (Hc & Hn & Hsound).
  pose proof (sleeper_is_asleep cb mb T agents w i a Hinv Hi) as Hawake.
  pose proof (usable_in_range w cb Uint32 Hcb) as Hrc.
  pose proof (usable_in_range w mb Int32 Hmb) as Hrm.
  destruct Hmove as [Hpc Hpos | Hpc Hfree | Hpc Hbusy | Hpc Hlocked | Hpc Hfree | Hpc Hnot
                     | Hpc | Hpc | Hpc Hlocked | Hpc Hnot | w' Hpc Hheap Hasleep].
  - (* the call *)
    quiet_move Hinv Hi Hpc. apply Hawake. rewrite Hpc. discriminate.
  - (* the lock is taken *)
    set (w1 := write_raw w (View Int32 mb) 0 (ToUint32 Mutex.LOCKED)).
    assert (Hslot : counter_slot w1 cb = counter_slot w cb)
      by apply (slot_write_other w cb mb Int32 0 _ Hne).
    assert (Hl1 : lock_slot w1 mb = Mutex.LOCKED)
      by (unfold w1; rewrite lock_slot_write by exact Hrm; reflexivity).
    apply (frame_keeps cb mb T agents w i a _ w1 Hinv Hi).
    + apply usable_write; assumption.
    + apply usable_write; assumption.
    + reflexivity.
    + exact Hn.
    + exact I.
    + intros j b _ Hj. apply (sound_place_slot cb w w1 _ Hslot). apply (Hall j b Hj).
    + rewrite Hl1, Hfree. unfold holding, holds_lock. rewrite Hpc. reflexivity.
    + right. exact Hl1.
    + rewrite Hslot. unfold owed. rewrite Hpc. reflexivity.
    + intros j Hj. right. split; [|exact Hj]. intros ->. revert Hj. apply Hawake.
      rewrite Hpc. discriminate.
    + exact Hnodup.
    + intros _. left. exact I.
  - (* the lock is busy *)
    quiet_move Hinv Hi Hpc. apply Hawake. rewrite Hpc. discriminate.
  - (* to sleep *)
    set (w1 := set_waiters (waiters w ++ [Waiter mb 0 i]) w).
    assert (Hnot : ~ In i (asleep_on w mb)) by (apply Hawake; rewrite Hpc; discriminate).
    assert (Hsl : asleep_on w1 mb = asleep_on w mb ++ [i]) by apply asleep_on_wait.
    apply (frame_keeps cb mb T agents w i a _ w1 Hinv Hi).
    + exact Hcb.
    + exact Hmb.
    + reflexivity.
    + exact Hn.
    + exact I.
    + intros j b _ Hj. apply (Hall j b Hj).
    + change (lock_slot w1 mb) with (lock_slot w mb).
      unfold holding, holds_lock. rewrite Hpc. cbn [pc at_place]. lia.
    + exact H01.
    + change (counter_slot w1 cb) with (counter_slot w cb).
      unfold owed. rewrite Hpc. reflexivity.
    + intros j. rewrite Hsl, in_app_iff. intros [Hj|[<-|[]]].
      * right. split; [|exact Hj]. intros ->. contradiction.
      * left. split; reflexivity.
    + rewrite Hsl. apply NoDup_snoc; assumption.
    + intros _. right.
      destruct (total_positive holding agents) as (j & b & Hj & Hb).
      { rewrite <- Hlock, Hlocked. reflexivity. }
      assert (Hhb : holds_lock b = true).
      { unfold holding in Hb. destruct (holds_lock b); [reflexivity | congruence]. }
      exists j, b. split; [|split; [exact Hj|]].
      * intros ->. assert (b = a) by congruence. subst b.
        unfold holds_lock in Hhb. rewrite Hpc in Hhb. discriminate.
      * unfold awake_for_lock. unfold holds_lock in Hhb.
        destruct (pc b) as [|[]| | | | |]; try discriminate; exact I.
  - (* the lock is free again: no sleep *)
    quiet_move Hinv Hi Hpc. apply Hawake. rewrite Hpc. discriminate.
  - (* woken *)
    quiet_move Hinv Hi Hpc. exact Hnot.
  - (* the read *)
    quiet_move Hinv Hi Hpc. apply Hawake. rewrite Hpc. discriminate.
  - (* the write *)
    set (w1 := write_raw w (View Uint32 cb) 0 ((counter_slot w cb + 1) mod 2 ^ 32)).
    assert (Hl1 : lock_slot w1 mb = lock_slot w mb)
      by apply (slot_write_other w mb cb Uint32 0 _ (not_eq_sym Hne)).
    assert (Hholds : holds_lock a = true) by (unfold holds_lock; rewrite Hpc; reflexivity).
    apply (frame_keeps cb mb T agents w i a _ w1 Hinv Hi).
    + apply usable_write; assumption.
    + apply usable_write; assumption.
    + reflexivity.
    + exact Hn.
    + exact I.
    + intros j b Hji Hj. destruct (Hall j b Hj) as (_ & _ & Hsb).
      destruct (pc b) as [|[]| |r| | |] eqn:Hpcb; try exact Hsb; try exact I.
      exfalso. apply Hji.
      apply (holder_is_alone cb mb T agents w j i b a Hinv Hj Hi); [|exact Hholds].
      unfold holds_lock. rewrite Hpcb. reflexivity.
    + rewrite Hl1. unfold holding, holds_lock. rewrite Hpc. cbn [pc at_place]. lia.
    + unfold lock_slot_is_0_or_1. rewrite Hl1. exact H01.
    + unfold w1. rewrite counter_slot_write by exact Hcb.
      unfold owed. rewrite Hpc. cbn [pc at_place numUpdates].
      rewrite Z.mod_mod by lia. rewrite Zplus_mod_idemp_l. f_equal. lia.
    + intros j Hj. right. split; [|exact Hj]. intros ->. revert Hj. apply Hawake.
      rewrite Hpc. discriminate.
    + exact Hnodup.
    + intros _. left. exact I.
  - (* the lock is given back *)
    set (w1 := write_raw w (View Int32 mb) 0 (ToUint32 Mutex.UNLOCKED)).
    assert (Hslot : counter_slot w1 cb = counter_slot w cb)
      by apply (slot_write_other w cb mb Int32 0 _ Hne).
    assert (Hl1 : lock_slot w1 mb = Mutex.UNLOCKED)
      by (unfold w1; rewrite lock_slot_write by exact Hrm; reflexivity).
    apply (frame_keeps cb mb T agents w i a _ w1 Hinv Hi).
    + apply usable_write; assumption.
    + apply usable_write; assumption.
    + reflexivity.
    + exact Hn.
    + exact I.
    + intros j b _ Hj. apply (sound_place_slot cb w w1 _ Hslot). apply (Hall j b Hj).
    + rewrite Hl1, Hlocked. unfold holding, holds_lock. rewrite Hpc. reflexivity.
    + left. exact Hl1.
    + rewrite Hslot. unfold owed. rewrite Hpc. reflexivity.
    + intros j Hj. right. split; [|exact Hj]. intros ->. revert Hj. apply Hawake.
      rewrite Hpc. discriminate.
    + exact Hnodup.
    + intros _. left. exact I.
  - (* [unlock()] without the lock: not by an agent that took it *)
    exfalso. apply Hnot.
    apply (holder_finds_locked cb mb T agents w i a Hinv Hi).
    unfold holds_lock. rewrite Hpc. reflexivity.
  - (* the oldest sleeper is woken *)
    assert (Hnoti : forall j, In j (asleep_on w mb) -> j <> i).
    { intros j Hj ->. revert Hj. apply Hawake. rewrite Hpc. discriminate. }
    apply (frame_keeps cb mb T agents w i a _ w' Hinv Hi).
    + apply (usable_heap w w' cb Hheap Hcb).
    + apply (usable_heap w w' mb Hheap Hmb).
    + reflexivity.
    + exact Hn.
    + exact I.
    + intros j b _ Hj.
      apply (sound_place_slot cb w w' _ (counter_slot_heap w w' cb Hheap)).
      apply (Hall j b Hj).
    + rewrite (lock_slot_heap w w' mb Hheap).
      unfold holding, holds_lock. rewrite Hpc. cbn [pc at_place]. lia.
    + unfold lock_slot_is_0_or_1. rewrite (lock_slot_heap w w' mb Hheap). exact H01.
    + rewrite (counter_slot_heap w w' cb Hheap). unfold owed. rewrite Hpc. reflexivity.
    + intros j. rewrite Hasleep. intros Hj. right.
      assert (In j (asleep_on w mb)).
      { destruct (asleep_on w mb); [exact Hj | right; exact Hj]. }
      auto.
    + rewrite Hasleep. destruct (asleep_on w mb) as [|s rest]; [constructor|].
      cbn [drop]. apply (NoDup_head s rest Hnodup).
    + rewrite Hasleep. intros Hrest. right.
      destruct (asleep_on w mb) as [|s rest] eqn:Hold; [contradiction|].
      cbn [drop] in *.
      destruct (Hsleep s (or_introl eq_refl)) as (b & Hb & Hpcb).
      exists s, b. split; [apply Hnoti; left; reflexivity|]. split; [exact Hb|].
      unfold awake_for_lock. rewrite Hpcb, Hasleep. cbn [drop].
      apply (NoDup_head s rest Hnodup).
Qed.

Lemma guarded_step_keeps cb mb T s s' :
  cb <> mb -> guarded_invariant cb mb T s -> step s s' -> guarded_invariant cb mb T s'.
Proof.
  intros Hne Hinv Hstep. destruct Hstep as [i a a' agents w w' Hi Ha].
  pose proof Hinv as (Hcb & Hmb & Hall & _). cbn [fst snd] in *.
  destruct (Hall i a Hi) as (Hc & _ & Hsound).
  apply (guarded_move_keeps cb mb T agents w i a a' w' Hne Hinv Hi).
  apply counting_step_moves; assumption.
Qed.

Lemma guarded_run_keeps cb mb T s s' :
  cb <> mb -> guarded_invariant cb mb T s -> rtc step s s' -> guarded_invariant cb mb T s'.
Proof.
  intros Hne Hinv Hrun. induction Hrun as [|s s1 s' H1 _ IH]; [exact Hinv|].
  apply IH. eapply guarded_step_keeps; eassumption.
Qed.

Lemma start_lookup cb mb N K i a :
  start cb mb N K !! i = Some a ->
  a = {| counter := counter3_on cb mb; numUpdates := K; pc := AtLoopTest |}.
Proof.
  intros H. apply list_elem_of_lookup_2, list_elem_of_In in H.
  apply repeat_spec in H. exact H.
Qed.

Lemma guarded_start_invariant cb mb N K w :
  usable_buffer w cb -> usable_buffer w mb ->
  lock_slot w mb = Mutex.UNLOCKED -> asleep_on w mb = [] -> 0 <= K ->
  guarded_invariant cb mb (counter_slot w cb + Z.of_nat N * K) (start cb mb N K, w).
Proof.
  intros Hcb Hmb Hfree Hnobody HK. unfold guarded_invariant. cbn [fst snd].
  split; [exact Hcb|]. split; [exact Hmb|].
  split; [|split; [|split; [|split; [|split; [|split]]]]].
  - intros i a Hi. rewrite (start_lookup cb mb N K i a Hi). cbn. auto.
  - rewrite Hfree. unfold start. rewrite total_repeat. unfold holding, holds_lock.
    cbn [pc]. unfold Mutex.UNLOCKED. lia.
  - left. exact Hfree.
  - unfold start. rewrite total_repeat. unfold owed. cbn [pc numUpdates].
    f_equal. lia.
  - rewrite Hnobody. intros i [].
  - rewrite Hnobody. apply NoDup_nil_2.
  - rewrite Hnobody. intros H. contradiction.
Qed.

(** What can be reached from the start. *)
Lemma guarded_reachable cb mb N K w s :
  cb <> mb -> usable_buffer w cb -> usable_buffer w mb ->
  lock_slot w mb = Mutex.UNLOCKED -> asleep_on w mb = [] -> 0 <= K ->
  rtc step (start cb mb N K, w) s ->
  guarded_invariant cb mb (counter_slot w cb + Z.of_nat N * K) s.
Proof.
  intros Hne Hcb Hmb Hfree Hnobody HK Hrun.
  eapply guarded_run_keeps; [exact Hne | | exact Hrun].
  apply guarded_start_invariant; assumption.
Qed.

Lemma holder_exists cb mb T agents w :
  guarded_invariant cb mb T (agents, w) ->
  (lock_slot w mb = Mutex.LOCKED <->
   exists i a, agents !! i = Some a /\ holds_lock a = true).
Proof.
  intros Hinv. split.
  - intros Hlocked. destruct Hinv as (_ & _ & _ & Hlock & _). cbn [fst snd] in *.
    destruct (total_positive holding agents) as (i & a & Hi & Ha).
    { rewrite <- Hlock, Hlocked. reflexivity. }
    exists i, a. split; [exact Hi|].
    unfold holding in Ha. destruct (holds_lock a); [reflexivity | congruence].
  - intros (i & a & Hi & Ha). apply (holder_finds_locked cb mb T agents w i a Hinv Hi Ha).
Qed.

Lemma finished_or_not agents :
  Forall finished agents \/ exists i a, agents !! i = Some a /\ ~ finished a.
Proof.
  induction agents as [|x rest IH]; [left; constructor|].
  assert (Hx : finished x \/ ~ finished x).
  { unfold finished. destruct (pc x); try (right; intros [? _]; discriminate).
    destruct (Z_le_gt_dec (numUpdates x) 0); [left; auto | right; intros [_ ?]; lia]. }
  destruct Hx as [Hx|Hx]; [|right; exists 0%nat, x; auto].
  destruct IH as [IH|(i & a & Hi & Ha)]; [left; constructor; assumption|].
  right. exists (S i), a. auto.
Qed.

Lemma guarded_progress cb mb T agents w :
  guarded_invariant cb mb T (agents, w) ->
  Forall finished agents \/ exists s', step (agents, w) s'.
Proof.
  intros Hinv.
  destruct (finished_or_not agents) as [Hfin|(i & a & Hi & Ha)]; [left; exact Hfin|right].
  pose proof Hinv as (Hcb & Hmb & Hall & _ & _ & _ & _ & _ & Hlive). cbn [fst snd] in *.
  assert (Hgo : forall j b, agents !! j = Some b ->
                            awake_for_lock mb w j b \/ (pc b = AtLoopTest /\ 0 < numUpdates b) ->
                            exists s', step (agents, w) s').
  { intros j b Hj Hb. destruct (Hall j b Hj) as (Hc & _ & _).
    destruct (awake_steps cb mb j b w Hcb Hmb Hc Hb) as (b' & w' & Hstep).
    eexists. apply (step_worker j b b' agents w w' Hj Hstep). }
  destruct (Hall i a Hi) as (Hc & Hn & Hsound).
  destruct (pc a) as [|l| |r| | |e] eqn:Hpc.
  - apply (Hgo i a Hi). right. split; [exact Hpc|].
    destruct (Z_le_gt_dec (numUpdates a) 0); [|lia].
    exfalso. apply Ha. split; assumption.
  - destruct l; cbn [sound_place] in Hsound; try contradiction.
    + apply (Hgo i a Hi). left. unfold awake_for_lock. rewrite Hpc. exact I.
    + apply (Hgo i a Hi). left. unfold awake_for_lock. rewrite Hpc. exact I.
    + destruct (Mutex.is_asleep i (mutex_on mb) w) eqn:Hasleep.
      * apply is_asleep_spec in Hasleep.
        destruct Hlive as (j & b & Hj & Hb).
        { intros Hnil. rewrite Hnil in Hasleep. destruct Hasleep. }
        apply (Hgo j b Hj). left. exact Hb.
      * apply is_asleep_false in Hasleep.
        apply (Hgo i a Hi). left. unfold awake_for_lock. rewrite Hpc. exact Hasleep.
  - apply (Hgo i a Hi). left. unfold awake_for_lock. rewrite Hpc. exact I.
  - apply (Hgo i a Hi). left. unfold awake_for_lock. rewrite Hpc. exact I.
  - apply (Hgo i a Hi). left. unfold awake_for_lock. rewrite Hpc. exact I.
  - apply (Hgo i a Hi). left. unfold awake_for_lock. rewrite Hpc. exact I.
  - contradiction.
Qed.

Lemma guarded_finished_total agents :
  Forall finished agents -> (forall i a, agents !! i = Some a -> 0 <= numUpdates a) ->
  total owed agents = 0.
Proof.
  induction 1 as [|a rest [Hpc Hn] _ IH]; intros Hall; [reflexivity|].
  rewrite total_cons, IH.
  - pose proof (Hall 0%nat a eq_refl). unfold owed. rewrite Hpc. lia.
  - intros i b Hi. apply (Hall (S i) b Hi).
Qed.

Lemma guarded_finished_state cb mb T agents w :
  guarded_invariant cb mb T (agents, w) -> Forall finished agents ->
  counter_slot w cb = T mod 2 ^ 32 /\ lock_slot w mb = Mutex.UNLOCKED /\
  asleep_on w mb = [].
Proof.
  intros (_ & _ & Hall & Hlock & _ & Hsum & Hsleep & _) Hfin. cbn [fst snd] in *.
  assert (Hat : forall i a, agents !! i = Some a -> pc a = AtLoopTest).
  { intros i a Hi. apply list_elem_of_lookup_2 in Hi.
    apply (proj1 (Forall_forall _ _) Hfin a Hi). }
  split; [|split].
  - rewrite guarded_finished_total in Hsum.
    + rewrite Z.add_0_r in Hsum. rewrite <- Hsum. symmetry.
      apply Z.mod_small. apply counter_slot_range.
    + exact Hfin.
    + intros i a Hi. apply (Hall i a Hi).
  - rewrite Hlock. clear -Hat. induction agents as [|a rest IH]; [reflexivity|].
    rewrite total_cons, IH.
    + unfold holding, holds_lock. rewrite (Hat 0%nat a eq_refl). reflexivity.
    + intros i b Hi. apply (Hat (S i) b Hi).
  - destruct (asleep_on w mb) as [|s rest]; [reflexivity|exfalso].
    destruct (Hsleep s (or_introl eq_refl)) as (a & Ha & Hpc).
    rewrite (Hat s a Ha) in Hpc. discriminate.
Qed.

Lemma step_in_place (front back : list counting) a a' w w' :
  counting_step (length front) a w = Some (a', w') ->
  step (front ++ a :: back, w) (front ++ a' :: back, w').
Proof.
  intros H.
  replace (front ++ a' :: back) with (<[length front := a']> (front ++ a :: back)).
  - eapply step_worker; [|exact H]. apply list_lookup_middle. reflexivity.
  - rewrite insert_app_r_alt by lia. rewrite Nat.sub_diag. reflexivity.
Qed.

(** One call made with nobody in between: the steps of the agent are the
    call [increment()] of example 3. *)
Lemma solo_call cb mb (front back : list counting) n w :
  cb <> mb -> usable_buffer w cb -> usable_buffer w mb ->
  lock_slot w mb = Mutex.UNLOCKED -> 0 < n ->
  exists w',
    CounterExample3.increment (length front) 1 (counter3_on cb mb) None w = Returned tt w' /\
    nsteps step 6
      (front ++ {| counter := counter3_on cb mb; numUpdates := n; pc := AtLoopTest |} :: back,
       w)
      (front ++ {| counter := counter3_on cb mb; numUpdates := n - 1; pc := AtLoopTest |}
             :: back, w') /\
    usable_buffer w' cb /\ usable_buffer w' mb /\ lock_slot w' mb = Mutex.UNLOCKED /\
    asleep_on w' mb = drop 1 (asleep_on w mb) /\
    counter_slot w' cb = (counter_slot w cb + 1) mod 2 ^ 32.
Proof.
  intros Hne Hcb Hmb Hfree Hn.
  pose proof (usable_in_range w mb Int32 Hmb) as Hrm.
  pose proof (counter_slot_range w cb) as Hrange.
  (* lock() *)
  set (w1 := write_raw w (View Int32 mb) 0 (ToUint32 Mutex.LOCKED)).
  assert (Hget : Mutex.tryGetLock (mutex_on mb) w = Returned true w1).
  { destruct (tryGetLock_cases w mb) as [(_ & _ & H) | [(_ & H & _) | [e He]]].
    - exact H.
    - contradiction.
    - exact (False_ind _ (tryGetLock_does_not_throw w mb e Hmb He)). }
  assert (Hcb1 : usable_buffer w1 cb) by (apply usable_write; assumption).
  assert (Hmb1 : usable_buffer w1 mb) by (apply usable_write; assumption).
  assert (Hc1 : counter_slot w1 cb = counter_slot w cb)
    by apply (slot_write_other w cb mb Int32 0 _ Hne).
  assert (Hl1 : lock_slot w1 mb = Mutex.LOCKED)
    by (unfold w1; rewrite lock_slot_write by exact Hrm; reflexivity).
  pose proof (usable_in_range w1 cb Uint32 Hcb1) as Hrc1.
  (* view[0] += 1 *)
  set (w2 := write_raw w1 (View Uint32 cb) 0 ((counter_slot w cb + 1) mod 2 ^ 32)).
  assert (Hset : set_element (View Uint32 cb) 0 (number_add (counter_slot w cb) 1) w1 = w2).
  { unfold set_element.
    destruct (Nat.ltb_spec 0 (view_length w1 (View Uint32 cb))) as [_|]; [|lia].
    rewrite number_add_exact by lia. reflexivity. }
  assert (Hcb2 : usable_buffer w2 cb) by (apply usable_write; assumption).
  assert (Hmb2 : usable_buffer w2 mb) by (apply usable_write; assumption).
  assert (Hl2 : lock_slot w2 mb = Mutex.LOCKED).
  { unfold w2. rewrite (proj1 (slot_write_other w1 mb cb Uint32 0 _ (not_eq_sym Hne))).
    exact Hl1. }
  assert (Hc2 : counter_slot w2 cb = (counter_slot w cb + 1) mod 2 ^ 32).
  { unfold w2. rewrite counter_slot_write by exact Hcb1. apply Z.mod_mod. lia. }
  pose proof (usable_in_range w2 mb Int32 Hmb2) as Hrm2.
  (* unlock() *)
  set (w3 := write_raw w2 (View Int32 mb) 0 (ToUint32 Mutex.UNLOCKED)).
  assert (Hrel : Mutex.tryUnlock (mutex_on mb) w2 = Returned true w3).
  { destruct (tryUnlock_cases w2 mb) as [(_ & _ & H) | [(_ & H & _) | [e He]]].
    - exact H.
    - contradiction.
    - exact (False_ind _ (tryUnlock_does_not_throw w2 mb e Hmb2 He)). }
  assert (Hcb3 : usable_buffer w3 cb) by (apply usable_write; assumption).
  assert (Hmb3 : usable_buffer w3 mb) by (apply usable_write; assumption).
  assert (Hl3 : lock_slot w3 mb = Mutex.UNLOCKED)
    by (unfold w3; rewrite lock_slot_write by exact Hrm2; reflexivity).
  assert (Hc3 : counter_slot w3 cb = counter_slot w2 cb)
    by apply (slot_write_other w2 cb mb Int32 0 _ Hne).
  destruct (notifyAgents_cases w3 mb) as [(_ & w4 & Hnotify & Hh & _ & _ & Ha & _) | [e He]];
    [|exact (False_ind _ (notifyAgents_does_not_throw w3 mb e Hmb3 He))].
  exists w4. split; [|split; [|split; [|split; [|split; [|split]]]]].
  - unfold CounterExample3.increment.
    cbn [counter3_on CounterExample3.mutex CounterExample3.bufferView].
    unfold bind at 1. rewrite lock_free by assumption. fold w1.
    unfold bind at 1. unfold add_assign_element, CounterExample3.LOCATION.
    rewrite get_counter_slot by exact Hcb1. rewrite Hc1.
    change (default 1 None) with 1. rewrite Hset.
    unfold Mutex.unlock, bind. rewrite Hrel. exact Hnotify.
  - eapply nsteps_l.
    { apply step_in_place. unfold counting_step. cbn [pc numUpdates counter].
      destruct (Z.ltb_spec 0 n); [reflexivity | lia]. }
    eapply nsteps_l.
    { apply step_in_place. unfold counting_step.
      cbn [pc numUpdates counter counter3_on CounterExample3.mutex Mutex.lock_step].
      rewrite Hget. reflexivity. }
    eapply nsteps_l.
    { apply step_in_place. unfold counting_step.
      cbn [at_place pc numUpdates counter counter3_on CounterExample3.bufferView].
      unfold CounterExample3.LOCATION. rewrite get_counter_slot by exact Hcb1.
      rewrite Hc1. reflexivity. }
    eapply nsteps_l.
    { apply step_in_place. unfold counting_step.
      cbn [at_place pc numUpdates counter counter3_on CounterExample3.bufferView].
      unfold CounterExample3.LOCATION. rewrite Hset. reflexivity. }
    eapply nsteps_l.
    { apply step_in_place. unfold counting_step.
      cbn [at_place pc numUpdates counter counter3_on CounterExample3.mutex].
      rewrite Hrel. reflexivity. }
    eapply nsteps_l.
    { apply step_in_place. unfold counting_step.
      cbn [at_place pc numUpdates counter counter3_on CounterExample3.mutex].
      rewrite Hnotify. reflexivity. }
    apply nsteps_O.
  - apply (usable_heap w3 w4 cb Hh Hcb3).
  - apply (usable_heap w3 w4 mb Hh Hmb3).
  - rewrite (lock_slot_heap w3 w4 mb Hh). exact Hl3.
  - rewrite Ha. reflexivity.
  - rewrite (counter_slot_heap w3 w4 cb Hh), Hc3. exact Hc2.
Qed.

Lemma solo_calls cb mb (K : nat) : forall (front back : list counting) w,
  cb <> mb -> usable_buffer w cb -> usable_buffer w mb ->
  lock_slot w mb = Mutex.UNLOCKED ->
  exists w',
    rtc step
      (front ++ {| counter := counter3_on cb mb; numUpdates := Z.of_nat K; pc := AtLoopTest |}
             :: back, w)
      (front ++ {| counter := counter3_on cb mb; numUpdates := 0; pc := AtLoopTest |} :: back,
       w') /\
    usable_buffer w' cb /\ usable_buffer w' mb /\ lock_slot w' mb = Mutex.UNLOCKED.
Proof.
  induction K as [|K IH]; intros front back w Hne Hcb Hmb Hfree.
  - exists w. split; [apply rtc_refl | auto].
  - destruct (solo_call cb mb front back (Z.of_nat (S K)) w Hne Hcb Hmb Hfree ltac:(lia))
      as (w1 & _ & Hrun1 & Hcb1 & Hmb1 & Hfree1 & _).
    apply rtc_nsteps_2 in Hrun1.
    replace (Z.of_nat (S K) - 1) with (Z.of_nat K) in Hrun1 by lia.
    destruct (IH front back w1 Hne Hcb1 Hmb1 Hfree1) as (w' & Hrun & Hrest).
    exists w'. split; [|exact Hrest]. eapply rtc_trans; eassumption.
Qed.

Lemma agents_in_turn cb mb (K : nat) (n : nat) : forall (front : list counting) w,
  cb <> mb -> usable_buffer w cb -> usable_buffer w mb ->
  lock_slot w mb = Mutex.UNLOCKED ->
  exists w',
    rtc step
      (front ++ repeat {| counter := counter3_on cb mb; numUpdates := Z.of_nat K;
                          pc := AtLoopTest |} n, w)
      (front ++ repeat {| counter := counter3_on cb mb; numUpdates := 0; pc := AtLoopTest |} n,
       w').
Proof.
  induction n as [|n IH]; intros front w Hne Hcb Hmb Hfree.
  - exists w. apply rtc_refl.
  - cbn [repeat].
    destruct (solo_calls cb mb K front
                (repeat {| counter := counter3_on cb mb; numUpdates := Z.of_nat K;
                           pc := AtLoopTest |} n) w Hne Hcb Hmb Hfree)
      as (w1 & Hrun1 & Hcb1 & Hmb1 & Hfree1).
    destruct (IH (front ++ [{| counter := counter3_on cb mb; numUpdates := 0;
                               pc := AtLoopTest |}]) w1 Hne Hcb1 Hmb1 Hfree1) as (w' & Hrun).
    exists w'. eapply rtc_trans; [exact Hrun1|].
    rewrite <- !(app_assoc front [_]) in Hrun. exact Hrun.
Qed.

Lemma guarded_start_reachable cb mb N K w s :
  guarded_start cb mb w -> 0 <= K -> rtc step (start cb mb N K, w) s ->
  guarded_invariant cb mb (counter_slot w cb + Z.of_nat N * K) s.
Proof.
  intros (Hne & Hcb & Hmb & Hfree & Hnobody) HK Hrun.
  apply (guarded_reachable cb mb N K w s); assumption.
Qed.

Lemma main_world_guarded_start : guarded_start 0 1 main_world.
Proof.
  split; [discriminate|].
  split; [split; vm_compute; [discriminate | reflexivity]|].
  split; [split; vm_compute; [discriminate | reflexivity]|].
  split; reflexivity.
Qed.

(** The first agent calls [increment()] and gets the lock. *)
Lemma first_takes_lock cb mb (back : list counting) n w :
  usable_buffer w mb -> lock_slot w mb = Mutex.UNLOCKED -> 0 < n ->
  nsteps step 2
    ({| counter := counter3_on cb mb; numUpdates := n; pc := AtLoopTest |} :: back, w)
    ({| counter := counter3_on cb mb; numUpdates := n - 1; pc := AtRead |} :: back,
     write_raw w (View Int32 mb) 0 (ToUint32 Mutex.LOCKED)).
Proof.
  intros Hmb Hfree Hn.
  assert (Hget : Mutex.tryGetLock (mutex_on mb) w
                 = Returned true (write_raw w (View Int32 mb) 0 (ToUint32 Mutex.LOCKED))).
  { destruct (tryGetLock_cases w mb) as [(_ & _ & H) | [(_ & H & _) | [e He]]].
    - exact H.
    - contradiction.
    - exact (False_ind _ (tryGetLock_does_not_throw w mb e Hmb He)). }
  eapply nsteps_l.
  { apply (step_in_place [] back). unfold counting_step. cbn [pc numUpdates counter].
    destruct (Z.ltb_spec 0 n); [reflexivity | lia]. }
  eapply nsteps_l; [|apply nsteps_O].
  apply (step_in_place [] back). unfold counting_step.
  cbn [pc numUpdates counter counter3_on CounterExample3.mutex Mutex.lock_step length].
  rewrite Hget. reflexivity.
Qed.

(** X7.  Mutual exclusion.  Agents that call [increment()] of the guarded
    counter side by side, from a free lock: in every state they can reach,
    at most one agent is between its [lock()] and its [unlock()]; the lock
    slot holds 0 or 1, and LOCKED exactly when there is such an agent; and
    what an agent has read of the counter is still in the counter slot when
    it writes. *)
Theorem guarded_agents_exclude_each_other (cb mb : nat) (N : nat) (K : Z) (w : world)
        (agents' : list counting) (w' : world) :
  guarded_start cb mb w -> 0 <= K ->
  rtc step (start cb mb N K, w) (agents', w') ->
  (forall i j a b,
     agents' !! i = Some a -> agents' !! j = Some b ->
     holds_lock a = true -> holds_lock b = true -> i = j) /\
  (lock_slot w' mb = Mutex.LOCKED <->
   exists i a, agents' !! i = Some a /\ holds_lock a = true) /\
  lock_slot_is_0_or_1 mb w' /\
  (forall i a read,
     agents' !! i = Some a -> pc a = AtWrite read -> read = Some (counter_slot w' cb)).
Proof.
  intros Hstart HK Hrun.
  pose proof (guarded_start_reachable cb mb N K w _ Hstart HK Hrun) as Hinv.
  split; [|split; [|split]].
  - intros i j a b Hi Hj Ha Hb.
    apply (holder_is_alone cb mb _ agents' w' i j a b Hinv Hi Hj Ha Hb).
  - apply (holder_exists cb mb _ agents' w' Hinv).
  - destruct Hinv as (_ & _ & _ & _ & H01 & _). exact H01.
  - intros i a read Hi Hpc.
    destruct Hinv as (_ & _ & Hall & _). cbn [fst snd] in Hall.
    destruct (Hall i a Hi) as (_ & _ & Hsound). rewrite Hpc in Hsound. exact Hsound.
Qed.

(** Two agents on the buffers of [main.js]: once the first has the lock, the
    lock slot holds LOCKED and the first agent is the only one inside. *)
Lemma guarded_agents_exclude_each_other_witness :
  exists agents' w',
    rtc step (start 0 1 2 1, main_world) (agents', w') /\
    lock_slot w' 1 = Mutex.LOCKED /\
    (forall i a, agents' !! i = Some a -> holds_lock a = true -> i = 0%nat).
Proof.
  pose proof main_world_guarded_start as Hstart.
  pose proof Hstart as (_ & _ & Hmb & Hfree & _).
  pose proof (rtc_nsteps_2 _ _ _
                (first_takes_lock 0 1
                   [{| counter := counter3_on 0 1; numUpdates := 1; pc := AtLoopTest |}]
                   1 main_world Hmb Hfree ltac:(lia))) as Hrun.
  eexists _, _. split; [exact Hrun|].
  destruct (guarded_agents_exclude_each_other 0 1 2 1 main_world _ _ Hstart ltac:(lia) Hrun)
    as (Halone & Hlocked & _ & _).
  split.
  - apply Hlocked. exists 0%nat. eexists. split; reflexivity.
  - intros i a Hi Ha. apply (Halone i 0%nat a _ Hi eq_refl Ha). reflexivity.
Defined.

(** X8.  No agent is stopped by an exception: in every state the agents can
    reach, none has thrown and none throws at its next step; an agent about
    to run the compare-and-swap of [unlock()] finds LOCKED in the lock slot,
    so [unlock()] never fails for want of the lock. *)
Theorem guarded_agents_do_not_throw (cb mb : nat) (N : nat) (K : Z) (w : world)
        (agents' : list counting) (w' : world) (i : nat) (a : counting) :
  guarded_start cb mb w -> 0 <= K ->
  rtc step (start cb mb N K, w) (agents', w') ->
  agents' !! i = Some a ->
  (forall e, pc a <> Threw e) /\
  (forall a' w'' e, counting_step i a w' = Some (a', w'') -> pc a' <> Threw e) /\
  (pc a = AtTryUnlock ->
   lock_slot w' mb = Mutex.LOCKED /\
   Mutex.unlock (mutex_on mb) w' <> Thrown NotHeld w').
Proof.
  intros Hstart HK Hrun Hi.
  pose proof (guarded_start_reachable cb mb N K w _ Hstart HK Hrun) as Hinv.
  destruct Hstart as (Hne & _).
  split; [|split].
  - intros e Hpc. destruct Hinv as (_ & _ & Hall & _). cbn [fst snd] in Hall.
    destruct (Hall i a Hi) as (_ & _ & Hsound). rewrite Hpc in Hsound. exact Hsound.
  - intros a' w'' e Hstep Hpc.
    assert (Hinv' : guarded_invariant cb mb (counter_slot w cb + Z.of_nat N * K)
                                      (<[i := a']> agents', w'')).
    { apply (guarded_step_keeps cb mb _ (agents', w') _ Hne Hinv).
      apply (step_worker i a a' agents' w' w'' Hi Hstep). }
    destruct Hinv' as (_ & _ & Hall & _). cbn [fst snd] in Hall.
    destruct (Hall i a') as (_ & _ & Hsound).
    { apply list_lookup_insert_eq. apply (lookup_lt_Some _ _ _ Hi). }
    rewrite Hpc in Hsound. exact Hsound.
  - intros Hpc.
    assert (Hlocked : lock_slot w' mb = Mutex.LOCKED).
    { apply (holder_finds_locked cb mb _ agents' w' i a Hinv Hi).
      unfold holds_lock. rewrite Hpc. reflexivity. }
    split; [exact Hlocked|].
    destruct Hinv as (_ & Hmb & _). cbn [snd] in Hmb.
    destruct (unlock_held w' mb Hmb Hlocked) as (w'' & Hu & _). rewrite Hu. discriminate.
Qed.

(** Two agents on the buffers of [main.js], the first holding the lock: no
    step of the first agent ends in an exception. *)
Lemma guarded_agents_do_not_throw_witness :
  exists agents' w' a,
    rtc step (start 0 1 2 1, main_world) (agents', w') /\
    agents' !! 0%nat = Some a /\ pc a = AtRead /\
    forall a' w'' e, counting_step 0%nat a w' = Some (a', w'') -> pc a' <> Threw e.
Proof.
  pose proof main_world_guarded_start as Hstart.
  pose proof Hstart as (_ & _ & Hmb & Hfree & _).
  pose proof (rtc_nsteps_2 _ _ _
                (first_takes_lock 0 1
                   [{| counter := counter3_on 0 1; numUpdates := 1; pc := AtLoopTest |}]
                   1 main_world Hmb Hfree ltac:(lia))) as Hrun.
  eexists _, _, _. split; [exact Hrun|]. split; [reflexivity|]. split; [reflexivity|].
  exact (proj1 (proj2 (guarded_agents_do_not_throw 0 1 2 1 main_world _ _ 0%nat _
                         Hstart ltac:(lia) Hrun eq_refl))).
Defined.

(** X9.  No update is lost behind the lock: when [N] agents have each made
    their [K] calls of [increment()], however their steps were interleaved,
    the counter has moved by [N * K] (modulo 2^32), the lock is free and
    nobody is asleep on it; and the agents can get that far. *)
Theorem guarded_increments_are_not_lost (cb mb : nat) (N : nat) (K : Z) (w : world) :
  guarded_start cb mb w -> 0 <= K ->
  (forall agents' w',
     rtc step (start cb mb N K, w) (agents', w') -> Forall finished agents' ->
     counter_slot w' cb = (counter_slot w cb + Z.of_nat N * K) mod 2 ^ 32 /\
     lock_slot w' mb = Mutex.UNLOCKED /\ asleep_on w' mb = []) /\
  (exists agents' w',
     rtc step (start cb mb N K, w) (agents', w') /\ Forall finished agents').
Proof.
  intros Hstart HK. split.
  - intros agents' w' Hrun Hfin.
    pose proof (guarded_start_reachable cb mb N K w _ Hstart HK Hrun) as Hinv.
    apply (guarded_finished_state cb mb _ agents' w' Hinv Hfin).
  - destruct Hstart as (Hne & Hcb & Hmb & Hfree & _).
    destruct (agents_in_turn cb mb (Z.to_nat K) N [] w Hne Hcb Hmb Hfree) as (w' & Hrun).
    rewrite Z2Nat.id in Hrun by exact HK.
    eexists _, w'. split; [exact Hrun|].
    cbn [app]. clear. induction N as [|m IH]; cbn [repeat]; constructor; [|exact IH].
    split; [reflexivity | cbn; lia].
Qed.

(** The scenario of [main.js] with the guarded counter built over both
    buffers: four agents, 100,000 calls each, end at 400,000. *)
Lemma guarded_increments_are_not_lost_witness :
  exists agents' w',
    rtc step (start 0 1 4 100000, main_world) (agents', w') /\ Forall finished agents' /\
    counter_slot w' 0 = 400000.
Proof.
  pose proof (guarded_increments_are_not_lost 0 1 4 100000 main_world
                main_world_guarded_start ltac:(lia))
    as (Hall & agents' & w' & Hrun & Hfin).
  exists agents', w'. split; [exact Hrun|]. split; [exact Hfin|].
  destruct (Hall agents' w' Hrun Hfin) as (Hcount & _).
  rewrite Hcount. reflexivity.
Defined.

(** X10.  No deadlock and no lost wake-up: in every state the agents can
    reach, either all of them have made all their calls, or some agent can
    take a step; and while an agent is asleep on the lock slot, another one
    is awake that holds the lock, competes for it, or is about to notify. *)
Theorem guarded_agents_do_not_deadlock (cb mb : nat) (N : nat) (K : Z) (w : world)
        (agents' : list counting) (w' : world) :
  guarded_start cb mb w -> 0 <= K ->
  rtc step (start cb mb N K, w) (agents', w') ->
  (Forall finished agents' \/ exists s'', step (agents', w') s'') /\
  (asleep_on w' mb <> [] ->
   exists (i : nat) a, agents' !! i = Some a /\ awake_for_lock mb w' i a).
Proof.
  intros Hstart HK Hrun.
  pose proof (guarded_start_reachable cb mb N K w _ Hstart HK Hrun) as Hinv.
  split; [apply (guarded_progress cb mb _ agents' w' Hinv)|].
  destruct Hinv as (_ & _ & _ & _ & _ & _ & _ & _ & Hlive). exact Hlive.
Qed.

(** Two agents on the buffers of [main.js], the first holding the lock: not
    all are done, so one of them can move. *)
Lemma guarded_agents_do_not_deadlock_witness :
  exists agents' w',
    rtc step (start 0 1 2 1, main_world) (agents', w') /\
    (Forall finished agents' \/ exists s'', step (agents', w') s'').
Proof.
  pose proof main_world_guarded_start as Hstart.
  pose proof Hstart as (_ & _ & Hmb & Hfree & _).
  pose proof (rtc_nsteps_2 _ _ _
                (first_takes_lock 0 1
                   [{| counter := counter3_on 0 1; numUpdates := 1; pc := AtLoopTest |}]
                   1 main_world Hmb Hfree ltac:(lia))) as Hrun.
  eexists _, _. split; [exact Hrun|].
  exact (proj1 (guarded_agents_do_not_deadlock 0 1 2 1 main_world _ _
                  Hstart ltac:(lia) Hrun)).
Defined.

(** *** Every run comes to an end *)

Lemma total_bounds {A} (f : A -> Z) lo hi (l : list A) :
  (forall a, lo <= f a <= hi) ->
  lo * Z.of_nat (length l) <= total f l <= hi * Z.of_nat (length l).
Proof.
  intros Hf. induction l as [|x rest IH]; [cbn; lia|].
  rewrite total_cons. cbn [length]. pose proof (Hf x). lia.
Qed.

Lemma waiting_cost_range locked a : 0 <= waiting_cost locked a <= 3.
Proof. unfold waiting_cost. destruct (pc a) as [|[]| | | | |], locked; lia. Qed.

Lemma sleepers_are_agents cb mb T agents w :
  guarded_invariant cb mb T (agents, w) ->
  (length (asleep_on w mb) <= length agents)%nat.
Proof.
  intros (_ & _ & _ & _ & _ & _ & Hsleep & Hnodup & _). cbn [fst snd] in *.
  rewrite <- (length_seq (length agents) 0).
  apply submseteq_length, NoDup_submseteq; [exact Hnodup|].
  intros i Hi. apply list_elem_of_In in Hi.
  destruct (Hsleep i Hi) as (a & Ha & _).
  apply elem_of_seq. pose proof (lookup_lt_Some _ _ _ Ha). lia.
Qed.

(** A step forward in the call. *)
Lemma forward_move_decreases mb agents w i a a' w' :
  agents !! i = Some a ->
  steps_to_go a' = steps_to_go a - 1 ->
  (length (asleep_on w mb) <= S (length (asleep_on w' mb)))%nat ->
  guarded_measure mb (<[i := a']> agents, w') + 1 <= guarded_measure mb (agents, w).
Proof.
  intros Hi Hgo Hasleep. unfold guarded_measure. cbn [fst snd].
  rewrite length_insert, (total_insert steps_to_go agents i a a' Hi), Hgo.
  pose proof (total_bounds (waiting_cost (negb (lock_slot w mb =? Mutex.UNLOCKED))) 0 3 agents
                (waiting_cost_range _)) as [Hlo _].
  pose proof (total_bounds (waiting_cost (negb (lock_slot w' mb =? Mutex.UNLOCKED))) 0 3
                (<[i := a']> agents) (waiting_cost_range _)) as [_ Hhi].
  rewrite length_insert in Hhi.
  set (B := total steps_to_go agents) in *.
  set (n := Z.of_nat (length agents)) in *.
  replace (B - steps_to_go a + (steps_to_go a - 1)) with (B - 1) by lia.
  rewrite Z.mul_sub_distr_l. lia.
Qed.

(** A step inside [lock()] that does not get the lock. *)
Lemma waiting_move_decreases mb agents w i a a' w' :
  agents !! i = Some a ->
  lock_slot w' mb = lock_slot w mb ->
  steps_to_go a' = steps_to_go a ->
  waiting_cost (negb (lock_slot w mb =? Mutex.UNLOCKED)) a'
    - 3 * Z.of_nat (length (asleep_on w' mb)) + 1
  <= waiting_cost (negb (lock_slot w mb =? Mutex.UNLOCKED)) a
    - 3 * Z.of_nat (length (asleep_on w mb)) ->
  guarded_measure mb (<[i := a']> agents, w') + 1 <= guarded_measure mb (agents, w).
Proof.
  intros Hi Hlock Hgo Hcost. unfold guarded_measure. cbn [fst snd].
  rewrite length_insert, (total_insert steps_to_go agents i a a' Hi), Hgo, Hlock.
  rewrite (total_insert (waiting_cost _) agents i a a' Hi).
  replace (total steps_to_go agents - steps_to_go a + steps_to_go a)
    with (total steps_to_go agents) by lia.
  lia.
Qed.

Lemma guarded_move_decreases cb mb T agents w i a a' w' :
  guarded_invariant cb mb T (agents, w) -> agents !! i = Some a ->
  guarded_move cb mb i a w a' w' ->
  guarded_measure mb (<[i := a']> agents, w') + 1 <= guarded_measure mb (agents, w).
Proof.
  intros Hinv Hi Hmove.
  pose proof Hinv as (_ & _ & _ & _ & H01 & _). cbn [fst snd] in H01.
  destruct Hmove as [Hpc Hpos | Hpc Hfree | Hpc Hbusy | Hpc Hlocked | Hpc Hfree | Hpc Hnot
                     | Hpc | Hpc | Hpc Hlocked | Hpc Hnot | w' Hpc Hheap Hasleep].
  - apply (forward_move_decreases mb agents w i a _ w Hi); [|lia].
    unfold steps_to_go. rewrite Hpc. cbn [numUpdates pc]. lia.
  - apply (forward_move_decreases mb agents w i a _ _ Hi); [|apply Nat.le_succ_diag_r].
    unfold steps_to_go. rewrite Hpc. cbn [numUpdates pc at_place]. lia.
  - apply (waiting_move_decreases mb agents w i a _ w Hi); [reflexivity| |].
    + unfold steps_to_go. rewrite Hpc. reflexivity.
    + unfold waiting_cost. rewrite Hpc. cbn [pc at_place].
      destruct (Z.eqb_spec (lock_slot w mb) Mutex.UNLOCKED); [contradiction|].
      cbn [negb]. lia.
  - apply (waiting_move_decreases mb agents w i a _ _ Hi); [reflexivity| |].
    + unfold steps_to_go. rewrite Hpc. reflexivity.
    + rewrite asleep_on_wait, length_app. cbn [length].
      unfold waiting_cost. rewrite Hpc. cbn [pc at_place]. lia.
  - apply (waiting_move_decreases mb agents w i a _ w Hi); [reflexivity| |].
    + unfold steps_to_go. rewrite Hpc. reflexivity.
    + unfold waiting_cost. rewrite Hpc. cbn [pc at_place].
      destruct H01 as [H0|H1]; [|contradiction].
      rewrite H0. cbn. lia.
  - apply (waiting_move_decreases mb agents w i a _ w Hi); [reflexivity| |].
    + unfold steps_to_go. rewrite Hpc. reflexivity.
    + unfold waiting_cost. rewrite Hpc. cbn [pc at_place].
      destruct (negb _); lia.
  - apply (forward_move_decreases mb agents w i a _ w Hi); [|lia].
    unfold steps_to_go. rewrite Hpc. cbn [numUpdates pc at_place]. lia.
  - apply (forward_move_decreases mb agents w i a _ _ Hi); [|apply Nat.le_succ_diag_r].
    unfold steps_to_go. rewrite Hpc. cbn [numUpdates pc at_place]. lia.
  - apply (forward_move_decreases mb agents w i a _ _ Hi); [|apply Nat.le_succ_diag_r].
    unfold steps_to_go. rewrite Hpc. cbn [numUpdates pc at_place]. lia.
  - exfalso. apply Hnot.
    apply (holder_finds_locked cb mb T agents w i a Hinv Hi).
    unfold holds_lock. rewrite Hpc. reflexivity.
  - apply (forward_move_decreases mb agents w i a _ w' Hi).
    + unfold steps_to_go. rewrite Hpc. cbn [numUpdates pc at_place]. lia.
    + rewrite Hasleep, length_drop. lia.
Qed.

Lemma guarded_step_decreases cb mb T s s' :
  guarded_invariant cb mb T s -> step s s' ->
  guarded_measure mb s' + 1 <= guarded_measure mb s.
Proof.
  intros Hinv Hstep. destruct Hstep as [i a a' agents w w' Hi Ha].
  pose proof Hinv as (Hcb & Hmb & Hall & _). cbn [fst snd] in *.
  destruct (Hall i a Hi) as (Hc & _ & Hsound).
  apply (guarded_move_decreases cb mb T agents w i a a' w' Hinv Hi).
  apply counting_step_moves; assumption.
Qed.

Lemma guarded_run_decreases cb mb T n : forall s s',
  cb <> mb -> guarded_invariant cb mb T s -> nsteps step n s s' ->
  guarded_measure mb s' + Z.of_nat n <= guarded_measure mb s.
Proof.
  induction n as [|n IH]; intros s s' Hne Hinv Hrun.
  - inversion Hrun; subst. lia.
  - inversion Hrun as [|? ? s1 ? H1 Hrest]; subst.
    pose proof (guarded_step_decreases cb mb T s s1 Hinv H1).
    pose proof (IH s1 s' Hne (guarded_step_keeps cb mb T s s1 Hne Hinv H1) Hrest).
    lia.
Qed.

Lemma guarded_measure_floor cb mb T agents w :
  guarded_invariant cb mb T (agents, w) ->
  - 3 * Z.of_nat (length agents) <= guarded_measure mb (agents, w).
Proof.
  intros Hinv. pose proof (sleepers_are_agents cb mb T agents w Hinv) as Hsl.
  destruct Hinv as (_ & _ & Hall & _). cbn [fst snd] in Hall.
  unfold guarded_measure. cbn [fst snd].
  pose proof (total_bounds (waiting_cost (negb (lock_slot w mb =? Mutex.UNLOCKED))) 0 3 agents
                (waiting_cost_range _)) as [Hlo _].
  assert (Hgo : 0 <= total steps_to_go agents).
  { apply total_nonneg. apply Forall_lookup. intros i a Hi.
    destruct (Hall i a Hi) as (_ & Hn & _). unfold steps_to_go.
    destruct (pc a); lia. }
  nia.
Qed.

Lemma guarded_measure_start cb mb N K w :
  asleep_on w mb = [] ->
  guarded_measure mb (start cb mb N K, w)
  = (3 * Z.of_nat N + 4) * (6 * (Z.of_nat N * K)).
Proof.
  intros Hnobody. unfold guarded_measure, start. cbn [fst snd].
  rewrite Hnobody, repeat_length, !total_repeat.
  unfold steps_to_go, waiting_cost. cbn [pc numUpdates length]. lia.
Qed.

Lemma guarded_run_length n : forall (s s' : list counting * world),
  nsteps step n s s' -> length (fst s') = length (fst s).
Proof.
  induction n as [|n IH]; intros s s' Hrun.
  - inversion Hrun; subst. reflexivity.
  - inversion Hrun as [|? ? s1 ? H1 Hrest]; subst.
    rewrite (IH s1 s' Hrest). destruct H1. cbn [fst]. apply length_insert.
Qed.

(** X11.  Every run comes to an end: [N] agents that each make [K] calls of
    [increment()] on the guarded counter, from a free lock, take no more
    than [(3N + 4) * 6NK + 3N] steps in all, however the steps are
    interleaved; no agent spins or sleeps for ever. *)
Theorem guarded_runs_end (cb mb : nat) (N : nat) (K : Z) (w : world)
        (n : nat) (s' : list counting * world) :
  guarded_start cb mb w -> 0 <= K ->
  nsteps step n (start cb mb N K, w) s' ->
  Z.of_nat n <= (3 * Z.of_nat N + 4) * (6 * (Z.of_nat N * K)) + 3 * Z.of_nat N.
Proof.
  intros Hstart HK Hrun.
  pose proof (guarded_start_reachable cb mb N K w s' Hstart HK (rtc_nsteps_2 _ _ _ Hrun))
    as Hinv'.
  pose proof (guarded_run_length n _ _ Hrun) as Hlen.
  destruct Hstart as (Hne & Hcb & Hmb & Hfree & Hnobody).
  pose proof (guarded_run_decreases cb mb _ n _ s' Hne
                (guarded_start_invariant cb mb N K w Hcb Hmb Hfree Hnobody HK) Hrun) as Hdec.
  rewrite (guarded_measure_start cb mb N K w Hnobody) in Hdec.
  destruct s' as [agents' w'].
  pose proof (guarded_measure_floor cb mb _ agents' w' Hinv') as Hfloor.
  cbn [fst] in Hlen. unfold start in Hlen. rewrite repeat_length in Hlen.
  rewrite Hlen in Hfloor. lia.
Qed.

(** Two agents, one call each, on the buffers of [main.js]: the two steps
    that give the first agent the lock are within the bound of 126. *)
Lemma guarded_runs_end_witness :
  exists s', nsteps step 2 (start 0 1 2 1, main_world) s' /\ (2 <= 126)%Z.
Proof.
  pose proof main_world_guarded_start as Hstart.
  pose proof Hstart as (_ & _ & Hmb & Hfree & _).
  pose proof (first_takes_lock 0 1
                [{| counter := counter3_on 0 1; numUpdates := 1; pc := AtLoopTest |}]
                1 main_world Hmb Hfree ltac:(lia)) as Hrun.
  eexists. split; [exact Hrun|].
  exact (guarded_runs_end 0 1 2 1 main_world 2 _ Hstart ltac:(lia) Hrun).
Defined.

(** X12.  An agent that nobody interrupts makes one call of [increment()]
    in six steps (the test of the loop, the compare-and-swap of [lock()],
    the read, the write, the compare-and-swap of [unlock()], the
    notification), and these end in the world in which the method
    [increment()] of example 3 returns: the counter one higher (modulo
    2^32), the lock free again. *)
Theorem guarded_call_alone (cb mb : nat) (front back : list counting) (n : Z) (w : world) :
  cb <> mb -> usable_buffer w cb -> usable_buffer w mb ->
  lock_slot w mb = Mutex.UNLOCKED -> 0 < n ->
  exists w',
    CounterExample3.increment (length front) 1 (counter3_on cb mb) None w = Returned tt w' /\
    nsteps step 6
      (front ++ {| counter := counter3_on cb mb; numUpdates := n; pc := AtLoopTest |} :: back,
       w)
      (front ++ {| counter := counter3_on cb mb; numUpdates := n - 1; pc := AtLoopTest |}
             :: back, w') /\
    lock_slot w' mb = Mutex.UNLOCKED /\
    counter_slot w' cb = (counter_slot w cb + 1) mod 2 ^ 32.
Proof.
  intros Hne Hcb Hmb Hfree Hn.
  destruct (solo_call cb mb front back n w Hne Hcb Hmb Hfree Hn)
    as (w' & Hcall & Hrun & _ & _ & Hfree' & _ & Hcount).
  exists w'. auto.
Qed.

(** The first of two agents on the buffers of [main.js] makes its only call:
    the counter goes from 0 to 1. *)
Lemma guarded_call_alone_witness :
  exists w',
    CounterExample3.increment 0%nat 1 (counter3_on 0 1) None main_world = Returned tt w' /\
    nsteps step 6 (start 0 1 2 1, main_world)
      ([{| counter := counter3_on 0 1; numUpdates := 0; pc := AtLoopTest |};
        {| counter := counter3_on 0 1; numUpdates := 1; pc := AtLoopTest |}], w') /\
    counter_slot w' 0 = 1.
Proof.
  pose proof main_world_guarded_start as (Hne & Hcb & Hmb & Hfree & _).
  destruct (guarded_call_alone 0 1 []
              [{| counter := counter3_on 0 1; numUpdates := 1; pc := AtLoopTest |}]
              1 main_world Hne Hcb Hmb Hfree ltac:(lia))
    as (w' & Hcall & Hrun & _ & Hcount).
  exists w'. split; [exact Hcall|]. split; [exact Hrun|].
  rewrite Hcount. reflexivity.
Defined.
End GuardedInterleaving.

(** ** A click on "increment": the workers of [main.js] side by side *)

Section Session.
Import CounterJs CountingWorker MainJs.
Implicit Types (w : world) (cb i j : nat) (workers : list (worker example2)).

Lemma total_lookup_bounds {A} (f : A -> Z) lo hi (l : list A) :
  (forall (i : nat) a, l !! i = Some a -> lo <= f a <= hi) ->
  lo * Z.of_nat (length l) <= total f l <= hi * Z.of_nat (length l).
Proof.
  induction l as [|x rest IH]; intros Hf; [cbn; lia|].
  rewrite total_cons. cbn [length].
  pose proof (Hf 0%nat x eq_refl).
  assert (Hrest : forall (i : nat) a, rest !! i = Some a -> lo <= f a <= hi)
    by (intros i a Hi; apply (Hf (S i) a Hi)).
  specialize (IH Hrest). lia.
Qed.

Lemma total_lookup_part {A} (f : A -> Z) (l : list A) :
  (forall (j : nat) b, l !! j = Some b -> 0 <= f b) ->
  forall (i : nat) a, l !! i = Some a -> f a <= total f l.
Proof.
  induction l as [|x rest IH]; intros Hf i a Hi; [discriminate|].
  assert (Hrest : forall (j : nat) b, rest !! j = Some b -> 0 <= f b)
    by (intros j b Hj; apply (Hf (S j) b Hj)).
  rewrite total_cons. destruct i as [|i].
  - injection Hi as ->.
    assert (0 <= total f rest).
    { clear -Hrest. induction rest as [|y rest IH]; [cbn; lia|].
      rewrite total_cons. pose proof (Hrest 0%nat y eq_refl).
      assert (0 <= total f rest) by (apply IH; intros j b Hj; apply (Hrest (S j) b Hj)).
      lia. }
    lia.
  - specialize (IH Hrest i a Hi). pose proof (Hf 0%nat x eq_refl). lia.
Qed.

Lemma total_constant {A} (f : A -> Z) c (l : list A) :
  (forall (i : nat) a, l !! i = Some a -> f a = c) -> total f l = c * Z.of_nat (length l).
Proof.
  intros Hf.
  pose proof (total_lookup_bounds f c c l) as H.
  assert (forall (i : nat) a, l !! i = Some a -> c <= f a <= c)
    by (intros i a Hi; rewrite (Hf i a Hi); lia).
  specialize (H ltac:(assumption)). lia.
Qed.

Lemma counted_range cb mutexBuffer lo hi a :
  sound_worker cb mutexBuffer lo hi a -> 0 <= counted a <= 100000.
Proof.
  unfold sound_worker, counted. intros [_ H].
  destruct (pc a); [destruct (inbox a)| | | |]; lia.
Qed.

Lemma read_or_not workers :
  (exists i a, workers !! i = Some a /\ has_read a = false)
  \/ (forall i a, workers !! i = Some a -> has_read a = true).
Proof.
  induction workers as [|x rest IH]; [right; intros i a H; discriminate|].
  destruct (has_read x) eqn:Hx; [|left; exists 0%nat, x; auto].
  destruct IH as [(i & a & Hi & Ha)|IH]; [left; exists (S i), a; auto|].
  right. intros [|i] a Hi; [injection Hi as <-; exact Hx | apply (IH i a Hi)].
Qed.

Lemma has_read_counted cb mutexBuffer lo hi a :
  sound_worker cb mutexBuffer lo hi a -> has_read a = true -> counted a = 100000.
Proof.
  unfold sound_worker, counted, has_read. intros [_ H].
  destruct (pc a); [destruct (inbox a)| | | |]; intros; try discriminate; reflexivity.
Qed.

(** The invariant after a step of worker [i], from what the step does to
    the worker and to the world. *)
Lemma session_frame cb mutexBuffer c0 workers w i a a' w' :
  session_invariant cb mutexBuffer c0 (workers, w) -> workers !! i = Some a ->
  usable_buffer w' cb ->
  sound_worker cb mutexBuffer (c0 + 100000) (c0 + Z.of_nat (length workers) * 100000) a' ->
  counter_slot w' cb = counter_slot w cb + counted a' - counted a ->
  ((outbox w' = outbox w /\ has_posted a' = has_posted a) \/
   (exists v, pc a = AtPost v /\ outbox w' = outbox w ++ [{| done := true; count := v |}] /\
              has_posted a' = 1)) ->
  ((exists j b, <[i := a']> workers !! j = Some b /\ has_read b = false) \/
   (exists j b,
      <[i := a']> workers !! j = Some b /\
      pc b = AtPost (VNumber (c0 + Z.of_nat (length workers) * 100000))) \/
   (exists r, In r (outbox w') /\
              count r = VNumber (c0 + Z.of_nat (length workers) * 100000))) ->
  session_invariant cb mutexBuffer c0 (<[i := a']> workers, w').
Proof.
  intros (Hcb & Hall & Hcount & Hout & Hlen & Hfinal) Hi. cbn [fst snd] in *.
  intros Hcb' Hsound' Hcount' Hout' Hfinal'.
  unfold session_invariant. cbn [fst snd]. rewrite length_insert.
  split; [exact Hcb'|]. split; [|split; [|split; [|split]]].
  - intros j b Hj. apply list_lookup_insert_Some in Hj as [(-> & <- & _)|[_ Hj]].
    + exact Hsound'.
    + apply (Hall j b Hj).
  - rewrite (total_insert counted workers i a a' Hi). lia.
  - destruct Hout' as [[-> _]|(v & Hpc & -> & _)]; [exact Hout|].
    apply Forall_app. split; [exact Hout|]. constructor; [|constructor].
    cbn [done count]. split; [reflexivity|].
    destruct (Hall i a Hi) as [_ Ha]. rewrite Hpc in Ha. apply Ha.
  - rewrite (total_insert has_posted workers i a a' Hi).
    destruct Hout' as [[-> ->]|(v & Hpc & -> & ->)]; [lia|].
    rewrite length_app. cbn [length].
    assert (has_posted a = 0) by (unfold has_posted; rewrite Hpc; reflexivity). lia.
  - exact Hfinal'.
Qed.

(** A step after which the worker has still to read the counter. *)
Lemma session_frame_unread cb mutexBuffer c0 workers w i a a' w' :
  session_invariant cb mutexBuffer c0 (workers, w) -> workers !! i = Some a ->
  usable_buffer w' cb ->
  sound_worker cb mutexBuffer (c0 + 100000) (c0 + Z.of_nat (length workers) * 100000) a' ->
  counter_slot w' cb = counter_slot w cb + counted a' - counted a ->
  outbox w' = outbox w -> has_posted a' = has_posted a ->
  has_read a' = false ->
  session_invariant cb mutexBuffer c0 (<[i := a']> workers, w').
Proof.
  intros Hinv Hi Hcb' Hsound' Hcount' Hout' Hposted Hread.
  apply (session_frame cb mutexBuffer c0 workers w i a a' w' Hinv Hi); try assumption.
  - left. auto.
  - left. exists i, a'. split; [|exact Hread].
    apply list_lookup_insert_eq. apply (lookup_lt_Some _ _ _ Hi).
Qed.

Lemma session_step_keeps cb mutexBuffer c0 s s' :
  c0 + Z.of_nat (length (fst s)) * 100000 < 2 ^ 32 ->
  session_invariant cb mutexBuffer c0 s -> step s s' ->
  session_invariant cb mutexBuffer c0 s'.
Proof.
  intros Hroom Hinv Hstep. destruct Hstep as [i a a' workers w w' Hi Hstep].
  cbn [fst] in Hroom.
  pose proof Hinv as (Hcb & Hall & Hcount & Hout & Hlen & Hfinal). cbn [fst snd] in *.
  pose proof (Hall i a Hi) as Hsound.
  pose proof (total_lookup_bounds counted 0 100000 workers
                (fun j b Hj => counted_range _ _ _ _ b (Hall j b Hj))) as Htotal.
  pose proof (total_lookup_bounds counted 0 100000 (<[i := a']> workers)) as Htotal'.
  rewrite length_insert, (total_insert counted workers i a a' Hi) in Htotal'.
  destruct Hsound as [Hun Hplace].
  unfold worker_step in Hstep.
  destruct (pc a) as [|counter op|counter op n|counter|v] eqn:Hpc.
  - (* the request is taken up *)
    destruct Hplace as [Hin|Hin]; rewrite Hin in Hstep; [discriminate|].
    unfold run in Hstep.
    cbn [new example2 sharedCounterBuffer operation increment_request_on argument nth]
      in Hstep.
    rewrite Counter2_constructor_usable in Hstep by exact Hcb.
    change (is_string (VString "increment") "increment") with true in Hstep.
    cbv iota in Hstep. injection Hstep as <- <-.
    apply (session_frame_unread cb mutexBuffer c0 workers w i a _ w Hinv Hi);
      try reflexivity; try assumption.
    + split; [exact Hun|]. cbn. auto.
    + unfold counted. rewrite Hpc, Hin. cbn. lia.
    + unfold has_posted. rewrite Hpc, Hin. reflexivity.
  - (* the first line of the console *)
    destruct Hplace as (Hin & -> & ->).
    unfold run, console_log in Hstep. injection Hstep as <- <-.
    apply (session_frame_unread cb mutexBuffer c0 workers w i a); try reflexivity;
      try assumption.
    + split; [exact Hun|]. cbn. split; [exact Hin|]. split; [reflexivity|]. split; [reflexivity|].
      lia.
    + change (counter_slot _ cb) with (counter_slot w cb) at 1.
      unfold counted. rewrite Hpc. cbn. lia.
    + unfold has_posted. rewrite Hpc. reflexivity.
  - destruct Hplace as (Hin & -> & -> & Hn).
    destruct (Z.ltb_spec 0 n) as [Hpos|Hzero].
    + (* one update *)
      unfold run in Hstep. cbn [increment example2] in Hstep.
      rewrite (Counter2_increment_usable w cb None Hcb) in Hstep.
      injection Hstep as <- <-.
      assert (Hsound' : sound_worker cb mutexBuffer (c0 + 100000)
                          (c0 + Z.of_nat (length workers) * 100000)
                          (moved a (@InLoop example2 (counter2_on cb) Increment (n - 1)))).
      { split; [exact Hun|]. cbn. split; [exact Hin|]. split; [reflexivity|].
        split; [reflexivity|]. lia. }
      assert (Hc' : counted (moved a (@InLoop example2 (counter2_on cb) Increment (n - 1)))
                    = counted a + 1).
      { unfold counted. rewrite Hpc. cbn [moved pc]. lia. }
      specialize (Htotal' ltac:(intros j b Hj;
        apply list_lookup_insert_Some in Hj as [(_ & <- & _)|[_ Hj]];
        [exact (counted_range _ _ _ _ _ Hsound')
        |exact (counted_range _ _ _ _ b (Hall j b Hj))])).
      pose proof (usable_in_range w cb Uint32 Hcb) as Hrange.
      apply (session_frame_unread cb mutexBuffer c0 workers w i a); try reflexivity;
        try assumption.
      * apply usable_write; assumption.
      * rewrite counter_slot_write by exact Hcb. change (default 1 None) with 1.
        rewrite Z.mod_mod by lia. rewrite Z.mod_small; [lia|].
        pose proof (counter_slot_range w cb). lia.
      * unfold has_posted. rewrite Hpc. reflexivity.
    + (* the loop is over: the second line of the console *)
      unfold run, console_log in Hstep. injection Hstep as <- <-.
      apply (session_frame_unread cb mutexBuffer c0 workers w i a); try reflexivity;
        try assumption.
      * split; [exact Hun|]. cbn. auto.
      * change (counter_slot _ cb) with (counter_slot w cb) at 1.
        unfold counted. rewrite Hpc. cbn. lia.
      * unfold has_posted. rewrite Hpc. reflexivity.
  - (* the count is read *)
    destruct Hplace as (Hin & ->).
    unfold run in Hstep. cbn [value example2] in Hstep.
    rewrite (Counter2_value_usable w cb Hcb) in Hstep. injection Hstep as <- <-.
    assert (Hca : counted a = 100000) by (unfold counted; rewrite Hpc; reflexivity).
    assert (Hlow : counted a <= total counted workers).
    { refine (total_lookup_part counted workers _ i a Hi).
      intros j b Hj. apply (counted_range _ _ _ _ b (Hall j b Hj)). }
    apply (session_frame cb mutexBuffer c0 workers w i a _ w Hinv Hi).
    + exact Hcb.
    + split; [exact Hun|]. cbn. split; [exact Hin|].
      exists (counter_slot w cb). split; [reflexivity|]. lia.
    + unfold counted at 1. cbn [moved pc]. lia.
    + left. split; [reflexivity|]. unfold has_posted. rewrite Hpc. reflexivity.
    + destruct (read_or_not
                  (<[i := (moved a (AtPost (VNumber (counter_slot w cb))))]> workers))
        as [Hsome|Hnone]; [left; exact Hsome|].
      right. left. exists i. eexists. split.
      { apply list_lookup_insert_eq. apply (lookup_lt_Some _ _ _ Hi). }
      cbn [moved pc]. do 2 f_equal. rewrite Hcount. f_equal.
      rewrite <- (list_insert_id workers i a Hi).
      rewrite (total_constant counted 100000 (<[i := a]> workers)).
      * rewrite length_insert. lia.
      * intros j b Hj. apply list_lookup_insert_Some in Hj as [(_ & <- & _)|[Hne Hj]];
          [exact Hca|].
        apply (has_read_counted _ _ _ _ b (Hall j b Hj)).
        apply (Hnone j b). rewrite list_lookup_insert_ne by exact Hne. exact Hj.
  - (* the report is posted *)
    destruct Hplace as (Hin & Hv).
    unfold run, postMessage in Hstep. injection Hstep as <- <-.
    apply (session_frame cb mutexBuffer c0 workers w i a _ _ Hinv Hi).
    + exact Hcb.
    + split; [exact Hun|]. cbn. left. exact Hin.
    + change (counter_slot _ cb) with (counter_slot w cb) at 1.
      unfold counted. cbn [moved pc inbox]. rewrite Hpc, Hin. lia.
    + right. exists v. split; [exact Hpc|]. split; [reflexivity|].
      unfold has_posted. cbn [moved pc inbox]. rewrite Hin. reflexivity.
    + destruct Hfinal as [(j & b & Hj & Hb)|[(j & b & Hj & Hb)|(r & Hr & Hrc)]].
      * left. exists j, b. split; [|exact Hb].
        rewrite list_lookup_insert_ne; [exact Hj|].
        intros <-. assert (b = a) by congruence. subst b.
        unfold has_read in Hb. rewrite Hpc in Hb. discriminate.
      * destruct (Nat.eq_dec i j) as [<-|Hne].
        -- right. right. assert (b = a) by congruence. subst b.
           rewrite Hpc in Hb. injection Hb as ->.
           eexists. cbn [outbox]. split; [apply in_app_iff; right; left; reflexivity|].
           reflexivity.
        -- right. left. exists j, b. split; [|exact Hb].
           rewrite list_lookup_insert_ne by exact Hne. exact Hj.
      * right. right. exists r. split; [|exact Hrc].
        cbn [outbox]. apply in_app_iff. left. exact Hr.
Qed.

Lemma session_run_keeps cb mutexBuffer c0 s s' :
  c0 + Z.of_nat (length (fst s)) * 100000 < 2 ^ 32 ->
  session_invariant cb mutexBuffer c0 s -> rtc step s s' ->
  session_invariant cb mutexBuffer c0 s' /\ length (fst s') = length (fst s).
Proof.
  intros Hroom Hinv Hrun. induction Hrun as [s|s s1 s' H1 _ IH]; [auto|].
  assert (Hlen : length (fst s1) = length (fst s))
    by (destruct H1; cbn [fst]; apply length_insert).
  destruct IH as [IH1 IH2].
  - rewrite Hlen. exact Hroom.
  - apply (session_step_keeps cb mutexBuffer c0 s s1 Hroom Hinv H1).
  - split; [exact IH1|]. rewrite IH2. exact Hlen.
Qed.

Lemma clicked_increment_requested cb mutexBuffer N :
  clicked_increment cb mutexBuffer N
  = map (fun i => requested ("Worker #" ++ NilZero.string_of_uint (Nat.to_uint i))
                            cb mutexBuffer) (seq 0 N).
Proof.
  unfold clicked_increment, triggerConcurrentIncrements, initWorkers.
  rewrite map_map. reflexivity.
Qed.

Lemma clicked_increment_lookup cb mutexBuffer N i a :
  clicked_increment cb mutexBuffer N !! i = Some a ->
  exists nm, a = requested nm cb mutexBuffer.
Proof.
  rewrite clicked_increment_requested. intros H.
  apply list_elem_of_lookup_2, list_elem_of_In, in_map_iff in H as (k & <- & _).
  eexists. reflexivity.
Qed.

Lemma clicked_increment_length cb mutexBuffer N :
  length (clicked_increment cb mutexBuffer N) = N.
Proof. rewrite clicked_increment_requested, length_map, length_seq. reflexivity. Qed.

Lemma session_start_invariant cb mutexBuffer c0 N w :
  (1 <= N)%nat -> session_start cb c0 N w ->
  session_invariant cb mutexBuffer c0 (clicked_increment cb mutexBuffer N, w).
Proof.
  intros HN (Hcb & Hc0 & Hroom & Hout).
  unfold session_invariant. cbn [fst snd]. rewrite clicked_increment_length.
  split; [exact Hcb|]. split; [|split; [|split; [|split]]].
  - intros i a Hi. destruct (clicked_increment_lookup cb mutexBuffer N i a Hi) as [nm ->].
    split; [reflexivity|]. cbn. right. reflexivity.
  - rewrite (total_constant counted 0); [lia|].
    intros i a Hi. destruct (clicked_increment_lookup cb mutexBuffer N i a Hi) as [nm ->].
    reflexivity.
  - rewrite Hout. constructor.
  - rewrite Hout. rewrite (total_constant has_posted 0); [cbn; lia|].
    intros i a Hi. destruct (clicked_increment_lookup cb mutexBuffer N i a Hi) as [nm ->].
    reflexivity.
  - left. destruct (lookup_lt_is_Some_2 (clicked_increment cb mutexBuffer N) 0) as [a Ha].
    { rewrite clicked_increment_length. lia. }
    exists 0%nat, a. split; [exact Ha|].
    destruct (clicked_increment_lookup cb mutexBuffer N 0 a Ha) as [nm ->]. reflexivity.
Qed.

Lemma session_reachable cb mutexBuffer c0 N w workers' w' :
  (1 <= N)%nat -> session_start cb c0 N w ->
  rtc step (clicked_increment cb mutexBuffer N, w) (workers', w') ->
  session_invariant cb mutexBuffer c0 (workers', w') /\ length workers' = N.
Proof.
  intros HN Hstart Hrun.
  pose proof (session_start_invariant cb mutexBuffer c0 N w HN Hstart) as Hinv.
  destruct Hstart as (_ & _ & Hroom & _).
  assert (Hroom' : c0 + Z.of_nat (length (fst (clicked_increment cb mutexBuffer N, w)))
                        * 100000 < 2 ^ 32)
    by (cbn [fst]; rewrite clicked_increment_length; exact Hroom).
  destruct (session_run_keeps cb mutexBuffer c0 _ _ Hroom' Hinv Hrun) as [Hinv' Hlen].
  split; [exact Hinv'|]. cbn [fst] in Hlen. rewrite Hlen. apply clicked_increment_length.
Qed.

Lemma session_at_rest cb mutexBuffer c0 workers w :
  session_invariant cb mutexBuffer c0 (workers, w) -> Forall at_rest workers ->
  length (outbox w) = length workers /\
  counter_slot w cb = c0 + Z.of_nat (length workers) * 100000 /\
  exists r, In r (outbox w) /\
            count r = VNumber (c0 + Z.of_nat (length workers) * 100000).
Proof.
  intros (_ & _ & Hcount & _ & Hlen & Hfinal) Hrest. cbn [fst snd] in *.
  assert (Hat : forall (i : nat) a, workers !! i = Some a -> pc a = Idle /\ inbox a = []).
  { intros i a Hi. apply list_elem_of_lookup_2 in Hi.
    apply (proj1 (Forall_forall _ _) Hrest a Hi). }
  split; [|split].
  - rewrite (total_constant has_posted 1) in Hlen; [lia|].
    intros i a Hi. destruct (Hat i a Hi) as [Hpc Hin].
    unfold has_posted. rewrite Hpc, Hin. reflexivity.
  - rewrite Hcount, (total_constant counted 100000); [lia|].
    intros i a Hi. destruct (Hat i a Hi) as [Hpc Hin].
    unfold counted. rewrite Hpc, Hin. reflexivity.
  - destruct Hfinal as [(i & a & Hi & Ha)|[(i & a & Hi & Ha)|Hr]]; [| |exact Hr].
    + destruct (Hat i a Hi) as [Hpc Hin]. unfold has_read in Ha.
      rewrite Hpc, Hin in Ha. discriminate.
    + destruct (Hat i a Hi) as [Hpc Hin]. congruence.
Qed.

(** *** One worker on its own *)

Lemma session_step_in_place (front back : list (worker example2)) a a' w w' :
  worker_step a w = Some (a', w') ->
  step (front ++ a :: back, w) (front ++ a' :: back, w').
Proof.
  intros H.
  replace (front ++ a' :: back) with (<[length front := a']> (front ++ a :: back)).
  - eapply step_worker; [|exact H]. apply list_lookup_middle. reflexivity.
  - rewrite insert_app_r_alt by lia. rewrite Nat.sub_diag. reflexivity.
Qed.

Lemma loop_alone cb nm (k : nat) : forall (front back : list (worker example2)) w,
  usable_buffer w cb -> counter_slot w cb + Z.of_nat k < 2 ^ 32 ->
  exists w',
    rtc step
      (front ++ handling nm (@InLoop example2 (counter2_on cb) Increment (Z.of_nat k)) :: back, w)
      (front ++ handling nm (@InLoop example2 (counter2_on cb) Increment 0) :: back, w') /\
    usable_buffer w' cb /\ counter_slot w' cb = counter_slot w cb + Z.of_nat k /\
    outbox w' = outbox w.
Proof.
  induction k as [|k IH]; intros front back w Hcb Hroom.
  - exists w. split; [apply rtc_refl|]. split; [exact Hcb|]. split; [cbn; lia | reflexivity].
  - pose proof (counter_slot_range w cb) as Hrange.
    pose proof (usable_in_range w cb Uint32 Hcb) as Hr.
    set (w1 := write_raw w (View Uint32 cb) 0 ((counter_slot w cb + 1) mod 2 ^ 32)).
    assert (Hcb1 : usable_buffer w1 cb) by (apply usable_write; assumption).
    assert (Hc1 : counter_slot w1 cb = counter_slot w cb + 1).
    { unfold w1. rewrite counter_slot_write by exact Hcb.
      rewrite Z.mod_mod by lia. apply Z.mod_small. lia. }
    destruct (IH front back w1 Hcb1 ltac:(lia)) as (w' & Hrun & Hcb' & Hc' & Hout').
    exists w'. split; [|split; [exact Hcb'|split; [lia | exact Hout']]].
    eapply rtc_l; [|exact Hrun].
    apply session_step_in_place. unfold worker_step. cbn [handling pc].
    destruct (Z.ltb_spec 0 (Z.of_nat (S k))); [|lia].
    unfold run. cbn [increment example2].
    rewrite (Counter2_increment_usable w cb None Hcb).
    unfold moved. cbn [handling name inbox uncaught]. change (default 1 None) with 1.
    fold w1. replace (Z.of_nat (S k) - 1) with (Z.of_nat k) by lia. reflexivity.
Qed.

(** The worker handles its request up to the reading of the count. *)
Lemma reads_alone cb mutexBuffer nm (front back : list (worker example2)) w :
  usable_buffer w cb -> counter_slot w cb + 100000 < 2 ^ 32 ->
  exists w',
    rtc step
      (front ++ requested nm cb mutexBuffer :: back, w)
      (front ++ handling nm (AtPost (VNumber (counter_slot w cb + 100000))) :: back, w') /\
    usable_buffer w' cb /\ counter_slot w' cb = counter_slot w cb + 100000 /\
    outbox w' = outbox w.
Proof.
  intros Hcb Hroom.
  set (w1 := {| heap := heap w; waiters := waiters w;
                console := console w ++ ["Incrementing.."]; outbox := outbox w |}).
  assert (Hcb1 : usable_buffer w1 cb) by exact Hcb.
  destruct (loop_alone cb nm (Z.to_nat 100000) front back w1 Hcb1)
    as (w2 & Hloop & Hcb2 & Hc2 & Hout2).
  { rewrite Z2Nat.id by lia. exact Hroom. }
  rewrite Z2Nat.id in Hloop, Hc2 by lia.
  change (counter_slot w1 cb) with (counter_slot w cb) in Hc2.
  set (w3 := {| heap := heap w2; waiters := waiters w2;
                console := console w2 ++ [(nm ++ " is done counting!")%string];
                outbox := outbox w2 |}).
  assert (Hcb3 : usable_buffer w3 cb) by exact Hcb2.
  exists w3. split; [|split; [exact Hcb3|split; [exact Hc2 | exact Hout2]]].
  eapply rtc_l.
  { apply session_step_in_place. unfold worker_step. cbn [requested pc inbox].
    unfold run.
    cbn [new example2 sharedCounterBuffer operation increment_request_on argument nth].
    rewrite Counter2_constructor_usable by exact Hcb.
    change (is_string (VString "increment") "increment") with true. cbv iota.
    unfold moved. cbn [name inbox uncaught]. reflexivity. }
  eapply rtc_l.
  { apply session_step_in_place. unfold worker_step. cbn [pc].
    unfold run, console_log, moved. cbn [name inbox uncaught]. reflexivity. }
  eapply rtc_trans; [exact Hloop|].
  eapply rtc_l.
  { apply session_step_in_place. unfold worker_step. cbn [handling pc].
    destruct (Z.ltb_spec 0 0); [lia|].
    unfold run, console_log, moved. cbn [name inbox uncaught]. reflexivity. }
  eapply rtc_l; [|apply rtc_refl].
  apply session_step_in_place. unfold worker_step. cbn [pc].
  unfold run. cbn [value example2].
  rewrite Counter2_value_usable by exact Hcb3.
  unfold moved. cbn [name inbox uncaught].
  change (counter_slot _ cb) with (counter_slot w2 cb) at 1. rewrite Hc2. reflexivity.
Qed.

Lemma posts_alone nm v (front back : list (worker example2)) w :
  step (front ++ handling nm (AtPost v) :: back, w)
       (front ++ handling nm Idle :: back,
        {| heap := heap w; waiters := waiters w; console := console w;
           outbox := outbox w ++ [{| done := true; count := v |}] |}).
Proof.
  apply session_step_in_place. unfold worker_step. cbn [handling pc].
  unfold run, postMessage, moved. cbn [name inbox uncaught]. reflexivity.
Qed.

(** One worker after the other handles its request from beginning to end. *)
Lemma workers_in_turn_session cb mutexBuffer (names : list string) :
  forall (front : list (worker example2)) w,
    usable_buffer w cb -> counter_slot w cb + Z.of_nat (length names) * 100000 < 2 ^ 32 ->
    exists w' reports,
      rtc step
        (front ++ map (fun nm => requested nm cb mutexBuffer) names, w)
        (front ++ map (fun nm => handling nm Idle) names, w') /\
      usable_buffer w' cb /\ outbox w' = outbox w ++ reports.
Proof.
  induction names as [|nm names IH]; intros front w Hcb Hroom.
  - exists w, []. split; [apply rtc_refl|]. split; [exact Hcb|].
    rewrite app_nil_r. reflexivity.
  - cbn [map length] in *.
    destruct (reads_alone cb mutexBuffer nm front
                (map (fun nm => requested nm cb mutexBuffer) names) w Hcb ltac:(lia))
      as (w1 & Hrun1 & Hcb1 & Hc1 & Hout1).
    set (w2 := {| heap := heap w1; waiters := waiters w1; console := console w1;
                  outbox := outbox w1
                            ++ [{| done := true;
                                   count := VNumber (counter_slot w cb + 100000) |}] |}).
    assert (Hcb2 : usable_buffer w2 cb) by exact Hcb1.
    destruct (IH (front ++ [handling nm Idle]) w2 Hcb2) as (w' & reports & Hrun & Hcb' & Hout').
    { change (counter_slot w2 cb) with (counter_slot w1 cb). lia. }
    exists w', ({| done := true; count := VNumber (counter_slot w cb + 100000) |} :: reports).
    split; [|split; [exact Hcb'|]].
    + eapply rtc_trans; [exact Hrun1|].
      eapply rtc_l; [apply posts_alone|].
      rewrite <- !(app_assoc front [_]) in Hrun. exact Hrun.
    + rewrite Hout'. unfold w2. cbn [outbox]. rewrite Hout1, <- app_assoc. reflexivity.
Qed.

Lemma handled_at_rest (names : list string) :
  Forall at_rest (map (fun nm => handling nm Idle) names).
Proof. induction names; constructor; [split; reflexivity | assumption]. Qed.

Lemma main_world_session_start : session_start 0 0 4 main_world.
Proof.
  split; [split; vm_compute; [discriminate | reflexivity]|].
  split; [reflexivity|]. split; reflexivity.
Qed.

(** The run in which the first worker reads the counter as soon as it has
    made its own updates, and posts what it read after all the others. *)
Lemma stale_run cb mutexBuffer c0 N w :
  (1 <= N)%nat -> session_start cb c0 N w ->
  exists workers' w' reports,
    rtc step (clicked_increment cb mutexBuffer N, w) (workers', w') /\
    Forall at_rest workers' /\
    outbox w' = reports ++ [{| done := true; count := VNumber (c0 + 100000) |}].
Proof.
  intros HN (Hcb & Hc0 & Hroom & Hout).
  destruct N as [|N]; [lia|].
  rewrite clicked_increment_requested. cbn [seq map].
  set (nm0 := ("Worker #" ++ NilZero.string_of_uint (Nat.to_uint 0))%string).
  set (names := map (fun i => ("Worker #" ++ NilZero.string_of_uint (Nat.to_uint i))%string)
                    (seq 1 N)).
  assert (Hnames : map (fun i => requested ("Worker #" ++ NilZero.string_of_uint
                                                          (Nat.to_uint i)) cb mutexBuffer)
                       (seq 1 N)
                   = map (fun nm => requested nm cb mutexBuffer) names).
  { unfold names. rewrite map_map. reflexivity. }
  rewrite Hnames.
  assert (Hlen : length names = N) by (unfold names; rewrite length_map, length_seq; reflexivity).
  destruct (reads_alone cb mutexBuffer nm0 []
              (map (fun nm => requested nm cb mutexBuffer) names) w Hcb ltac:(lia))
    as (w1 & Hrun1 & Hcb1 & Hc1 & Hout1).
  destruct (workers_in_turn_session cb mutexBuffer names
              [handling nm0 (AtPost (VNumber (counter_slot w cb + 100000)))] w1 Hcb1)
    as (w2 & reports & Hrun2 & Hcb2 & Hout2).
  { rewrite Hlen. lia. }
  eexists _, _, reports. split; [|split].
  - eapply rtc_trans; [exact Hrun1|]. eapply rtc_trans; [exact Hrun2|].
    eapply rtc_l; [|apply rtc_refl].
    apply (posts_alone nm0 _ [] (map (fun nm => handling nm Idle) names) w2).
  - cbn [app]. constructor; [split; reflexivity | apply handled_at_rest].
  - cbn [outbox]. rewrite Hout2, Hout1, Hout, Hc0. reflexivity.
Qed.

(** X13.  A click on "increment" with the atomic counter, from a count [c0]
    with room for the updates below 2^32: whatever the interleaving of the
    [N >= 1] workers, no handler throws; every report posted so far has
    [done] set and a count from [c0 + 100000] to [c0 + N * 100000]; and when
    all workers are at rest there are [N] reports, the counter holds
    [c0 + N * 100000], and at least one report carries that count. *)
Theorem increment_session_reports (cb : nat) (mutexBuffer : JS.value) (c0 : Z) (N : nat)
        (w : world) (workers' : list (worker example2)) (w' : world) :
  (1 <= N)%nat -> session_start cb c0 N w ->
  rtc step (clicked_increment cb mutexBuffer N, w) (workers', w') ->
  (forall (i : nat) a, workers' !! i = Some a -> uncaught a = []) /\
  Forall (fun r => done r = true /\
                   count_within (c0 + 100000) (c0 + Z.of_nat N * 100000) (count r))
         (outbox w') /\
  (Forall at_rest workers' ->
   length (outbox w') = N /\
   counter_slot w' cb = c0 + Z.of_nat N * 100000 /\
   exists r, In r (outbox w') /\ count r = VNumber (c0 + Z.of_nat N * 100000)).
Proof.
  intros HN Hstart Hrun.
  destruct (session_reachable cb mutexBuffer c0 N w workers' w' HN Hstart Hrun)
    as [Hinv Hlen].
  split; [|split].
  - intros i a Hi. destruct Hinv as (_ & Hall & _). cbn [fst snd] in Hall.
    apply (Hall i a Hi).
  - destruct Hinv as (_ & _ & _ & Hout & _). cbn [fst snd] in Hout.
    rewrite Hlen in Hout. exact Hout.
  - intros Hrest.
    pose proof (session_at_rest cb mutexBuffer c0 workers' w' Hinv Hrest) as H.
    rewrite Hlen in H. exact H.
Qed.

(** The four workers of [main.js] on its fresh buffers: they can all come to
    rest, and then four reports have been posted, the counter holds 400,000
    and one report says so. *)
Lemma increment_session_reports_witness :
  exists workers' w',
    rtc step (clicked_increment 0 (VSharedArrayBuffer 1) 4, main_world) (workers', w') /\
    length (outbox w') = 4%nat /\ counter_slot w' 0 = 400000 /\
    exists r, In r (outbox w') /\ count r = VNumber 400000.
Proof.
  destruct (stale_run 0 (VSharedArrayBuffer 1) 0 4 main_world ltac:(lia)
              main_world_session_start) as (workers' & w' & reports & Hrun & Hrest & _).
  exists workers', w'. split; [exact Hrun|].
  exact (proj2 (proj2 (increment_session_reports 0 (VSharedArrayBuffer 1) 0 4 main_world
                         workers' w' ltac:(lia) main_world_session_start Hrun)) Hrest).
Defined.

(** X14.  What the page shows at the end need not be the final count, even
    with the atomic counter: a worker reads [counter.value] and posts it in
    two steps, so of [N >= 2] workers one can read after its own 100,000
    updates and post after all the others.  The reports then come to rest
    with the counter at [c0 + N * 100000] and [c0 + 100000] on show. *)
Theorem last_report_can_be_stale (cb : nat) (mutexBuffer : JS.value) (c0 : Z) (N : nat)
        (w : world) :
  (2 <= N)%nat -> session_start cb c0 N w ->
  exists workers' w',
    rtc step (clicked_increment cb mutexBuffer N, w) (workers', w') /\
    Forall at_rest workers' /\
    counter_slot w' cb = c0 + Z.of_nat N * 100000 /\
    shown_after (outbox w') = Some (VNumber (c0 + 100000)) /\
    c0 + 100000 < counter_slot w' cb.
Proof.
  intros HN Hstart.
  destruct (stale_run cb mutexBuffer c0 N w ltac:(lia) Hstart)
    as (workers' & w' & reports & Hrun & Hrest & Hout).
  destruct (session_reachable cb mutexBuffer c0 N w workers' w' ltac:(lia) Hstart Hrun)
    as [Hinv Hlen].
  destruct (session_at_rest cb mutexBuffer c0 workers' w' Hinv Hrest) as (_ & Hcount & _).
  rewrite Hlen in Hcount.
  exists workers', w'. split; [exact Hrun|]. split; [exact Hrest|]. split; [exact Hcount|].
  split; [|lia].
  rewrite Hout. unfold shown_after. rewrite foldl_snoc. reflexivity.
Qed.

(** The four workers of [main.js] on its fresh buffers can leave 100,000 on
    show with 400,000 in the counter. *)
Lemma last_report_can_be_stale_witness :
  exists workers' w',
    rtc step (clicked_increment 0 (VSharedArrayBuffer 1) 4, main_world) (workers', w') /\
    counter_slot w' 0 = 400000 /\
    shown_after (outbox w') = Some (VNumber 100000).
Proof.
  destruct (last_report_can_be_stale 0 (VSharedArrayBuffer 1) 0 4 main_world ltac:(lia)
              main_world_session_start)
    as (workers' & w' & Hrun & _ & Hcount & Hshown & _).
  exists workers', w'. auto.
Defined.

(** *** Any requests, in any order *)

Lemma balance_step_keeps cb T s s' :
  balance_invariant cb T s -> step s s' -> balance_invariant cb T s'.
Proof.
  intros (Hcb & Hall & Hsum) Hstep. destruct Hstep as [i a a' workers w w' Hi Hstep].
  cbn [fst snd] in *.
  destruct (Hall i a Hi) as (Hun & Hreq & Hplace).
  assert (Hframe : forall a1 w1,
             usable_buffer w1 cb -> orderly cb a1 ->
             (counter_slot w1 cb + pending_delta a1) mod 2 ^ 32
             = (counter_slot w cb + pending_delta a) mod 2 ^ 32 ->
             balance_invariant cb T (<[i := a1]> workers, w1)).
  { intros a1 w1 Hcb1 Hord1 Hsum1. unfold balance_invariant. cbn [fst snd].
    split; [exact Hcb1|]. split.
    - intros j b Hj. apply list_lookup_insert_Some in Hj as [(_ & <- & _)|[_ Hj]];
        [exact Hord1 | apply (Hall j b Hj)].
    - rewrite (total_insert pending_delta workers i a a1 Hi).
      replace (counter_slot w1 cb + (total pending_delta workers - pending_delta a
                                     + pending_delta a1))
        with ((counter_slot w1 cb + pending_delta a1)
              + (total pending_delta workers - pending_delta a)) by lia.
      rewrite <- Zplus_mod_idemp_l, Hsum1, Zplus_mod_idemp_l.
      replace (counter_slot w cb + pending_delta a
               + (total pending_delta workers - pending_delta a))
        with (counter_slot w cb + total pending_delta workers) by lia.
      exact Hsum. }
  unfold worker_step in Hstep.
  destruct (pc a) as [|counter op|counter op n|counter|v] eqn:Hpc.
  - (* the next request is taken up *)
    destruct (inbox a) as [|data rest] eqn:Hin; [discriminate|].
    inversion Hreq as [|? ? Hdata Hrest]; subst.
    unfold run in Hstep. rewrite Hdata in Hstep. cbn [new example2 argument nth] in Hstep.
    rewrite Counter2_constructor_usable in Hstep by exact Hcb.
    injection Hstep as <- <-. apply Hframe; [exact Hcb| |].
    + split; [exact Hun|]. split; [exact Hrest|]. cbn [moved pc].
      destruct (is_string (operation data) "increment"); [reflexivity|].
      destruct (is_string (operation data) "decrement"); [reflexivity | exact I].
    + f_equal. f_equal. unfold pending_delta. rewrite Hpc, Hin, total_cons.
      cbn [moved pc inbox]. unfold request_delta.
      destruct (is_string (operation data) "increment"); [cbn [sign]; lia|].
      destruct (is_string (operation data) "decrement"); cbn [sign]; lia.
  - (* the first line of the console *)
    unfold run, console_log in Hstep. injection Hstep as <- <-.
    apply Hframe; [exact Hcb| |].
    + split; [exact Hun|]. split; [exact Hreq|]. cbn [moved pc]. split; [exact Hplace | lia].
    + change (counter_slot _ cb) with (counter_slot w cb) at 1.
      unfold pending_delta. rewrite Hpc. reflexivity.
  - destruct Hplace as [-> Hn].
    pose proof (usable_in_range w cb Uint32 Hcb) as Hrange.
    destruct (Z.ltb_spec 0 n) as [Hpos|Hzero].
    + (* one update *)
      assert (Hupdate : match op with
                        | Increment => increment example2 (counter2_on cb) None
                        | Decrement => decrement example2 (counter2_on cb) None
                        end w
                        = Returned tt (write_raw w (View Uint32 cb) 0
                                         ((counter_slot w cb + sign op) mod 2 ^ 32))).
      { destruct op; cbn [increment decrement example2 sign].
        - apply (Counter2_increment_usable w cb None Hcb).
        - apply (Counter2_decrement_usable w cb None Hcb). }
      unfold run in Hstep. rewrite Hupdate in Hstep. injection Hstep as <- <-.
      apply Hframe.
      * apply usable_write; assumption.
      * split; [exact Hun|]. split; [exact Hreq|]. cbn [moved pc]. split; [reflexivity | lia].
      * rewrite counter_slot_write by exact Hcb. rewrite Z.mod_mod by lia.
        unfold pending_delta. rewrite Hpc. cbn [moved pc inbox].
        rewrite Zplus_mod_idemp_l. f_equal. lia.
    + (* the loop is over: the second line of the console *)
      unfold run, console_log in Hstep. injection Hstep as <- <-.
      apply Hframe; [exact Hcb| |].
      * split; [exact Hun|]. split; [exact Hreq|]. reflexivity.
      * change (counter_slot _ cb) with (counter_slot w cb) at 1.
        unfold pending_delta. rewrite Hpc. cbn [moved pc inbox].
        assert (n = 0) by lia. subst n. f_equal. lia.
  - (* the count is read *)
    subst counter. unfold run in Hstep. cbn [value example2] in Hstep.
    rewrite (Counter2_value_usable w cb Hcb) in Hstep. injection Hstep as <- <-.
    apply Hframe; [exact Hcb| |].
    + split; [exact Hun|]. split; [exact Hreq|]. exact I.
    + unfold pending_delta. rewrite Hpc. reflexivity.
  - (* the report is posted *)
    unfold run, postMessage in Hstep. injection Hstep as <- <-.
    apply Hframe; [exact Hcb| |].
    + split; [exact Hun|]. split; [exact Hreq|]. exact I.
    + change (counter_slot _ cb) with (counter_slot w cb) at 1.
      unfold pending_delta. rewrite Hpc. reflexivity.
Qed.

Lemma balance_run_keeps cb T s s' :
  balance_invariant cb T s -> rtc step s s' -> balance_invariant cb T s'.
Proof.
  intros Hinv Hrun. induction Hrun as [|s s1 s' H1 _ IH]; [exact Hinv|].
  apply IH. apply (balance_step_keeps cb T s s1 Hinv H1).
Qed.

Lemma balance_at_rest cb T workers w :
  balance_invariant cb T (workers, w) -> Forall at_rest workers ->
  counter_slot w cb = T mod 2 ^ 32.
Proof.
  intros (_ & _ & Hsum) Hrest. cbn [fst snd] in Hsum.
  rewrite (total_constant pending_delta 0) in Hsum.
  - rewrite Z.mul_0_l, Z.add_0_r in Hsum. rewrite <- Hsum. symmetry.
    apply Z.mod_small. apply counter_slot_range.
  - intros i a Hi. apply list_elem_of_lookup_2 in Hi.
    destruct (proj1 (Forall_forall _ _) Hrest a Hi) as [Hpc Hin].
    unfold pending_delta. rewrite Hpc, Hin. reflexivity.
Qed.

(** One worker handles all it has been sent. *)
Lemma updates_alone cb nm requests (op : operation_kind) (k : nat) :
  forall (front back : list (worker example2)) w,
    usable_buffer w cb ->
    exists w',
      rtc step
        (front ++ busy nm requests (@InLoop example2 (counter2_on cb) op (Z.of_nat k))
               :: back, w)
        (front ++ busy nm requests (@InLoop example2 (counter2_on cb) op 0) :: back, w') /\
      usable_buffer w' cb.
Proof.
  induction k as [|k IH]; intros front back w Hcb.
  - exists w. split; [apply rtc_refl | exact Hcb].
  - pose proof (usable_in_range w cb Uint32 Hcb) as Hr.
    set (w1 := write_raw w (View Uint32 cb) 0 ((counter_slot w cb + sign op) mod 2 ^ 32)).
    assert (Hcb1 : usable_buffer w1 cb) by (apply usable_write; assumption).
    destruct (IH front back w1 Hcb1) as (w' & Hrun & Hcb').
    exists w'. split; [|exact Hcb'].
    eapply rtc_l; [|exact Hrun].
    apply session_step_in_place. unfold worker_step. cbn [busy pc].
    destruct (Z.ltb_spec 0 (Z.of_nat (S k))); [|lia].
    unfold run.
    replace (match op with
             | Increment => increment example2 (counter2_on cb) None
             | Decrement => decrement example2 (counter2_on cb) None
             end w) with (@Returned unit tt w1).
    + unfold moved. cbn [name inbox uncaught].
      replace (Z.of_nat (S k) - 1) with (Z.of_nat k) by lia. reflexivity.
    + symmetry. destruct op; cbn [increment decrement example2 sign].
      * apply (Counter2_increment_usable w cb None Hcb).
      * apply (Counter2_decrement_usable w cb None Hcb).
Qed.

Lemma counts_alone cb nm requests (op : operation_kind)
      (front back : list (worker example2)) w :
  usable_buffer w cb ->
  exists w',
    rtc step (front ++ busy nm requests (@AtLog example2 (counter2_on cb) op) :: back, w)
             (front ++ busy nm requests Idle :: back, w') /\
    usable_buffer w' cb.
Proof.
  intros Hcb.
  set (w1 := {| heap := heap w; waiters := waiters w;
                console := console w ++ [match op with
                                         | Increment => "Incrementing.."
                                         | Decrement => "Decrementing.."
                                         end];
                outbox := outbox w |}).
  assert (Hcb1 : usable_buffer w1 cb) by exact Hcb.
  destruct (updates_alone cb nm requests op (Z.to_nat 100000) front back w1 Hcb1)
    as (w2 & Hloop & Hcb2).
  rewrite Z2Nat.id in Hloop by lia.
  set (w3 := {| heap := heap w2; waiters := waiters w2;
                console := console w2 ++ [(nm ++ " is done counting!")%string];
                outbox := outbox w2 |}).
  assert (Hcb3 : usable_buffer w3 cb) by exact Hcb2.
  set (w4 := {| heap := heap w3; waiters := waiters w3; console := console w3;
                outbox := outbox w3 ++ [{| done := true;
                                           count := VNumber (counter_slot w3 cb) |}] |}).
  exists w4. split; [|exact Hcb3].
  eapply rtc_l.
  { apply session_step_in_place. unfold worker_step. cbn [busy pc].
    unfold run, console_log, moved. cbn [name inbox uncaught]. reflexivity. }
  eapply rtc_trans; [exact Hloop|].
  eapply rtc_l.
  { apply session_step_in_place. unfold worker_step. cbn [busy pc].
    destruct (Z.ltb_spec 0 0); [lia|].
    unfold run, console_log, moved. cbn [name inbox uncaught]. reflexivity. }
  eapply rtc_l.
  { apply session_step_in_place. unfold worker_step. cbn [pc].
    unfold run. cbn [value example2].
    rewrite Counter2_value_usable by exact Hcb3.
    unfold moved. cbn [name inbox uncaught]. reflexivity. }
  eapply rtc_l; [|apply rtc_refl].
  apply session_step_in_place. unfold worker_step. cbn [pc].
  unfold run, postMessage, moved. cbn [name inbox uncaught]. reflexivity.
Qed.

Lemma drains_alone cb nm (requests : list EventData) :
  forall (front back : list (worker example2)) w,
    usable_buffer w cb ->
    Forall (fun data => sharedCounterBuffer data = VSharedArrayBuffer cb) requests ->
    exists w',
      rtc step (front ++ busy nm requests Idle :: back, w)
               (front ++ busy nm [] Idle :: back, w') /\
      usable_buffer w' cb.
Proof.
  induction requests as [|data rest IH]; intros front back w Hcb Hreq.
  - exists w. split; [apply rtc_refl | exact Hcb].
  - inversion Hreq as [|? ? Hdata Hrest]; subst.
    assert (Hfirst : exists w1,
               rtc step (front ++ busy nm (data :: rest) Idle :: back, w)
                        (front ++ busy nm rest Idle :: back, w1) /\
               usable_buffer w1 cb).
    { assert (Hstep : worker_step (busy nm (data :: rest) Idle) w
                      = Some (busy nm rest
                                (if is_string (operation data) "increment"
                                 then @AtLog example2 (counter2_on cb) Increment
                                 else if is_string (operation data) "decrement"
                                      then @AtLog example2 (counter2_on cb) Decrement
                                      else Idle), w)).
      { unfold worker_step. cbn [busy pc inbox]. unfold run.
        rewrite Hdata. cbn [new example2 argument nth].
        rewrite Counter2_constructor_usable by exact Hcb.
        unfold moved, busy. cbn [name inbox uncaught].
        destruct (is_string (operation data) "increment"); [reflexivity|].
        destruct (is_string (operation data) "decrement"); reflexivity. }
      destruct (is_string (operation data) "increment").
      - destruct (counts_alone cb nm rest Increment front back w Hcb) as (w1 & Hrun & Hcb1).
        exists w1. split; [|exact Hcb1].
        eapply rtc_l; [apply session_step_in_place; exact Hstep | exact Hrun].
      - destruct (is_string (operation data) "decrement").
        + destruct (counts_alone cb nm rest Decrement front back w Hcb)
            as (w1 & Hrun & Hcb1).
          exists w1. split; [|exact Hcb1].
          eapply rtc_l; [apply session_step_in_place; exact Hstep | exact Hrun].
        + exists w. split; [|exact Hcb].
          eapply rtc_l; [apply session_step_in_place; exact Hstep | apply rtc_refl]. }
    destruct Hfirst as (w1 & Hrun1 & Hcb1).
    destruct (IH front back w1 Hcb1 Hrest) as (w' & Hrun & Hcb').
    exists w'. split; [|exact Hcb']. eapply rtc_trans; eassumption.
Qed.

Lemma queued_come_to_rest cb (workers : list (worker example2)) :
  forall (front : list (worker example2)) w,
    usable_buffer w cb -> Forall (queued cb) workers ->
    exists workers' w',
      rtc step (front ++ workers, w) (front ++ workers', w') /\ Forall at_rest workers'.
Proof.
  induction workers as [|a workers IH]; intros front w Hcb Hq.
  - exists [], w. split; [apply rtc_refl | constructor].
  - inversion Hq as [|? ? Ha Hrest]; subst.
    destruct a as [nm requests unc p]. destruct Ha as (Hpc & Hun & Hreq & _).
    cbn [pc uncaught inbox] in *. subst p unc.
    destruct (drains_alone cb nm requests front workers w Hcb Hreq) as (w1 & Hrun1 & Hcb1).
    destruct (IH (front ++ [busy nm [] Idle]) w1 Hcb1 Hrest) as (workers' & w' & Hrun & Hr').
    exists (busy nm [] Idle :: workers'), w'. split.
    + eapply rtc_trans; [exact Hrun1|].
      rewrite <- !(app_assoc front [_]) in Hrun. exact Hrun.
    + constructor; [split; reflexivity | exact Hr'].
Qed.

(** X15.  With the atomic counter the count does not depend on the order of
    the steps: whatever requests the workers have been sent (any number of
    clicks on "increment" and "decrement", and requests with other tags),
    when all of them have been handled the counter holds what it held before
    plus 100,000 for each "increment" request and minus 100,000 for each
    "decrement" request (modulo 2^32), under every interleaving of the
    workers; no handler throws on the way; and the workers can always come
    to rest. *)
Theorem atomic_session_balance (cb : nat) (workers : list (worker example2)) (w : world) :
  usable_buffer w cb -> Forall (queued cb) workers ->
  (forall workers' w',
     rtc step (workers, w) (workers', w') ->
     (forall (i : nat) a, workers' !! i = Some a -> uncaught a = []) /\
     (Forall at_rest workers' ->
      counter_slot w' cb
      = (counter_slot w cb
         + total (fun a => total request_delta (inbox a)) workers) mod 2 ^ 32)) /\
  (exists workers' w', rtc step (workers, w) (workers', w') /\ Forall at_rest workers').
Proof.
  intros Hcb Hq. split.
  - intros workers' w' Hrun.
    assert (Hinv : balance_invariant cb (counter_slot w cb + total pending_delta workers)
                                     (workers, w)).
    { split; [exact Hcb|]. split; [|reflexivity].
      intros i a Hi. apply list_elem_of_lookup_2 in Hi.
      apply (proj1 (Forall_forall _ _) Hq a Hi). }
    pose proof (balance_run_keeps cb _ _ _ Hinv Hrun) as Hinv'.
    split.
    + intros i a Hi. destruct Hinv' as (_ & Hall & _). apply (Hall i a Hi).
    + intros Hrest. rewrite (balance_at_rest cb _ workers' w' Hinv' Hrest).
      f_equal. f_equal. clear -Hq.
      induction Hq as [|a workers [Hpc _] _ IH]; [reflexivity|].
      rewrite !total_cons, IH. unfold pending_delta. rewrite Hpc. lia.
  - apply (queued_come_to_rest cb workers [] w Hcb Hq).
Qed.

(** The four workers of [main.js] after a click on "increment" and a click
    on "decrement", on its fresh buffers: when all is handled the counter is
    back at 0. *)
Lemma atomic_session_balance_witness :
  let workers :=
    triggerConcurrentDecrements (VSharedArrayBuffer 0) (VSharedArrayBuffer 1)
      (clicked_increment 0 (VSharedArrayBuffer 1) 4) in
  exists workers' w',
    rtc step (workers, main_world) (workers', w') /\ Forall at_rest workers' /\
    counter_slot w' 0 = 0.
Proof.
  intros workers.
  assert (Hcb : usable_buffer main_world 0)
    by (split; vm_compute; [discriminate | reflexivity]).
  assert (Hq : Forall (queued 0) workers).
  { repeat constructor. }
  destruct (atomic_session_balance 0 workers main_world Hcb Hq)
    as (Hall & workers' & w' & Hrun & Hrest).
  exists workers', w'. split; [exact Hrun|]. split; [exact Hrest|].
  rewrite (proj2 (Hall workers' w' Hrun) Hrest). reflexivity.
Defined.
End Session.

(** ** What no operation touches *)

Section Frame.
Import Mutex.
Implicit Types (w : world) (block cb mb : nat) (blocks : list nat).

Lemma kept_refl blocks w : kept_beyond_slots blocks w w.
Proof. intros b. auto. Qed.

Lemma kept_trans blocks w w1 w2 :
  kept_beyond_slots blocks w w1 -> kept_beyond_slots blocks w1 w2 ->
  kept_beyond_slots blocks w w2.
Proof.
  intros H1 H2 b. destruct (H1 b) as (L1 & D1 & O1), (H2 b) as (L2 & D2 & O2).
  split; [congruence|]. split; [congruence|].
  intros Hb. rewrite (O2 Hb). apply (O1 Hb).
Qed.

Lemma kept_heap blocks w w' : heap w' = heap w -> kept_beyond_slots blocks w w'.
Proof. intros H b. unfold data_block. rewrite H. auto. Qed.

Lemma kept_write blocks w ty block raw :
  (0 < view_length w (View ty block))%nat -> In block blocks ->
  kept_beyond_slots blocks w (write_raw w (View ty block) 0 raw).
Proof.
  intros Hr Hin b. split; [apply length_write; exact Hr|].
  destruct (Nat.eq_dec b block) as [->|Hne].
  - split; [|intros Hb; contradiction].
    change block with (view_buffer (View ty block)) at 1.
    rewrite data_block_write_same. cbn [view_buffer Nat.mul Nat.add].
    rewrite take_0. cbn [app]. apply drop_app_length'. symmetry. apply length_le_split.
  - rewrite (data_block_write_other w (View ty block) 0 raw b) by exact Hne. auto.
Qed.

Lemma ends_in_kept_bind {A B} blocks (m : M A) (k : A -> M B) w :
  ends_in (kept_beyond_slots blocks w) (m w) ->
  (forall a w1, ends_in (kept_beyond_slots blocks w1) (k a w1)) ->
  ends_in (kept_beyond_slots blocks w) (bind m k w).
Proof.
  intros Hm Hk. unfold bind. destruct (m w) as [a w1|e w1|w1|]; cbn [ends_in] in *; auto.
  specialize (Hk a w1). destruct (k a w1); cbn [ends_in] in *; auto;
    eapply kept_trans; eassumption.
Qed.

Lemma validate_kept blocks view i w :
  ends_in (kept_beyond_slots blocks w) (Atomics.validate view i w).
Proof.
  unfold Atomics.validate. destruct (_ <? _)%nat; cbn [ends_in]; apply kept_refl.
Qed.

Lemma add_kept blocks ty block n w :
  In block blocks ->
  ends_in (kept_beyond_slots blocks w) (Atomics.add (View ty block) 0 n w).
Proof.
  intros Hin. unfold Atomics.add, bind, Atomics.validate.
  destruct (Nat.ltb_spec 0 (view_length w (View ty block))); cbn [ends_in];
    [apply kept_write; assumption | apply kept_refl].
Qed.

Lemma sub_kept blocks ty block n w :
  In block blocks ->
  ends_in (kept_beyond_slots blocks w) (Atomics.sub (View ty block) 0 n w).
Proof.
  intros Hin. unfold Atomics.sub, bind, Atomics.validate.
  destruct (Nat.ltb_spec 0 (view_length w (View ty block))); cbn [ends_in];
    [apply kept_write; assumption | apply kept_refl].
Qed.

Lemma compareExchange_kept blocks ty block expected replacement w :
  In block blocks ->
  ends_in (kept_beyond_slots blocks w)
          (Atomics.compareExchange (View ty block) 0 expected replacement w).
Proof.
  intros Hin. unfold Atomics.compareExchange, bind, Atomics.validate.
  destruct (Nat.ltb_spec 0 (view_length w (View ty block))); cbn [ends_in];
    [|apply kept_refl].
  destruct (_ =? _); cbn [ends_in]; [apply kept_write; assumption | apply kept_refl].
Qed.

Lemma wait_kept blocks self view i n w :
  ends_in (kept_beyond_slots blocks w) (Atomics.wait self view i n w).
Proof.
  unfold Atomics.wait, bind, Atomics.validate_waitable, Atomics.validate.
  destruct (view_type view); cbn [ends_in]; [apply kept_refl|].
  destruct (_ <? _)%nat; cbn [ends_in]; [|apply kept_refl].
  destruct (_ =? _); cbn [ends_in]; [apply kept_heap; reflexivity | apply kept_refl].
Qed.

Lemma notify_kept blocks view i count w :
  ends_in (kept_beyond_slots blocks w) (Atomics.notify view i count w).
Proof.
  unfold Atomics.notify, bind, Atomics.validate_waitable, Atomics.validate.
  destruct (view_type view); cbn [ends_in]; [apply kept_refl|].
  destruct (_ <? _)%nat; cbn [ends_in]; [|apply kept_refl].
  destruct (Atomics.remove_waiters _ _ _ _). cbn [ends_in].
  apply kept_heap. reflexivity.
Qed.

Lemma add_assign_kept blocks ty block n w :
  In block blocks ->
  ends_in (kept_beyond_slots blocks w) (add_assign_element (View ty block) 0 n w).
Proof.
  intros Hin. unfold add_assign_element, get_element, set_element.
  destruct (Nat.ltb_spec 0 (view_length w (View ty block))); cbn [ends_in];
    [apply kept_write; assumption | apply kept_refl].
Qed.

Lemma lock_kept blocks self fuel block : forall w,
  In block blocks ->
  ends_in (kept_beyond_slots blocks w) (lock self fuel (mutex_on block) w).
Proof.
  induction fuel as [|fuel IH]; intros w Hin; cbn [lock]; [exact I|].
  apply ends_in_kept_bind.
  - unfold tryGetLock. apply ends_in_kept_bind; [|intros; apply kept_refl].
    apply compareExchange_kept. exact Hin.
  - intros [] w1; [apply kept_refl|].
    apply ends_in_kept_bind; [|intros _ w2; apply IH; exact Hin].
    unfold waitIfLocked. apply ends_in_kept_bind; [apply wait_kept | intros; apply kept_refl].
Qed.

Lemma unlock_kept blocks block w :
  In block blocks ->
  ends_in (kept_beyond_slots blocks w) (unlock (mutex_on block) w).
Proof.
  intros Hin. unfold unlock. apply ends_in_kept_bind.
  - unfold tryUnlock. apply ends_in_kept_bind; [|intros; apply kept_refl].
    apply compareExchange_kept. exact Hin.
  - intros [] w1; [|apply kept_refl].
    unfold notifyAgents. apply ends_in_kept_bind; [apply notify_kept | intros; apply kept_refl].
Qed.

(** X16.  No operation writes beyond the first element of its buffer or to
    any other buffer: however it ends, in whatever world it is called, and
    whatever the size of the buffers, [increment] and [decrement] of the
    three counters and [lock] and [unlock] of the mutex leave every byte
    from the fifth on, and every byte of every other buffer, as they were;
    no buffer changes its length. *)
Theorem updates_stay_in_their_slot (self : agent) (fuel : nat) (block cb mb : nat)
        (d : option Z) (w : world) :
  ends_in (kept_beyond_slots [block] w) (CounterExample1.increment (counter1_on block) d w) /\
  ends_in (kept_beyond_slots [block] w) (CounterExample1.decrement (counter1_on block) d w) /\
  ends_in (kept_beyond_slots [block] w) (CounterExample2.increment (counter2_on block) d w) /\
  ends_in (kept_beyond_slots [block] w) (CounterExample2.decrement (counter2_on block) d w) /\
  ends_in (kept_beyond_slots [block] w) (lock self fuel (mutex_on block) w) /\
  ends_in (kept_beyond_slots [block] w) (unlock (mutex_on block) w) /\
  ends_in (kept_beyond_slots [cb; mb] w)
          (CounterExample3.increment self fuel (counter3_on cb mb) d w) /\
  ends_in (kept_beyond_slots [cb; mb] w)
          (CounterExample3.decrement self fuel (counter3_on cb mb) d w) /\
  ends_in (kept_beyond_slots [cb; mb] w)
          (CounterExample3.value self fuel (counter3_on cb mb) w).
Proof.
  assert (Hcb : In cb [cb; mb]) by (left; reflexivity).
  assert (Hmb : In mb [cb; mb]) by (right; left; reflexivity).
  assert (Hb : In block [block]) by (left; reflexivity).
  assert (H3 : forall d', ends_in (kept_beyond_slots [cb; mb] w)
                            (CounterExample3.increment self fuel (counter3_on cb mb) d' w)).
  { intros d'. unfold CounterExample3.increment.
    cbn [counter3_on CounterExample3.mutex CounterExample3.bufferView].
    apply ends_in_kept_bind; [apply lock_kept; exact Hmb|]. intros _ w1.
    apply ends_in_kept_bind; [apply add_assign_kept; exact Hcb|]. intros _ w2.
    apply unlock_kept; exact Hmb. }
  repeat split.
  - apply add_assign_kept; exact Hb.
  - apply (add_assign_kept [block] Uint32 block _ w Hb).
  - unfold CounterExample2.increment. apply ends_in_kept_bind; [|intros; apply kept_refl].
    apply add_kept; exact Hb.
  - unfold CounterExample2.decrement. apply ends_in_kept_bind; [|intros; apply kept_refl].
    apply sub_kept; exact Hb.
  - apply lock_kept; exact Hb.
  - apply unlock_kept; exact Hb.
  - apply H3.
  - apply (H3 (Some (- default 1 d))).
  - unfold CounterExample3.value.
    cbn [counter3_on CounterExample3.mutex CounterExample3.bufferView].
    apply ends_in_kept_bind; [apply lock_kept; exact Hmb|]. intros _ w1.
    apply ends_in_kept_bind; [apply kept_refl|]. intros v w2.
    apply ends_in_kept_bind; [apply unlock_kept; exact Hmb|]. intros; apply kept_refl.
Qed.

(** X17.  The mutex keeps no record of its holder: once an agent has taken
    the lock, a call of [unlock()], which takes no account of who makes it,
    frees the lock, and the [lock()] of another agent returns while the
    first agent has not unlocked.  Only the discipline of the callers, as in
    the guarded counter, keeps two agents from being inside at once. *)
Theorem unlock_does_not_check_the_holder (first second : agent) (fuel fuel' : nat)
        (block : nat) (w : world) :
  usable_buffer w block -> lock_slot w block = UNLOCKED ->
  exists w1 w2 w3,
    lock first (S fuel) (mutex_on block) w = Returned tt w1 /\
    unlock (mutex_on block) w1 = Returned tt w2 /\
    lock second (S fuel') (mutex_on block) w2 = Returned tt w3 /\
    lock_slot w1 block = LOCKED /\ lock_slot w2 block = UNLOCKED /\
    lock_slot w3 block = LOCKED.
Proof.
  intros Hw Hfree.
  pose proof (usable_in_range w block Int32 Hw) as Hr.
  set (w1 := write_raw w (View Int32 block) 0 (ToUint32 LOCKED)).
  assert (Hw1 : usable_buffer w1 block) by (apply usable_write; assumption).
  assert (Hl1 : lock_slot w1 block = LOCKED)
    by (unfold w1; rewrite lock_slot_write by exact Hr; reflexivity).
  destruct (unlock_held w1 block Hw1 Hl1) as (w2 & Hu & Hh & _ & _ & Hl2 & _).
  assert (Hw2 : usable_buffer w2 block).
  { apply (usable_heap _ w2 block Hh). apply usable_write; [|exact Hw1].
    apply usable_in_range. exact Hw1. }
  pose proof (usable_in_range w2 block Int32 Hw2) as Hr2.
  exists w1, w2, (write_raw w2 (View Int32 block) 0 (ToUint32 LOCKED)).
  split; [apply lock_free; assumption|]. split; [exact Hu|].
  split; [apply lock_free; assumption|]. split; [exact Hl1|]. split; [exact Hl2|].
  rewrite lock_slot_write by exact Hr2. reflexivity.
Qed.

(** On the mutex of [main.js]: agent 0 locks, [unlock()] is called, agent 1
    locks. *)
Lemma unlock_does_not_check_the_holder_witness :
  exists w3,
    (lock 0%nat 1 (mutex_on 1) ;; unlock (mutex_on 1) ;; lock 1%nat 1 (mutex_on 1))%js
      main_world
    = Returned tt w3 /\ lock_slot w3 1 = LOCKED.
Proof.
  assert (U : usable_buffer main_world 1)
    by (split; vm_compute; [discriminate | reflexivity]).
  destruct (unlock_does_not_check_the_holder 0%nat 1%nat 0 0 1 main_world U eq_refl)
    as (w1 & w2 & w3 & H1 & H2 & H3 & _ & _ & Hl).
  exists w3. split; [|exact Hl].
  unfold bind. rewrite H1, H2. exact H3.
Defined.
End Frame.
